(** * KsanaLLM: request admission, block sizing, swap and step marshalling

    A shallow embedding of the parts of KsanaLLM that decide the behaviour of
    - [BatchScheduler] (batch_manager/batch_scheduler/batch_scheduler.cpp),
    - [BatchManager]   (batch_manager/batch_manager.cpp),
    - [BlockManager]   (block_manager/block_manager.cpp),
    - [Llama]          (models/llama/llama.cpp, the host-side tables built
                        by ContextDecode and Decode, and the tensors the
                        constructor creates and the destructor destroys),
    - [CommonModel]    (models/common/common_model.cpp, the token buffer
                        of EmbedTokensUseCpu),
    - [CustomAllReduceSumLayer]
                       (layers/custom_all_reduce_sum_layer.cpp),
    - [MatMulLayer]    (layers/ascend/matmul_layer.cpp),
    followed by the properties proved about them.

    Conventions.
    - A [size_t] is a [Z] in [0, 2^64); arithmetic that the source performs
      on [size_t] is written with [SizeT.wrap].
    - Objects held through [std::shared_ptr] live in a store and are named
      by their address (a [nat]); queues and request groups hold addresses,
      so that two holders of one object see each other's writes.
    - Writes to a request and calls of [Notify] are also recorded, in program
      order, in a trace of [Event]s. *)

From Stdlib Require Import ZArith List Bool Lia QArith Qround.
From stdpp Require Import base option list gmap strings.

Set Default Proof Using "Type".

(** ** Machine integers *)

Module SizeT.

Definition modulus : Z := 2 ^ 64.

Definition wrap (z : Z) : Z := z mod modulus.

Definition in_range (z : Z) : Prop := (0 <= z < modulus)%Z.

(** Conversion of a [size_t] to [int] (the narrowing done when a
    [size()] is passed to an [int] parameter). *)
Definition to_int (z : Z) : Z := ((z + 2 ^ 31) mod 2 ^ 32 - 2 ^ 31)%Z.

Arguments wrap : simpl never.
Arguments to_int : simpl never.

End SizeT.

(** ** Status (utils/status.h, utils/ret_code.h)

    The headers are not among the sources.  The first three codes are the
    ones the sources name; the last three are the error kinds the spec names
    for the block allocator and for a stopped request.  [Status()] is the
    success status. *)

Inductive RetCode : Type :=
  | RET_SUCCESS
  | RET_EXCEED_CAPACITY
  | RET_EXCEED_LENGTH
  | RET_OUT_OF_DEVICE_MEMORY
  | RET_INVALID_ARGUMENT
  | RET_STOPPED.

Record Status : Type := MkStatus { code : RetCode; message : string }.

Definition Status_default : Status := MkStatus RET_SUCCESS "".

Definition OK (s : Status) : bool :=
  match code s with RET_SUCCESS => true | _ => false end.

(** What a call can end with besides returning: [NLLM_CHECK_WITH_INFO] and
    [throw std::runtime_error] leave the function with an exception,
    [std::exit] ends the process. *)
Inductive Outcome (A : Type) : Type :=
  | Returned (a : A)
  | Thrown (info : string)
  | Exited (exit_code : Z).
Arguments Returned {A} a.
Arguments Thrown {A} info.
Arguments Exited {A} exit_code.

(** [NLLM_CHECK_WITH_INFO(cond, info)]: continue when [cond] holds, leave
    with an exception carrying [info] otherwise. *)
Definition NLLM_CHECK_WITH_INFO {A} (cond : bool) (info : string)
    (k : Outcome A) : Outcome A :=
  if cond then k else Thrown info.

(** ** Requests and the shared store *)

Inductive InferStage : Type := STAGE_CONTEXT | STAGE_DECODE.

(** Modelled from the spec: runtime/infer_request.h is not among the sources.
    The fields are the ones the sources read and write.  The spec speaks of
    "the shared status" of a request group and of "the waiter" notified for
    it: [finish_status] and [waiter] are therefore references (addresses of
    a status cell and of a waiter), which several requests of one client
    request may have in common; [finished] is a field of the request
    itself. *)
Record InferRequest : Type := MkInferRequest {
  req_id : Z;
  input_tokens : list Z;
  output_tokens : list Z;
  infer_stage : InferStage;
  step : Z;
  kv_cache_blocks : list (list Z);
  block_size : Z;
  finished : bool;
  finish_status : nat;
  waiter : nat
}.

Definition with_finished (r : InferRequest) (b : bool) : InferRequest :=
  MkInferRequest (req_id r) (input_tokens r) (output_tokens r)
                 (infer_stage r) (step r)
                 (kv_cache_blocks r) (block_size r) b
                 (finish_status r) (waiter r).

Definition with_output_tokens (r : InferRequest) (tokens : list Z)
    : InferRequest :=
  MkInferRequest (req_id r) (input_tokens r) tokens
                 (infer_stage r) (step r)
                 (kv_cache_blocks r) (block_size r) (finished r)
                 (finish_status r) (waiter r).

(** Modelled from the spec: utils/waiter.h is not among the sources.  A
    waiter is a latch: [Waiter(n)] needs [n] notifications, [Notify] counts
    one and releases the latch when the count reaches zero, [Wait] returns
    once the latch is released, [Reset(n)] arms it again. *)
Record Waiter : Type := MkWaiter { num_wait : Z; done : bool }.

Definition Waiter_Notify (wt : Waiter) : Waiter :=
  let n := (num_wait wt - 1)%Z in
  MkWaiter n (if (n =? 0)%Z then true else done wt).

Definition Waiter_Reset (n : Z) (wt : Waiter) : Waiter := MkWaiter n false.

Inductive Event : Type :=
  | EvStatus (cell : nat) (s : Status)   (* finish_status = s *)
  | EvFinished (req : nat)               (* finished = true *)
  | EvNotify (w : nat).                  (* Notify() on waiter w *)

Global Instance RetCode_eq_dec : EqDecision RetCode.
Proof. solve_decision. Defined.

Global Instance Status_eq_dec : EqDecision Status.
Proof. solve_decision. Defined.

Global Instance Event_eq_dec : EqDecision Event.
Proof. solve_decision. Defined.

(** BatchState (batch_scheduler/state/batch_state.h): the queues hold
    [shared_ptr<InferRequest>]. *)
Record BatchState : Type := MkBatchState {
  waiting_buffer_queue : list nat;
  waiting_queue : list nat;
  running_queue : list nat;
  swapped_queue : list nat
}.

Record World : Type := MkWorld {
  requests : gmap nat InferRequest;
  statuses : gmap nat Status;
  waiters : gmap nat Waiter;
  batch_state : BatchState;
  trace : list Event
}.

Definition set_finish_status (cell : nat) (s : Status) (w : World) : World :=
  MkWorld (requests w) (<[cell := s]> (statuses w)) (waiters w)
          (batch_state w) (trace w ++ [EvStatus cell s]).

Definition set_finished (p : nat) (w : World) : option World :=
  r ← requests w !! p;
  Some (MkWorld (<[p := with_finished r true]> (requests w))
                (statuses w) (waiters w) (batch_state w)
                (trace w ++ [EvFinished p])).

Definition Notify (wt : nat) (w : World) : World :=
  MkWorld (requests w) (statuses w) (alter Waiter_Notify wt (waiters w))
          (batch_state w) (trace w ++ [EvNotify wt]).

(** [for (auto& infer_request : infer_request_group) infer_request->finished = true;] *)
Fixpoint mark_finished (group : list nat) (w : World) : option World :=
  match group with
  | [] => Some w
  | p :: rest => w' ← set_finished p w; mark_finished rest w'
  end.

Definition push_waiting_buffer (group : list nat) (w : World) : World :=
  let b := batch_state w in
  MkWorld (requests w) (statuses w) (waiters w)
          (MkBatchState (waiting_buffer_queue b ++ group) (waiting_queue b)
                        (running_queue b) (swapped_queue b))
          (trace w).

(** ** BatchScheduler *)

Module BatchScheduler.

(** BatchSchedulerConfig: the three limits the scheduler reads, as
    [size_t] values. *)
Record BatchSchedulerConfig : Type := MkConfig {
  max_waiting_queue_len : Z;
  max_token_len : Z;
  max_step_tokens : Z
}.

(** The constructor: the configuration check, then the (empty) state. *)
Definition BatchScheduler (c : BatchSchedulerConfig)
    : Outcome (BatchSchedulerConfig * BatchState) :=
  NLLM_CHECK_WITH_INFO (max_token_len c <? max_step_tokens c)%Z
    "The max_step_tokens must large than max_token_len."
    (Returned (c, MkBatchState [] [] [] [])).

(** [waiting_queue.size() + num >= max_waiting_queue_len], the sum taken
    in [size_t]. *)
Definition CheckWaitingQueueFull (c : BatchSchedulerConfig) (w : World)
    (num : Z) : bool :=
  (max_waiting_queue_len c <=?
     SizeT.wrap (Z.of_nat (length (waiting_queue (batch_state w))) + num))%Z.

(** [req->input_tokens.size() > max_token_len] *)
Definition CheckRequestExceedLength (c : BatchSchedulerConfig)
    (req : InferRequest) : bool :=
  (max_token_len c <? Z.of_nat (length (input_tokens req)))%Z.

(** The rejection path, the same for both gates: the status is written
    through the first request of the group, every request of the group is
    marked finished, the first request is notified, and the status read
    back through the first request is returned. *)
Definition reject (r0 : InferRequest) (group : list nat) (s : Status)
    (w : World) : option (Status * World) :=
  let w1 := set_finish_status (finish_status r0) s w in
  w2 ← mark_finished group w1;
  let w3 := Notify (waiter r0) w2 in
  s' ← statuses w3 !! finish_status r0;
  Some (s', w3).

(** [AddInferRequest].  [None] stands for undefined behaviour: an empty
    group ([infer_request_group[0]]) or an address with no object. *)
Definition AddInferRequest (c : BatchSchedulerConfig) (w : World)
    (infer_request_group : list nat) : option (Status * World) :=
  match infer_request_group with
  | [] => None
  | p0 :: _ =>
      infer_request ← requests w !! p0;
      if CheckWaitingQueueFull c w
           (SizeT.to_int (Z.of_nat (length infer_request_group)))
      then reject infer_request infer_request_group
             (MkStatus RET_EXCEED_CAPACITY "waiting queue is full.") w
      else if CheckRequestExceedLength c infer_request
      then reject infer_request infer_request_group
             (MkStatus RET_EXCEED_LENGTH "input length exceed max_token_len.") w
      else Some (Status_default, push_waiting_buffer infer_request_group w)
  end.

End BatchScheduler.

(** ** BatchManager *)

Module BatchManager.

(** Modelled from the spec: utils/request.h is not among the sources.  The
    client request carries the prompt, the cell that receives the final
    status and the waiter the client blocks on. *)
Record Request : Type := MkRequest {
  r_req_id : Z;
  r_model_name : string;
  r_input_tokens : list Z;
  r_finish_status : nat;
  r_waiter : nat
}.

Record BatchManager : Type := MkBatchManager {
  batch_scheduler_config : BatchScheduler.BatchSchedulerConfig;
  queue_waiter_ : nat;
  tensor_parallel_size : nat;
  block_manager_block_size : Z
}.

(** [std::make_shared<InferRequest>(req)] followed by the assignments of
    [Enqueue]: a new object at an address not in use. *)
Definition make_infer_request (bm : BatchManager) (req : Request)
    : InferRequest :=
  MkInferRequest (r_req_id req) (r_input_tokens req) (r_input_tokens req)
                 STAGE_CONTEXT 0
                 (replicate (tensor_parallel_size bm) [])
                 (block_manager_block_size bm) false
                 (r_finish_status req) (r_waiter req).

Definition new_address (w : World) : nat := fresh (dom (requests w)).

Definition allocate_request (p : nat) (r : InferRequest) (w : World)
    : World :=
  MkWorld (<[p := r]> (requests w)) (statuses w) (waiters w)
          (batch_state w) (trace w).

(** [Enqueue]: the status of the scheduler is logged and dropped, the
    queue waiter is notified, [Status()] is returned. *)
Definition Enqueue (bm : BatchManager) (w : World) (req : Request)
    : option (Status * World) :=
  let p := new_address w in
  let w0 := allocate_request p (make_infer_request bm req) w in
  res ← BatchScheduler.AddInferRequest (batch_scheduler_config bm) w0 [p];
  let enqueue_status := fst res in
  let w1 := snd res in
  let w2 := Notify (queue_waiter_ bm) w1 in
  Some (Status_default, w2).

(** *** The driver thread and [Stop]

    [Process] runs on the driver thread, [Stop] on the caller's.  Each
    thread is a small machine whose moves are the statements of the
    source; a move of the system is a move of one of the two.  The
    scheduler's [Schedule] and the runtime's [Step] are outside the
    sources and are parameters. *)
Section Threads.

Variable Schedule : World -> World * list nat.
Variable Step : list nat -> World -> World.
Variable queue_waiter : nat.

Inductive ProcessPc : Type :=
  | AtLoopTest                            (* while (!terminated_) *)
  | AtSchedule                            (* scheduled_reqs = Schedule() *)
  | AtWait                                (* queue_waiter_->Wait() *)
  | AtReset                               (* queue_waiter_->Reset(1) *)
  | InStep (scheduled_reqs : list nat)    (* llm_runtime_->Step(...) *)
  | ProcessReturned.                      (* return Status() *)

Inductive StopPc : Type :=
  | StopNotCalled
  | AtSetTerminated                       (* terminated_ = true *)
  | AtNotify                              (* queue_waiter_->Notify() *)
  | AtJoin                                (* batch_manager_thread_->join() *)
  | StopReturned.

#[global] Instance StopPc_eq_dec : EqDecision StopPc.
Proof. solve_decision. Defined.

Record Sys : Type := MkSys {
  terminated_ : bool;
  process_pc : ProcessPc;
  stop_pc : StopPc;
  world : World
}.

Definition waiter_done (w : World) : bool :=
  match waiters w !! queue_waiter with
  | Some wt => done wt
  | None => false
  end.

Definition Reset_queue_waiter (w : World) : World :=
  MkWorld (requests w) (statuses w)
          (alter (Waiter_Reset 1) queue_waiter (waiters w))
          (batch_state w) (trace w).

(** One move of the driver thread; [None] when it cannot move (it is
    blocked in [Wait], or has returned). *)
Definition process_move (s : Sys) : option Sys :=
  match process_pc s with
  | AtLoopTest =>
      Some (MkSys (terminated_ s)
                  (if terminated_ s then ProcessReturned else AtSchedule)
                  (stop_pc s) (world s))
  | AtSchedule =>
      let r := Schedule (world s) in
      Some (MkSys (terminated_ s)
                  (match snd r with [] => AtWait | _ => InStep (snd r) end)
                  (stop_pc s) (fst r))
  | AtWait =>
      if waiter_done (world s)
      then Some (MkSys (terminated_ s) AtReset (stop_pc s) (world s))
      else None
  | AtReset =>
      Some (MkSys (terminated_ s) AtLoopTest (stop_pc s)
                  (Reset_queue_waiter (world s)))
  | InStep reqs =>
      Some (MkSys (terminated_ s) AtLoopTest (stop_pc s)
                  (Step reqs (world s)))
  | ProcessReturned => None
  end.

(** One move of the thread that calls [Stop]. *)
Definition stop_move (s : Sys) : option Sys :=
  match stop_pc s with
  | StopNotCalled =>
      Some (MkSys (terminated_ s) (process_pc s) AtSetTerminated (world s))
  | AtSetTerminated =>
      Some (MkSys true (process_pc s) AtNotify (world s))
  | AtNotify =>
      Some (MkSys (terminated_ s) (process_pc s) AtJoin
                  (Notify queue_waiter (world s)))
  | AtJoin =>
      match process_pc s with
      | ProcessReturned =>
          Some (MkSys (terminated_ s) (process_pc s) StopReturned (world s))
      | _ => None
      end
  | StopReturned => None
  end.

Definition sys_step (s s' : Sys) : Prop :=
  process_move s = Some s' \/ stop_move s = Some s'.

Inductive run : Sys -> Sys -> Prop :=
  | run_refl s : run s s
  | run_step s s' s'' : sys_step s s' -> run s' s'' -> run s s''.

Definition halted (s : Sys) : Prop :=
  process_move s = None /\ stop_move s = None.

(** [Stop] has set [terminated_] while the driver is inside
    [Step(scheduled_reqs)]. *)
Definition stop_mid_generation (w : World) (scheduled_reqs : list nat)
    : Sys :=
  MkSys true (InStep scheduled_reqs) AtNotify w.

(** Number of moves left once [terminated_] is set and the driver is in
    its last step. *)
Definition moves_left (s : Sys) : nat :=
  (match process_pc s with
   | InStep _ => 2 | AtLoopTest => 1 | _ => 0
   end +
   match stop_pc s with
   | StopNotCalled => 4 | AtSetTerminated => 3 | AtNotify => 2
   | AtJoin => 1 | StopReturned => 0
   end)%nat.

(** The states the system goes through once [Stop] has set
    [terminated_] while the driver is inside [Step(reqs)], starting
    from world [w]. *)
Inductive stopping (w : World) (reqs : list nat) : Sys -> Prop :=
  | stopping_0 :
      stopping w reqs (MkSys true (InStep reqs) AtNotify w)
  | stopping_stepped pc :
      pc = AtLoopTest \/ pc = ProcessReturned ->
      stopping w reqs (MkSys true pc AtNotify (Step reqs w))
  | stopping_notified :
      stopping w reqs (MkSys true (InStep reqs) AtJoin (Notify queue_waiter w))
  | stopping_both pc sp x :
      pc = AtLoopTest \/ pc = ProcessReturned ->
      sp = AtJoin \/ (sp = StopReturned /\ pc = ProcessReturned) ->
      x = Notify queue_waiter (Step reqs w) \/
      x = Step reqs (Notify queue_waiter w) ->
      stopping w reqs (MkSys true pc sp x).

(** The second half of the shutdown scenario, as the spec words it:
    once [Stop] has returned, every request that was in flight is
    finished with status STOPPED. *)
Definition stop_marks_stopped : Prop :=
  forall w scheduled_reqs s,
    run (stop_mid_generation w scheduled_reqs) s -> halted s ->
    forall p, p ∈ scheduled_reqs ->
      exists r st,
        requests (world s) !! p = Some r /\ finished r = true /\
        statuses (world s) !! finish_status r = Some st /\
        code st = RET_STOPPED.

End Threads.

End BatchManager.

(** ** BlockManager *)

Module BlockManager.

(** Modelled from the spec: the allocators (host_allocator.h,
    nvidia_allocator.h) are not among the sources.  [AllocateBlocks]
    moves [n] blocks from the free pool to the used map with reference
    count 1, all or nothing, and fails with [OUT_OF_DEVICE_MEMORY] when
    fewer than [n] are free; [FreeBlocks] decrements the count and returns
    a block to the free pool when it reaches zero, an unknown id is
    [INVALID_ARGUMENT]; [GetBlockPtrs] succeeds when every id is
    tracked.  The free pool is kept in the order blocks are handed out. *)
Record Allocator : Type := MkAllocator {
  free_map : list (nat * Z);
  used_map : gmap nat (Z * nat)
}.

Definition AllocateBlocks (block_num : nat) (blocks : list nat)
    (a : Allocator) : Status * list nat * Allocator :=
  if (length (free_map a) <? block_num)%nat
  then (MkStatus RET_OUT_OF_DEVICE_MEMORY "No more free blocks.", blocks, a)
  else
    let taken := take block_num (free_map a) in
    (Status_default, fst <$> taken,
     MkAllocator (drop block_num (free_map a))
                 (foldr (fun b m => <[b.1 := (b.2, 1%nat)]> m)
                        (used_map a) taken)).

Fixpoint FreeBlocks (blocks : list nat) (a : Allocator)
    : Status * Allocator :=
  match blocks with
  | [] => (Status_default, a)
  | id :: rest =>
      match used_map a !! id with
      | None => (MkStatus RET_INVALID_ARGUMENT "Unknown block id.", a)
      | Some (addr, rc) =>
          if (rc <=? 1)%nat
          then FreeBlocks rest
                 (MkAllocator (free_map a ++ [(id, addr)])
                              (delete id (used_map a)))
          else FreeBlocks rest
                 (MkAllocator (free_map a)
                              (<[id := (addr, pred rc)]> (used_map a)))
      end
  end.

Definition block_ptr (a : Allocator) (id : nat) : option Z :=
  match used_map a !! id with
  | Some (addr, _) => Some addr
  | None => x ← list_find (fun b => b.1 = id) (free_map a); Some x.2.2
  end.

Definition GetBlockPtrs (blocks : list nat) (addrs : list Z)
    (a : Allocator) : Status * list Z :=
  match mapM (block_ptr a) blocks with
  | Some ptrs => (Status_default, ptrs)
  | None => (MkStatus RET_INVALID_ARGUMENT "Unknown block id.", addrs)
  end.

Record AllocatorConfig : Type := MkAllocatorConfig {
  cfg_block_size : Z;
  blocks_num : Z;
  block_token_num : Z
}.

(** BlockManagerConfig.  The ratios are [float]s in the source; they are
    modelled as exact rationals, so that rounding of the floating-point
    products is not part of the model. *)
Record BlockManagerConfig : Type := MkBlockManagerConfig {
  host_allocator_config : AllocatorConfig;
  device_allocator_config : AllocatorConfig;
  reserved_device_memory_ratio : Q;
  lora_host_memory_factor : Q;
  block_device_memory_ratio : Q;
  block_host_memory_factor : Q
}.









(** *** Swap *)

Inductive Stream : Type := ComputeStream (rank : nat).

Inductive MemcpyKind : Type :=
  | cudaMemcpyDeviceToHost
  | cudaMemcpyHostToDevice.

(** What [SwapOut] asks of the allocators and of the CUDA runtime, in
    program order. *)
Inductive Op : Type :=
  | OpHostAllocate (ids : list nat)
  | OpMemcpyAsync (dst src count : Z) (kind : MemcpyKind) (stream : Stream)
  | OpDeviceFree (device : nat) (ids : list nat).

Record BlockManager : Type := MkBlockManager {
  block_manager_config_ : BlockManagerConfig;
  host_allocator_ : Allocator;
  device_allocators_ : list Allocator;
  IsRunContextDecodeAndDecodeSerially : bool;
  GetDeviceId : nat;
  ops : list Op
}.

Definition with_host (bm : BlockManager) (a : Allocator) (new_ops : list Op)
    : BlockManager :=
  MkBlockManager (block_manager_config_ bm) a (device_allocators_ bm)
    (IsRunContextDecodeAndDecodeSerially bm) (GetDeviceId bm)
    (ops bm ++ new_ops).

Definition with_device (bm : BlockManager) (device_id : nat) (a : Allocator)
    (new_ops : list Op) : BlockManager :=
  MkBlockManager (block_manager_config_ bm) (host_allocator_ bm)
    (<[device_id := a]> (device_allocators_ bm))
    (IsRunContextDecodeAndDecodeSerially bm) (GetDeviceId bm)
    (ops bm ++ new_ops).

Definition unimplemented : string :=
  "Context decode and decode run in concurrently is unimplemented.".

(** The copy loop: one [cudaMemcpyAsync] per block, in index order. *)
Definition copies_to_host (host_addrs device_addrs : list Z) (count : Z)
    (stream : Stream) : list Op :=
  zip_with (fun h d => OpMemcpyAsync h d count cudaMemcpyDeviceToHost stream)
           host_addrs device_addrs.


(** [SwapOut(device_blocks, host_blocks)]: the outcome, the value of the
    out-parameter [host_blocks], and the block manager afterwards.
    [None] is undefined behaviour ([device_allocators_[device_id]] out of
    range). *)
Definition SwapOut (bm : BlockManager) (device_blocks host_blocks : list nat)
    : option (Outcome Status * list nat * BlockManager) :=
  let '(st, host_blocks, ha) :=
    AllocateBlocks (length device_blocks) host_blocks (host_allocator_ bm) in
  if negb (OK st) then Some (Returned st, host_blocks, bm) else
  let bm := with_host bm ha [OpHostAllocate host_blocks] in
  let '(st, host_addrs) := GetBlockPtrs host_blocks [] ha in
  if negb (OK st) then Some (Returned st, host_blocks, bm) else
  let device_id := GetDeviceId bm in
  let block_size :=
    SizeT.to_int (cfg_block_size (device_allocator_config (block_manager_config_ bm))) in
  device_allocator ← device_allocators_ bm !! device_id;
  let '(st, device_addrs) := GetBlockPtrs device_blocks [] device_allocator in
  if negb (OK st) then Some (Returned st, host_blocks, bm) else
  if IsRunContextDecodeAndDecodeSerially bm then
    let stream := ComputeStream device_id in
    let bm := with_host bm ha
                (copies_to_host host_addrs device_addrs
                                (SizeT.wrap block_size) stream) in
    if negb (IsRunContextDecodeAndDecodeSerially bm)
    then Some (Thrown unimplemented, host_blocks, bm)
    else
      let '(_, device_allocator) := FreeBlocks device_blocks device_allocator in
      Some (Returned Status_default, host_blocks,
            with_device bm device_id device_allocator
                        [OpDeviceFree device_id device_blocks])
  else Some (Thrown unimplemented, host_blocks, bm).

(** One step through [SwapOut] after a call that returned [Status()]:
    the status test, and the fields [with_host] leaves alone. *)
Ltac swap_out_step :=
  change (negb (OK Status_default)) with false;
  cbn beta iota zeta;
  repeat match goal with
    | |- context [GetDeviceId (with_host ?b ?a ?o)] =>
        change (GetDeviceId (with_host b a o)) with (GetDeviceId b)
    | |- context [device_allocators_ (with_host ?b ?a ?o)] =>
        change (device_allocators_ (with_host b a o))
          with (device_allocators_ b)
    | |- context [block_manager_config_ (with_host ?b ?a ?o)] =>
        change (block_manager_config_ (with_host b a o))
          with (block_manager_config_ b)
    | |- context [IsRunContextDecodeAndDecodeSerially (with_host ?b ?a ?o)] =>
        change (IsRunContextDecodeAndDecodeSerially (with_host b a o))
          with (IsRunContextDecodeAndDecodeSerially b)
    end.

End BlockManager.

(** ** Llama: the host-side tables of ContextDecode and Decode *)

Module Llama.

(** ForwardRequest (runtime/forward_request.h): the fields the two
    functions read.  [kv_cache_ptrs] holds, per rank, the addresses of the
    request's blocks; an address is a [Z]. *)
Record ForwardRequest : Type := MkForwardRequest {
  output_tokens : list Z;
  kv_cache_ptrs : list (list Z)
}.

Record Llama : Type := MkLlama {
  num_layer_ : nat;
  rank_ : nat;
  block_size_ : Z;
  max_batch_size_ : nat
}.

(** [forward_reqs[idx].kv_cache_ptrs[rank_]] ([rank_] is within the
    vector in every request the runtime builds). *)
Definition blocks_of (m : Llama) (r : ForwardRequest) : list Z :=
  kv_cache_ptrs r !!! rank_ m.

(** The first loop: [total_seq_len], [total_block_num] and
    [kv_cache_offset_list]. *)
Definition totals (m : Llama) (forward_reqs : list ForwardRequest)
    : nat * nat * list Z :=
  fold_left
    (fun '(total_seq_len, total_block_num, kv_cache_offset_list) r =>
       let total_seq_len := (total_seq_len + length (output_tokens r))%nat in
       let total_block_num := (total_block_num + length (blocks_of m r))%nat in
       (total_seq_len, total_block_num,
        kv_cache_offset_list ++ [SizeT.to_int (Z.of_nat total_block_num)]))
    forward_reqs (0%nat, 0%nat, [0%Z]).

(** ContextDecode: [input_ids_cpu.insert(end, begin, end)] per request. *)
Definition context_input_ids (forward_reqs : list ForwardRequest) : list Z :=
  fold_left (fun input_ids_cpu r => input_ids_cpu ++ output_tokens r)
            forward_reqs [].

(** [req_input->at(length - 1)]: [length - 1] is taken in [size_t], and
    [at] throws when the index is not within the vector. *)
Definition at_last (req_input : list Z) : option Z :=
  req_input !! Z.to_nat (SizeT.wrap (Z.of_nat (length req_input) - 1)).

(** Decode: [input_ids_cpu[idx] = req_input->at(length - 1)]. *)
Fixpoint decode_input_ids (idx : nat) (forward_reqs : list ForwardRequest)
    (input_ids_cpu : list Z) : Outcome (list Z) :=
  match forward_reqs with
  | [] => Returned input_ids_cpu
  | r :: rest =>
      match at_last (output_tokens r) with
      | None => Thrown "vector::_M_range_check"
      | Some t => decode_input_ids (S idx) rest (<[idx := t]> input_ids_cpu)
      end
  end.

(** Offsets added to a block address for layer [layer_idx]: the
    expressions [layer_idx * block_size_ / num_layer_] and
    [layer_idx * block_size_ / num_layer_ + block_size_ / num_layer_ / 2],
    evaluated left to right in [size_t]. *)
Definition k_offset (m : Llama) (layer_idx : nat) : Z :=
  (SizeT.wrap (Z.of_nat layer_idx * block_size_ m) / Z.of_nat (num_layer_ m))%Z.

Definition v_offset (m : Llama) (layer_idx : nat) : Z :=
  SizeT.wrap
    (SizeT.wrap (Z.of_nat layer_idx * block_size_ m) / Z.of_nat (num_layer_ m)
     + block_size_ m / Z.of_nat (num_layer_ m) / 2)%Z.

(** The innermost loop: one write per block of a request, at
    [base + kv_list_index]. *)
Fixpoint write_blocks (base : nat) (offset : Z) (blocks : list Z)
    (st : list Z * nat) : list Z * nat :=
  match blocks with
  | [] => st
  | kv_cache_ptr :: rest =>
      write_blocks base offset rest
        (<[(base + st.2)%nat := (kv_cache_ptr + offset)%Z]> st.1, S st.2)
  end.

(** The loop over the requests of the batch. *)
Definition write_requests (m : Llama) (base : nat) (offset : Z)
    (forward_reqs : list ForwardRequest) (st : list Z * nat)
    : list Z * nat :=
  fold_left (fun st r => write_blocks base offset (blocks_of m r) st)
            forward_reqs st.

(** The body of the loop over the layers: [kv_list_index] starts at 0,
    the K pass, then the V pass. *)
Definition write_layer (m : Llama) (total_block_num : nat)
    (forward_reqs : list ForwardRequest) (cpu_kv_list : list Z)
    (layer_idx : nat) : list Z :=
  let base := (layer_idx * total_block_num * 2)%nat in
  let st := (cpu_kv_list, 0%nat) in
  let st := write_requests m base (k_offset m layer_idx) forward_reqs st in
  let st := write_requests m base (v_offset m layer_idx) forward_reqs st in
  st.1.

Definition build_kv_list (m : Llama) (total_block_num : nat)
    (forward_reqs : list ForwardRequest) : list Z :=
  fold_left (write_layer m total_block_num forward_reqs)
            (seq 0 (num_layer_ m))
            (replicate (num_layer_ m * total_block_num * 2) 0%Z).

Record Tables : Type := MkTables {
  kv_cache_offset_list : list Z;
  input_ids_shape : list nat;
  input_ids_cpu : list Z;
  kv_list_shape : list nat;
  cpu_kv_list : list Z
}.

(** The tables ContextDecode uploads. *)
Definition ContextDecode (m : Llama) (forward_reqs : list ForwardRequest)
    : Outcome Tables :=
  let batch_size := length forward_reqs in
  if (max_batch_size_ m <? batch_size)%nat then Exited (-1) else
  let '(total_seq_len, total_block_num, offsets) := totals m forward_reqs in
  Returned
    (MkTables offsets
              [total_seq_len] (context_input_ids forward_reqs)
              [num_layer_ m; (total_block_num * 2)%nat]
              (build_kv_list m total_block_num forward_reqs)).

(** The tables Decode uploads. *)
Definition Decode (m : Llama) (forward_reqs : list ForwardRequest)
    : Outcome Tables :=
  let batch_size := length forward_reqs in
  if (max_batch_size_ m <? batch_size)%nat then Exited (-1) else
  let '(total_seq_len, total_block_num, offsets) := totals m forward_reqs in
  match decode_input_ids 0 forward_reqs (replicate batch_size 0%Z) with
  | Returned ids =>
      Returned
        (MkTables offsets
                  [batch_size] ids
                  [num_layer_ m; (total_block_num * 2)%nat]
                  (build_kv_list m total_block_num forward_reqs))
  | Thrown info => Thrown info
  | Exited c => Exited c
  end.

(** The block addresses of the batch for this rank, in request order. *)
Definition all_blocks (m : Llama) (forward_reqs : list ForwardRequest)
    : list Z :=
  concat (blocks_of m <$> forward_reqs).

(** The row of [kv_list] for one layer: the K addresses of the batch,
    then the V addresses. *)
Definition layer_row (m : Llama) (forward_reqs : list ForwardRequest)
    (layer_idx : nat) : list Z :=
  ((fun p => p + k_offset m layer_idx)%Z <$> all_blocks m forward_reqs)
  ++ ((fun p => p + v_offset m layer_idx)%Z <$> all_blocks m forward_reqs).

(** A request the functions can be given: it has a token, and the size
    of its token vector is a [size_t]. *)
Definition has_token (r : ForwardRequest) : Prop :=
  output_tokens r <> [] /\
  SizeT.in_range (Z.of_nat (length (output_tokens r))).

End Llama.

From stdpp Require Import pretty.

(** ** Llama: the other host-side tables *)

Module LlamaTables.
Import Llama.

(** Conversion of a [size_t] to [int64_t]. *)
Definition to_int64 (z : Z) : Z := ((z + 2 ^ 63) mod 2 ^ 64 - 2 ^ 63)%Z.

(** The variables of the loop of ContextDecode that fills [input_ids_cpu]
    and the two offset lists. *)
Record InputState : Type := MkInputState {
  input_offset : Z;
  input_offset_list_int32 : list Z;
  input_offset_list_uint64 : list Z;
  max_tokens : Z;
  ids_cpu : list Z
}.

(** The body of that loop for request [idx]. *)
Definition context_input_step (idx : nat) (st : InputState)
    (r : ForwardRequest) : InputState :=
  let length_ := Z.of_nat (length (output_tokens r)) in
  let input_offset := SizeT.wrap (input_offset st + length_) in
  MkInputState
    input_offset
    (<[S idx := SizeT.to_int input_offset]> (input_offset_list_int32 st))
    (<[S idx := input_offset]> (input_offset_list_uint64 st))
    (Z.max (max_tokens st) (SizeT.to_int length_))
    (ids_cpu st ++ output_tokens r).

Fixpoint context_input_loop (idx : nat) (forward_reqs : list ForwardRequest)
    (st : InputState) : InputState :=
  match forward_reqs with
  | [] => st
  | r :: rest => context_input_loop (S idx) rest (context_input_step idx st r)
  end.

Definition context_inputs (forward_reqs : list ForwardRequest) : InputState :=
  let batch_size := length forward_reqs in
  context_input_loop 0 forward_reqs
    (MkInputState 0 (replicate (batch_size + 1) 0%Z)
                  (replicate (batch_size + 1) 0%Z) 0 []).

(** The variables of the corresponding loop of Decode. *)
Record DecodeState : Type := MkDecodeState {
  d_input_offset : Z;
  d_input_offset_list_int32 : list Z;
  d_input_tokens_list_int32 : list Z;
  d_input_offset_list_uint64 : list Z;
  d_max_tokens : Z;
  d_ids_cpu : list Z
}.

(** The body of the loop of Decode for request [idx]; [at] throws on a
    request without tokens. *)
Definition decode_input_step (idx : nat) (st : DecodeState)
    (r : ForwardRequest) : Outcome DecodeState :=
  let length_ := Z.of_nat (length (output_tokens r)) in
  match at_last (output_tokens r) with
  | None => Thrown "vector::_M_range_check"
  | Some t =>
      let input_offset := SizeT.wrap (d_input_offset st + 1) in
      Returned
        (MkDecodeState
           input_offset
           (<[S idx := SizeT.to_int input_offset]> (d_input_offset_list_int32 st))
           (<[idx := SizeT.to_int length_]> (d_input_tokens_list_int32 st))
           (<[S idx := input_offset]> (d_input_offset_list_uint64 st))
           (Z.max (d_max_tokens st) (SizeT.to_int length_))
           (<[idx := t]> (d_ids_cpu st)))
  end.

Fixpoint decode_input_loop (idx : nat) (forward_reqs : list ForwardRequest)
    (st : DecodeState) : Outcome DecodeState :=
  match forward_reqs with
  | [] => Returned st
  | r :: rest =>
      match decode_input_step idx st r with
      | Returned st' => decode_input_loop (S idx) rest st'
      | Thrown info => Thrown info
      | Exited c => Exited c
      end
  end.

Definition decode_inputs (forward_reqs : list ForwardRequest)
    : Outcome DecodeState :=
  let batch_size := length forward_reqs in
  decode_input_loop 0 forward_reqs
    (MkDecodeState 0 (replicate (batch_size + 1) 0%Z)
                   (replicate batch_size 0%Z)
                   (replicate (batch_size + 1) 0%Z) 0
                   (replicate batch_size 0%Z)).

(** ContextDecode, rotary positions: the inner loop writes
    [0, 1, ..., size - 1] at [cpu_rotary_pos_idx++]. *)
Definition write_positions (size : nat) (st : list Z * nat) : list Z * nat :=
  fold_left (fun st pos => (<[st.2 := to_int64 (Z.of_nat pos)]> st.1, S st.2))
            (seq 0 size) st.

Definition context_rotary_pos (total_seq_len : nat)
    (forward_reqs : list ForwardRequest) : list Z :=
  (fold_left (fun st r => write_positions (length (output_tokens r)) st)
             forward_reqs (replicate total_seq_len 0%Z, 0%nat)).1.

(** Decode, rotary positions: [cpu_rotary_pos[idx] = size() - 1]. *)
Fixpoint decode_rotary_loop (idx : nat) (forward_reqs : list ForwardRequest)
    (cpu_rotary_pos : list Z) : list Z :=
  match forward_reqs with
  | [] => cpu_rotary_pos
  | r :: rest =>
      decode_rotary_loop (S idx) rest
        (<[idx := to_int64
                    (SizeT.wrap (Z.of_nat (length (output_tokens r)) - 1))]>
           cpu_rotary_pos)
  end.

Definition decode_rotary_pos (forward_reqs : list ForwardRequest) : list Z :=
  decode_rotary_loop 0 forward_reqs (replicate (length forward_reqs) 0%Z).

(** [forward_shape.shape = {batch_size, max_tokens, kv_cache_offset_list.back()}],
    a vector of [size_t]. *)
Definition forward_shape (batch_size : nat) (max_tokens : Z)
    (kv_cache_offset_list : list Z) : option (list Z) :=
  back ← last kv_cache_offset_list;
  Some [Z.of_nat batch_size; SizeT.wrap max_tokens; SizeT.wrap back].

(** What ContextDecode uploads besides [input_ids] and [kv_list]. *)
Record ContextTables : Type := MkContextTables {
  c_kv_cache_offset_list : list Z;
  c_input_ids_cpu : list Z;
  c_input_offset_list_int32 : list Z;
  c_input_offset_list_uint64 : list Z;
  c_cpu_rotary_pos : list Z;
  c_forward_shape : list Z
}.

Definition ContextDecode_tables (m : Llama)
    (forward_reqs : list ForwardRequest) : option (Outcome ContextTables) :=
  let batch_size := length forward_reqs in
  if (max_batch_size_ m <? batch_size)%nat then Some (Exited (-1)) else
  let '(total_seq_len, total_block_num, offsets) := totals m forward_reqs in
  let st := context_inputs forward_reqs in
  shape ← forward_shape batch_size (max_tokens st) offsets;
  Some (Returned
          (MkContextTables offsets (ids_cpu st)
             (input_offset_list_int32 st) (input_offset_list_uint64 st)
             (context_rotary_pos total_seq_len forward_reqs) shape)).

(** What Decode uploads besides [kv_list]. *)
Record DecodeTables : Type := MkDecodeTables {
  t_kv_cache_offset_list : list Z;
  t_input_ids_cpu : list Z;
  t_input_offset_list_int32 : list Z;
  t_input_tokens_list_int32 : list Z;
  t_input_offset_list_uint64 : list Z;
  t_cpu_rotary_pos : list Z;
  t_forward_shape : list Z
}.

Definition Decode_tables (m : Llama) (forward_reqs : list ForwardRequest)
    : option (Outcome DecodeTables) :=
  let batch_size := length forward_reqs in
  if (max_batch_size_ m <? batch_size)%nat then Some (Exited (-1)) else
  let '(total_seq_len, total_block_num, offsets) := totals m forward_reqs in
  match decode_inputs forward_reqs with
  | Returned st =>
      shape ← forward_shape batch_size (d_max_tokens st) offsets;
      Some (Returned
              (MkDecodeTables offsets (d_ids_cpu st)
                 (d_input_offset_list_int32 st) (d_input_tokens_list_int32 st)
                 (d_input_offset_list_uint64 st)
                 (decode_rotary_pos forward_reqs) shape))
  | Thrown info => Some (Thrown info)
  | Exited c => Some (Exited c)
  end.

(** Number of tokens, and of blocks, of the first [i] requests. *)
Definition tokens_before (forward_reqs : list ForwardRequest) (i : nat) : nat :=
  length (concat (output_tokens <$> take i forward_reqs)).

Definition blocks_before (m : Llama) (forward_reqs : list ForwardRequest)
    (i : nat) : nat :=
  length (all_blocks m (take i forward_reqs)).

(** The sizes of the batch are [int]s: no count reaches [2^31]. *)
Definition int_sized (m : Llama) (forward_reqs : list ForwardRequest) : Prop :=
  (Z.of_nat (tokens_before forward_reqs (length forward_reqs)) < 2 ^ 31)%Z /\
  (Z.of_nat (blocks_before m forward_reqs (length forward_reqs)) < 2 ^ 31)%Z.

(** The positions of the tokens of a request: [0, 1, ..., size - 1]. *)
Definition positions_of (r : ForwardRequest) : list Z :=
  Z.of_nat <$> seq 0 (length (output_tokens r)).

(** The layout within a block: the bytes [block_size_ / num_layer_] of a
    layer. *)
Definition per_layer (m : Llama) : Z :=
  (block_size_ m / Z.of_nat (num_layer_ m))%Z.

End LlamaTables.

(** ** BlockManager: the wrappers and SwapIn *)

Module BlockManagerOps.
Import BlockManager.

Definition set_device_allocator (bm : BlockManager) (device_id : nat)
    (a : Allocator) : BlockManager :=
  MkBlockManager (block_manager_config_ bm) (host_allocator_ bm)
    (<[device_id := a]> (device_allocators_ bm))
    (IsRunContextDecodeAndDecodeSerially bm) (GetDeviceId bm) (ops bm).

Definition set_host_allocator (bm : BlockManager) (a : Allocator)
    : BlockManager :=
  MkBlockManager (block_manager_config_ bm) a (device_allocators_ bm)
    (IsRunContextDecodeAndDecodeSerially bm) (GetDeviceId bm) (ops bm).

(** [GetDeviceAllocator]: the allocator of the current device, after the
    check that the device id is within [device_allocators_]. *)
Definition GetDeviceAllocator (bm : BlockManager) : Outcome Allocator :=
  NLLM_CHECK_WITH_INFO
    (GetDeviceId bm <? length (device_allocators_ bm))%nat
    ("Invalid device id " +:+ pretty (GetDeviceId bm))
    (match device_allocators_ bm !! GetDeviceId bm with
     | Some a => Returned a
     | None => Thrown ""
     end).

(** [AllocateBlocks], [FreeBlocks] and [GetBlockPtrs] of the block manager:
    the operation of the allocator [GetDeviceAllocator] returns, which is
    changed in place. *)
Definition AllocateBlocks (bm : BlockManager) (block_num : nat)
    (blocks : list nat) : Outcome (Status * list nat * BlockManager) :=
  match GetDeviceAllocator bm with
  | Returned a =>
      let '(st, blocks, a) := BlockManager.AllocateBlocks block_num blocks a in
      Returned (st, blocks, set_device_allocator bm (GetDeviceId bm) a)
  | Thrown info => Thrown info
  | Exited c => Exited c
  end.

Definition FreeBlocks (bm : BlockManager) (blocks : list nat)
    : Outcome (Status * BlockManager) :=
  match GetDeviceAllocator bm with
  | Returned a =>
      let '(st, a) := BlockManager.FreeBlocks blocks a in
      Returned (st, set_device_allocator bm (GetDeviceId bm) a)
  | Thrown info => Thrown info
  | Exited c => Exited c
  end.

Definition GetBlockPtrs (bm : BlockManager) (blocks : list nat)
    (addrs : list Z) : Outcome (Status * list Z) :=
  match GetDeviceAllocator bm with
  | Returned a => Returned (BlockManager.GetBlockPtrs blocks addrs a)
  | Thrown info => Thrown info
  | Exited c => Exited c
  end.

(** The host side has one allocator and no check. *)
Definition AllocateHostBlocks (bm : BlockManager) (block_num : nat)
    (blocks : list nat) : Status * list nat * BlockManager :=
  let '(st, blocks, a) :=
    BlockManager.AllocateBlocks block_num blocks (host_allocator_ bm) in
  (st, blocks, set_host_allocator bm a).

Definition FreeHostBlocks (bm : BlockManager) (blocks : list nat)
    : Status * BlockManager :=
  let '(st, a) := BlockManager.FreeBlocks blocks (host_allocator_ bm) in
  (st, set_host_allocator bm a).

(** [SwapDrop(host_blocks)] is [host_allocator_->FreeBlocks(host_blocks)]. *)
Definition SwapDrop (bm : BlockManager) (host_blocks : list nat)
    : Status * BlockManager :=
  let '(st, a) := BlockManager.FreeBlocks host_blocks (host_allocator_ bm) in
  (st, set_host_allocator bm a).

(** What [SwapIn] asks of the allocators and of the CUDA runtime, in
    program order. *)
Inductive Call : Type :=
  | CallDeviceAllocate (device : nat) (ids : list nat)
  | CallMemcpyAsync (dst src count : Z) (kind : MemcpyKind) (stream : Stream)
  | CallHostFree (ids : list nat).

Definition copies_to_device (device_addrs host_addrs : list Z) (count : Z)
    (stream : Stream) : list Call :=
  zip_with (fun d h => CallMemcpyAsync d h count cudaMemcpyHostToDevice stream)
           device_addrs host_addrs.

Definition is_copy_to_device_on (stream : Stream) (c : Call) : Prop :=
  match c with
  | CallMemcpyAsync _ _ _ cudaMemcpyHostToDevice s => s = stream
  | _ => False
  end.

(** [SwapIn(host_blocks, device_blocks)]: the outcome, the value of the
    out-parameter [device_blocks], the block manager afterwards and the
    calls made.  [None] is undefined behaviour
    ([device_allocators_[device_id]] out of range). *)
Definition SwapIn (bm : BlockManager) (host_blocks device_blocks : list nat)
    : option (Outcome Status * list nat * BlockManager * list Call) :=
  let device_id := GetDeviceId bm in
  let block_size :=
    SizeT.to_int (cfg_block_size (device_allocator_config (block_manager_config_ bm))) in
  device_allocator ← device_allocators_ bm !! device_id;
  let '(st, device_blocks, device_allocator) :=
    BlockManager.AllocateBlocks (length host_blocks) device_blocks
                                device_allocator in
  if negb (OK st) then Some (Returned st, device_blocks, bm, []) else
  let bm := set_device_allocator bm device_id device_allocator in
  let calls := [CallDeviceAllocate device_id device_blocks] in
  match GetBlockPtrs bm device_blocks [] with
  | Returned (st, device_addrs) =>
      if negb (OK st) then Some (Returned st, device_blocks, bm, calls) else
      let '(st, host_addrs) :=
        BlockManager.GetBlockPtrs host_blocks [] (host_allocator_ bm) in
      if negb (OK st) then Some (Returned st, device_blocks, bm, calls) else
      if IsRunContextDecodeAndDecodeSerially bm then
        let stream := ComputeStream device_id in
        let calls := calls ++ copies_to_device device_addrs host_addrs
                                 (SizeT.wrap block_size) stream in
        if negb (IsRunContextDecodeAndDecodeSerially bm)
        then Some (Thrown unimplemented, device_blocks, bm, calls)
        else
          let '(_, host_allocator) :=
            BlockManager.FreeBlocks host_blocks (host_allocator_ bm) in
          Some (Returned Status_default, device_blocks,
                set_host_allocator bm host_allocator,
                calls ++ [CallHostFree host_blocks])
      else Some (Thrown unimplemented, device_blocks, bm, calls)
  | Thrown info => Some (Thrown info, device_blocks, bm, calls)
  | Exited c => Some (Exited c, device_blocks, bm, calls)
  end.


(** One step through [SwapIn] after a call that returned [Status()]. *)
Ltac swap_in_step :=
  change (negb (OK Status_default)) with false;
  cbn beta iota zeta;
  repeat match goal with
    | |- context [GetDeviceId (set_device_allocator ?b ?i ?a)] =>
        change (GetDeviceId (set_device_allocator b i a)) with (GetDeviceId b)
    | |- context [host_allocator_ (set_device_allocator ?b ?i ?a)] =>
        change (host_allocator_ (set_device_allocator b i a))
          with (host_allocator_ b)
    | |- context [block_manager_config_ (set_device_allocator ?b ?i ?a)] =>
        change (block_manager_config_ (set_device_allocator b i a))
          with (block_manager_config_ b)
    | |- context [IsRunContextDecodeAndDecodeSerially
                    (set_device_allocator ?b ?i ?a)] =>
        change (IsRunContextDecodeAndDecodeSerially (set_device_allocator b i a))
          with (IsRunContextDecodeAndDecodeSerially b)
    end.

End BlockManagerOps.

(** ** The driver thread from [Start] on *)

Module Driver.
Import BatchManager.

(** The system once [Start] has created the driver thread: the driver is
    at its loop test, [terminated_] is false (its initialiser) and [Stop]
    has not been called. *)
Definition started (w : World) : Sys :=
  MkSys false AtLoopTest StopNotCalled w.

(** [Stop] is past [terminated_ = true]. *)
Definition stop_has_set_flag (s : Sys) : bool :=
  match stop_pc s with
  | AtNotify | AtJoin | StopReturned => true
  | StopNotCalled | AtSetTerminated => false
  end.

(** [Stop] is past [queue_waiter_->Notify()]. *)
Definition stop_has_notified (s : Sys) : bool :=
  match stop_pc s with
  | AtJoin | StopReturned => true
  | StopNotCalled | AtSetTerminated | AtNotify => false
  end.

(** What holds of the two program counters and the flag in every state
    the system reaches from [started]. *)
Definition driver_safe (s : Sys) : Prop :=
  terminated_ s = stop_has_set_flag s /\
  (process_pc s = ProcessReturned -> terminated_ s = true) /\
  (stop_pc s = StopReturned -> process_pc s = ProcessReturned) /\
  (forall reqs, process_pc s = InStep reqs -> reqs <> []).

(** The queue waiter in the states reached from [started], when only the
    driver and [Stop] use it: armed for one notification until [Stop]
    notifies, released from then on until the driver resets it on its way
    to the loop test. *)
Definition waiter_inv (queue_waiter : nat) (s : Sys) : Prop :=
  if stop_has_notified s
  then waiters (world s) !! queue_waiter = Some (MkWaiter 0 true) \/
       (waiters (world s) !! queue_waiter = Some (MkWaiter 1 false) /\
        (process_pc s = AtLoopTest \/ process_pc s = ProcessReturned))
  else waiters (world s) !! queue_waiter = Some (MkWaiter 1 false) /\
       process_pc s <> AtReset.

End Driver.

(** ** CustomAllReduceSumLayer (layers/custom_all_reduce_sum_layer.cpp) *)

Module CustomAllReduceSum.

Inductive DataType : Type := TYPE_FP16 | TYPE_FP32 | TYPE_INT32.

(** Modelled from the spec: utils/tensor.h is not among the sources.  A
    tensor is a buffer address with a shape and an element type;
    [GetElementNumber] is the product of the shape and [GetTotalBytes]
    that number times the size of the element type. *)
Record Tensor : Type := MkTensor {
  ptr : Z;
  shape : list Z;
  dtype : DataType
}.

Definition GetTypeSize (t : DataType) : Z :=
  match t with TYPE_FP16 => 2 | TYPE_FP32 => 4 | TYPE_INT32 => 4 end.

Definition GetElementNumber (t : Tensor) : Z :=
  SizeT.wrap (fold_left (fun a d => SizeT.wrap (a * d)) (shape t) 1%Z).

Definition GetTotalBytes (t : Tensor) : Z :=
  SizeT.wrap (GetElementNumber t * GetTypeSize (dtype t)).

Inductive Stream : Type :=
  | ComputeStream (rank : Z)
  | NCCLStream (rank : Z).

(** The handle [CustomAllReduceInit] writes to [reduce_op_]: the kernel
    library is outside the sources, so the handle stands for the call that
    made it (the input buffer and element count it was made for). *)
Record ReduceOp : Type := MkReduceOp {
  op_input : Z;
  op_data_size : Z;
  op_rank_data_sz : Z;
  op_tp_size : Z;
  op_rank : Z;
  op_stream : Stream
}.

(** The calls [Forward] makes into the kernel library and the CUDA
    runtime. *)
Inductive KernelCall : Type :=
  | CallCustomAllReduceInit (op : ReduceOp)
  | CallCustomAllReduceRun (op : option ReduceOp) (input result data_size : Z)
                           (stream : Stream)
  | CallMemcpyDeviceToDevice (dst src count : Z) (stream : Stream).

Record Layer : Type := MkLayer {
  IsRunContextDecodeAndDecodeSerially : bool;
  GetTensorParallelSize : Z;
  rank_ : Z;
  rank_data_sz_ : Z;
  is_init_ : bool;
  reduce_op_ : option ReduceOp
}.

Definition initialised (l : Layer) (op : ReduceOp) : Layer :=
  MkLayer (IsRunContextDecodeAndDecodeSerially l) (GetTensorParallelSize l)
          (rank_ l) (rank_data_sz_ l) true (Some op).

Definition stream_of (l : Layer) : Stream :=
  if IsRunContextDecodeAndDecodeSerially l
  then ComputeStream (rank_ l) else NCCLStream (rank_ l).

(** [Forward(input_tensors, output_tensors)]: the status, the output
    tensors and the layer afterwards, and the calls made.  [None] is
    undefined behaviour ([input_tensors[0]] or [output_tensors[0]] of an
    empty vector). *)
Definition Forward (l : Layer) (input_tensors output_tensors : list Tensor)
    : option (Status * list Tensor * Layer * list KernelCall) :=
  let stream := stream_of l in
  in0 ← input_tensors !! 0%nat;
  out0 ← output_tensors !! 0%nat;
  let '(l, calls) :=
    if (1 <? GetTensorParallelSize l)%Z then
      let input := ptr in0 in
      let result := ptr out0 in
      let data_size := SizeT.to_int (GetElementNumber in0) in
      let tp_size := GetTensorParallelSize l in
      let '(l, calls) :=
        if negb (is_init_ l) then
          let op := MkReduceOp input data_size (rank_data_sz_ l) tp_size
                               (rank_ l) stream in
          (initialised l op, [CallCustomAllReduceInit op])
        else (l, []) in
      (l, calls ++ [CallCustomAllReduceRun (reduce_op_ l) input result
                                           data_size stream])
    else
      (l, [CallMemcpyDeviceToDevice (ptr out0) (ptr in0) (GetTotalBytes in0)
                                    stream]) in
  Some (Status_default,
        <[0%nat := MkTensor (ptr out0) (shape in0) (dtype in0)]> output_tensors,
        l, calls).

(** A sequence of [Forward] calls on one layer, each with its own input
    and output tensors: the layer afterwards and all the calls made. *)
Fixpoint Forwards (l : Layer) (calls : list (list Tensor * list Tensor))
    : option (Layer * list KernelCall) :=
  match calls with
  | [] => Some (l, [])
  | (input_tensors, output_tensors) :: rest =>
      r ← Forward l input_tensors output_tensors;
      let '(_, _, l, made) := r in
      r' ← Forwards l rest;
      Some (r'.1, made ++ r'.2)
  end.

Definition is_run_with (op : ReduceOp) (stream : Stream) (c : KernelCall)
    : Prop :=
  match c with
  | CallCustomAllReduceRun (Some op') _ _ _ s => op' = op /\ s = stream
  | _ => False
  end.

Definition is_copy_on (stream : Stream) (c : KernelCall) : Prop :=
  match c with
  | CallMemcpyDeviceToDevice _ _ _ s => s = stream
  | _ => False
  end.

End CustomAllReduceSum.

(** ** CommonModel (models/common/common_model.cpp) *)

Module CommonModel.
Import Llama.

Definition sizeof_int : Z := 4.

(** [memcpy(input_tokens_ptr + index, data, count)] into the host buffer
    of [int]s behind [cpu_input_tokens_tensor_]; [index] and [count] are
    in bytes.  [None] is undefined behaviour: the copy leaves the
    buffer. *)
Definition memcpy_ints (buf : list Z) (index : Z) (data : list Z) (count : Z)
    : option (list Z) :=
  let pos := Z.to_nat (index / sizeof_int) in
  let data := take (Z.to_nat (count / sizeof_int)) data in
  if (pos + length data <=? length buf)%nat
  then Some (take pos buf ++ data ++ drop (pos + length data) buf)
  else None.

(** The loop of [EmbedTokensUseCpu]: the buffer and [index] afterwards.
    [&req_input->back()] of an empty vector is undefined behaviour. *)
Fixpoint embed_tokens_loop (is_context_stage : bool)
    (forward_reqs : list ForwardRequest) (buf : list Z) (index : Z)
    : option (list Z * Z) :=
  match forward_reqs with
  | [] => Some (buf, index)
  | r :: rest =>
      let req_input := output_tokens r in
      if is_context_stage then
        let copy_len := SizeT.wrap (Z.of_nat (length req_input) * sizeof_int) in
        buf ← memcpy_ints buf index req_input copy_len;
        embed_tokens_loop is_context_stage rest buf (SizeT.wrap (index + copy_len))
      else
        back ← last req_input;
        buf ← memcpy_ints buf index [back] sizeof_int;
        embed_tokens_loop is_context_stage rest buf (SizeT.wrap (index + sizeof_int))
  end.

(** [EmbedTokensUseCpu], up to the call of the CPU embedding layer: the
    contents and the shape of [cpu_input_tokens_tensor_]. *)
Definition EmbedTokensUseCpu (is_context_stage : bool)
    (forward_reqs : list ForwardRequest) (cpu_input_tokens : list Z)
    : option (list Z * list Z) :=
  r ← embed_tokens_loop is_context_stage forward_reqs cpu_input_tokens 0;
  Some (r.1, [(r.2 / sizeof_int)%Z]).

(** Vectors of [int] have fewer than [2^62] elements. *)
Definition vector_sized (r : ForwardRequest) : Prop :=
  (Z.of_nat (length (output_tokens r)) * sizeof_int < SizeT.modulus)%Z.

End CommonModel.

(** ** The tensors of a [Llama] object (models/llama/llama.cpp) *)

Module LlamaTensors.

Inductive TensorName : Type :=
  | tmp_tensor_0 | tmp_tensor_1 | tmp_tensor_2 | up_matmul_tensor
  | kv_cache_buffer_ | logits_tensor_ | kv_cache_offset_tensor | kv_list
  | input_ids | input_offset_int32_tensor | input_offset_uint64_tensor
  | input_tokens_int32_tensor | rotary_embedding_pos | forward_shape.

#[global] Instance TensorName_eq_dec : EqDecision TensorName.
Proof. solve_decision. Defined.

(** The fields of [ModelConfig] the constructor reads; [dtype_size] is
    [Tensor::GetTypeSize(weight_data_type)]. *)
Record ModelConfig : Type := MkModelConfig {
  num_layer : Z;
  vocab_size : Z;
  head_num : Z;
  size_per_head : Z;
  tensor_para_size : Z;
  inter_size : Z;
  max_batch_size : Z;
  max_token_num : Z;
  max_scheduler_token_num : Z;
  dtype_size : Z
}.

(** Modelled from the spec: the allocators are not among the sources.
    [AllocateContiguous] allocates a region outside the block pool and
    tracks it, under a new id, in [used_contiguous_memory_map];
    [FreeContiguous] releases a tracked region, an unknown id is an
    error. *)
Definition AllocateContiguous (size : Z) (used : gmap nat Z)
    : nat * gmap nat Z :=
  let block_id := fresh (dom used) in
  (block_id, <[block_id := size]> used).

Definition FreeContiguous (block_id : nat) (used : gmap nat Z)
    : Status * gmap nat Z :=
  match used !! block_id with
  | Some _ => (Status_default, delete block_id used)
  | None => (MkStatus RET_INVALID_ARGUMENT "Unknown block id.", used)
  end.

(** A tensor: its shape and the ids of its blocks. *)
Record Tensor : Type := MkTensor {
  shape : list Z;
  block_ids : list nat
}.

(** The contiguous regions of the device and the tensor members of the
    [Llama] object. *)
Record State : Type := MkState {
  used_contiguous_memory_map : gmap nat Z;
  tensor : TensorName -> Tensor
}.

Definition set_tensor (name : TensorName) (x : Tensor)
    (f : TensorName -> Tensor) : TensorName -> Tensor :=
  fun n => if decide (n = name) then x else f n.

(** [CreateTensor(tensor, total_bytes)]: the status of the allocation is
    not looked at; the shape is [total_bytes / 2]. *)
Definition CreateTensor (name : TensorName) (total_bytes : Z) (s : State)
    : State :=
  let '(block_id, used) :=
    AllocateContiguous total_bytes (used_contiguous_memory_map s) in
  MkState used
    (set_tensor name (MkTensor [(total_bytes / 2)%Z] [block_id]) (tensor s)).

(** [DestroyTensor(tensor)] *)
Definition DestroyTensor (name : TensorName) (s : State)
    : Outcome (Status * State) :=
  let ids := block_ids (tensor s name) in
  NLLM_CHECK_WITH_INFO (length ids =? 1)%nat
    "Contiguous must have only one block."
    (match ids with
     | block_id :: _ =>
         let '(st, used) :=
           FreeContiguous block_id (used_contiguous_memory_map s) in
         Returned (st, MkState used (tensor s))
     | [] => Thrown "Contiguous must have only one block."
     end).

(** The statements of the constructor that touch a tensor. *)
Inductive Stmt : Type :=
  | Create (name : TensorName) (total_bytes : Z)
  | SetShape (name : TensorName) (new_shape : list Z).

Definition exec (s : State) (stmt : Stmt) : State :=
  match stmt with
  | Create name total_bytes => CreateTensor name total_bytes s
  | SetShape name new_shape =>
      MkState (used_contiguous_memory_map s)
        (set_tensor name (MkTensor new_shape (block_ids (tensor s name)))
                    (tensor s))
  end.

(** The constructor, in source order.  The sizes are products with a
    [size_t] factor and are taken in [size_t]; [head_num] is divided by
    [tensor_para_size] as an [int] before it is used ([None]: division by
    zero). *)
Definition constructor_stmts (c : ModelConfig) : option (list Stmt) :=
  if (tensor_para_size c =? 0)%Z then None else
  let hidden_units := (size_per_head c * head_num c)%Z in
  let head_num := Z.quot (head_num c) (tensor_para_size c) in
  let max_batch_size_ := max_batch_size c in
  let max_seq_len_ := max_token_num c in
  let dtype_size := dtype_size c in
  let max_token_num := max_scheduler_token_num c in
  let tmp_tensor_size :=
    Z.max (SizeT.wrap (max_batch_size_ * vocab_size c * 4))
          (SizeT.wrap (max_token_num * hidden_units * 3 * dtype_size)) in
  let up_matmul_tensor_size :=
    SizeT.wrap (max_token_num * dtype_size
                * Z.max (inter_size c) (hidden_units * 2)) in
  let max_block_num := 2048%Z in
  Some
    [Create tmp_tensor_0
       (SizeT.wrap (max_token_num * hidden_units * dtype_size * 3));
     Create tmp_tensor_1 tmp_tensor_size;
     Create tmp_tensor_2
       (SizeT.wrap (max_token_num * hidden_units * dtype_size * 3));
     Create up_matmul_tensor up_matmul_tensor_size;
     Create kv_cache_buffer_
       (SizeT.wrap (max_seq_len_ * (max_seq_len_ + 511) / 512 * head_num
                    * (size_per_head c + 2) * 4));
     SetShape kv_cache_buffer_
       [max_seq_len_; ((max_seq_len_ + 511) / 512)%Z; head_num;
        (size_per_head c + 2)%Z];
     Create logits_tensor_ (SizeT.wrap (max_batch_size_ * vocab_size c * 4));
     Create kv_cache_offset_tensor (SizeT.wrap ((max_batch_size_ + 1) * 4));
     Create kv_list (SizeT.wrap (num_layer c * max_block_num * 2 * 8));
     Create input_ids (SizeT.wrap (max_token_num * 4));
     Create input_offset_int32_tensor (SizeT.wrap ((max_batch_size_ + 1) * 4));
     Create input_offset_uint64_tensor (SizeT.wrap ((max_batch_size_ + 1) * 8));
     Create input_tokens_int32_tensor (SizeT.wrap ((max_batch_size_ + 1) * 4));
     Create rotary_embedding_pos (SizeT.wrap (max_token_num * 8));
     Create forward_shape 4%Z].

Definition Llama_constructor (c : ModelConfig) (s : State) : option State :=
  stmts ← constructor_stmts c;
  Some (fold_left exec stmts s).

(** The destructor, in source order; the status of [DestroyTensor] is not
    looked at. *)
Definition destructor_names : list TensorName :=
  [tmp_tensor_0; tmp_tensor_1; tmp_tensor_2; up_matmul_tensor;
   kv_cache_buffer_; logits_tensor_; input_ids; input_offset_int32_tensor;
   input_offset_uint64_tensor; kv_list; forward_shape; rotary_embedding_pos;
   kv_cache_offset_tensor].

Fixpoint destroy_all (names : list TensorName) (s : State) : Outcome State :=
  match names with
  | [] => Returned s
  | name :: rest =>
      match DestroyTensor name s with
      | Returned (_, s) => destroy_all rest s
      | Thrown info => Thrown info
      | Exited c => Exited c
      end
  end.

Definition Llama_destructor (s : State) : Outcome State :=
  destroy_all destructor_names s.

(** The names a list of statements creates a tensor for. *)
Definition created (stmts : list Stmt) : list TensorName :=
  omap (fun stmt => match stmt with
                    | Create name _ => Some name
                    | SetShape _ _ => None
                    end) stmts.

(** A [Llama] object before its constructor has run: no member tensor has
    a block. *)
Definition no_tensors : TensorName -> Tensor := fun _ => MkTensor [] [].

End LlamaTensors.

(** ** MatMulLayer on Ascend (layers/ascend/matmul_layer.cpp) *)

Module AscendMatMul.

(** The fields of a tensor [Forward] reads: the buffer and the shape, a
    vector of [size_t]. *)
Record Tensor : Type := MkTensor {
  ptr : Z;
  shape : list Z
}.

(** An [aclTensor] descriptor: the shape and the buffer it was created
    for. *)
Record AclTensor : Type := MkAclTensor {
  acl_shape : list Z;
  acl_data : Z
}.

(** The calls into the ACL runtime and the kernel library, in program
    order. *)
Inductive AclCall : Type :=
  | CreateAclTensorWithData (t : AclTensor)
  | MatMul (input weight : AclTensor) (mm_type : Z) (output : AclTensor)
           (stream : nat)
  | ResetDeviceTensor (t : AclTensor)
  | aclDestroyTensor (t : AclTensor).

(** [Forward(input_tensors, output_tensors)] on rank [rank_]: the output
    tensors afterwards and the calls made.  [None] is undefined behaviour:
    an index outside [input_tensors], [output_tensors] or a shape. *)
Definition Forward (rank_ : nat) (input_tensors output_tensors : list Tensor)
    : option (Status * list Tensor * list AclCall) :=
  in0 ← input_tensors !! 0%nat;
  b ← LlamaTables.to_int64 <$> shape in0 !! 0%nat;
  m ← LlamaTables.to_int64 <$> shape in0 !! 1%nat;
  k ← LlamaTables.to_int64 <$> shape in0 !! 2%nat;
  in1 ← input_tensors !! 1%nat;
  n ← LlamaTables.to_int64 <$> shape in1 !! 1%nat;
  out0 ← output_tensors !! 0%nat;
  let matmul_input := MkAclTensor [b; m; k] (ptr in0) in
  let matmul_weight := MkAclTensor [k; n] (ptr in1) in
  let matmul_output := MkAclTensor [b; m; n] (ptr out0) in
  Some (Status_default,
        <[0%nat := MkTensor (ptr out0)
                     [SizeT.wrap b; SizeT.wrap m; SizeT.wrap n]]>
          output_tensors,
        [CreateAclTensorWithData matmul_input;
         CreateAclTensorWithData matmul_weight;
         CreateAclTensorWithData matmul_output;
         MatMul matmul_input matmul_weight 0 matmul_output rank_;
         ResetDeviceTensor matmul_output;
         aclDestroyTensor matmul_input;
         aclDestroyTensor matmul_weight]).

End AscendMatMul.

(** * Properties *)

(** ** Observations on a call *)

(** The events a call appended to the trace. *)
Definition new_events (w w' : World) : list Event :=
  drop (length (trace w)) (trace w').

(** Number of [Notify] calls on waiter [wt] among [evs]. *)
Definition notifications (wt : nat) (evs : list Event) : nat :=
  length (filter (fun e => e = EvNotify wt) evs).

(** The events of a rejection: the status written to [cell], one
    [EvFinished] per request of the group, then the one [EvNotify]. *)
Definition rejection_events (cell wt : nat) (s : Status) (group : list nat)
    : list Event :=
  [EvStatus cell s] ++ (EvFinished <$> group) ++ [EvNotify wt].

(** The requests of [group] have the status cell and the waiter of the
    group's first request: they were built from one client request. *)
Definition group_shares (w : World) (group : list nat) : Prop :=
  forall p0 p r0 r,
    group !! 0%nat = Some p0 -> p ∈ group ->
    requests w !! p0 = Some r0 -> requests w !! p = Some r ->
    finish_status r = finish_status r0 /\ waiter r = waiter r0.

(** ** Inputs used in the examples *)

Module Examples.

Definition request (id : Z) (tokens : list Z) (cell wt : nat)
    : InferRequest :=
  MkInferRequest id tokens tokens STAGE_CONTEXT 0 [[]] 1024 false cell wt.

(** [max_waiting_queue_len = 2], [max_token_len = 4],
    [max_step_tokens = 16]. *)
Definition config : BatchScheduler.BatchSchedulerConfig :=
  BatchScheduler.MkConfig 2 4 16.

(** One request (at address 0) waits, one (at address 1) arrives. *)
Definition one_waiting : World :=
  MkWorld (<[0%nat := request 1 [11; 12]%Z 0 0]>
             (<[1%nat := request 2 [21; 22; 23]%Z 1 1]> ∅))
          ∅ ∅ (MkBatchState [] [0%nat] [] []) [].

(** Nothing waits; the request at address 1 has a prompt of 4 tokens, the
    one at address 2 a prompt of 5. *)
Definition none_waiting : World :=
  MkWorld (<[1%nat := request 2 [21; 22; 23; 24]%Z 1 1]>
             (<[2%nat := request 3 [31; 32; 33; 34; 35]%Z 2 2]> ∅))
          ∅ ∅ (MkBatchState [] [] [] []) [].

(** A group of two requests (addresses 5 and 6) built from one client
    request: status cell 9 and waiter 9 for both; the prompt has 5
    tokens. *)
Definition group_world : World :=
  MkWorld (<[5%nat := request 4 [41; 42; 43; 44; 45]%Z 9 9]>
             (<[6%nat := request 4 [41; 42; 43; 44; 45]%Z 9 9]> ∅))
          ∅ ∅ (MkBatchState [] [] [] []) [].

(** A scheduler that hands out the running queue, and a step that
    generates one token for every scheduled request and finishes none. *)
Definition schedule_running (w : World) : World * list nat :=
  (w, running_queue (batch_state w)).

Definition append_token (p : nat) (w : World) : World :=
  MkWorld (alter (fun r => with_output_tokens r (output_tokens r ++ [0%Z]))
                 p (requests w))
          (statuses w) (waiters w) (batch_state w) (trace w).

Definition step_one_token (scheduled_reqs : list nat) (w : World) : World :=
  foldr append_token w scheduled_reqs.

(** One request (address 0, waiter 0) is running; the queue waiter is
    waiter 7, armed for one notification. *)
Definition generating : World :=
  MkWorld (<[0%nat := request 1 [11; 12]%Z 0 0]> ∅)
          ∅ (<[7%nat := MkWaiter 1 false]> ∅)
          (MkBatchState [] [] [0%nat] []) [].

(** The system after [Stop] has returned, when it was called while the
    driver was in the step of [generating]. *)
Definition stopped : BatchManager.Sys :=
  BatchManager.MkSys true BatchManager.ProcessReturned
    BatchManager.StopReturned
    (Notify 7 (step_one_token [0%nat] generating)).

(** Blocks of 8 bytes on host and device, half of the device memory for
    blocks, twice as many host blocks as device blocks.  Every ratio is a
    dyadic rational, and every product below is a small integer: [float]
    and [double] compute them exactly. *)
Definition block_config : BlockManager.BlockManagerConfig :=
  BlockManager.MkBlockManagerConfig
    (BlockManager.MkAllocatorConfig 8 0 16)
    (BlockManager.MkAllocatorConfig 8 0 16)
    (1 # 16) 2 (1 # 2) 2.



(** Host pool with blocks 10, 11, 12 free; device 0 with blocks 0 and 1 in
    use. *)
Definition host_pool : BlockManager.Allocator :=
  BlockManager.MkAllocator [(10%nat, 1000%Z); (11%nat, 2000%Z); (12%nat, 3000%Z)] ∅.

Definition device_pool : BlockManager.Allocator :=
  BlockManager.MkAllocator []
    (<[0%nat := (5000%Z, 1%nat)]> (<[1%nat := (6000%Z, 1%nat)]> ∅)).

Definition block_manager (serially : bool) : BlockManager.BlockManager :=
  BlockManager.MkBlockManager block_config host_pool [device_pool]
    serially 0 [].

(** Three layers over blocks of 5 bytes (3 does not divide 5), rank 0,
    and a batch of one request with tokens 7, 8 and one block at address
    1000. *)
Definition odd_llama : Llama.Llama := Llama.MkLlama 3 0 5 8.

Definition one_block_batch : list Llama.ForwardRequest :=
  [Llama.MkForwardRequest [7; 8]%Z [[1000%Z]]].

(** Two layers over blocks of 1024 bytes, and a batch of two requests
    with two and one blocks. *)
Definition llama : Llama.Llama := Llama.MkLlama 2 0 1024 8.

Definition batch : list Llama.ForwardRequest :=
  [Llama.MkForwardRequest [1; 2; 3]%Z [[4096; 8192]%Z];
   Llama.MkForwardRequest [4; 5]%Z [[12288%Z]]].

End Examples.

Module SizeTFacts.

Lemma wrap_small z : SizeT.in_range z -> SizeT.wrap z = z.
Proof. unfold SizeT.in_range, SizeT.wrap. intros H. now apply Z.mod_small. Qed.

Lemma to_int_small z : (0 <= z < 2 ^ 31)%Z -> SizeT.to_int z = z.
Proof. intros H. unfold SizeT.to_int. rewrite Z.mod_small; lia. Qed.

Lemma modulus_eq : SizeT.modulus = 18446744073709551616%Z.
Proof. reflexivity. Qed.

End SizeTFacts.

(** ** BatchScheduler: the admission gate *)

Module BatchSchedulerFacts.
Import BatchScheduler.

Lemma set_finished_Some p w r :
  requests w !! p = Some r ->
  set_finished p w =
    Some (MkWorld (<[p := with_finished r true]> (requests w))
                  (statuses w) (waiters w) (batch_state w)
                  (trace w ++ [EvFinished p])).
Proof. intros H. unfold set_finished. rewrite H. reflexivity. Qed.

Lemma set_finished_inv p w w' :
  set_finished p w = Some w' ->
  exists r, requests w !! p = Some r /\
    w' = MkWorld (<[p := with_finished r true]> (requests w))
                 (statuses w) (waiters w) (batch_state w)
                 (trace w ++ [EvFinished p]).
Proof.
  unfold set_finished. destruct (requests w !! p) as [r|] eqn:E; simpl.
  - intros [= <-]. eauto.
  - discriminate.
Qed.

(** The loop over the group: what it leaves unchanged, what it appends
    to the trace, and what a request looks like afterwards. *)
Lemma mark_finished_spec group : forall w w',
  mark_finished group w = Some w' ->
  statuses w' = statuses w /\ waiters w' = waiters w /\
  batch_state w' = batch_state w /\
  trace w' = trace w ++ (EvFinished <$> group) /\
  forall q, requests w' !! q =
    if decide (q ∈ group)
    then (fun r => with_finished r true) <$> requests w !! q
    else requests w !! q.
Proof.
  induction group as [|p rest IH]; intros w w' H; simpl in H.
  - injection H as <-. rewrite app_nil_r. split_and!; reflexivity.
  - destruct (set_finished p w) as [w1|] eqn:E1; simpl in H; [|discriminate].
    apply set_finished_inv in E1 as (r & Hr & ->).
    apply IH in H as (Hs & Hw & Hb & Ht & Hq). simpl in *.
    split_and!; try assumption.
    + rewrite Ht, <- app_assoc. reflexivity.
    + intros q. rewrite Hq.
      destruct (decide (q = p)) as [->|Hne].
      * rewrite lookup_insert_eq, Hr. simpl.
        destruct (decide (p ∈ rest)), (decide (p ∈ p :: rest)) as [|Hn];
          try reflexivity; exfalso; apply Hn; left.
      * rewrite lookup_insert_ne by congruence.
        destruct (decide (q ∈ rest)) as [Hin|Hnin],
                 (decide (q ∈ p :: rest)) as [Hin'|Hnin'];
          try reflexivity; exfalso.
        -- apply Hnin'. now right.
        -- apply Hnin. apply elem_of_cons in Hin' as [?|?]; [congruence|done].
Qed.

Lemma mark_finished_total group : forall w,
  (forall p, p ∈ group -> is_Some (requests w !! p)) ->
  is_Some (mark_finished group w).
Proof.
  induction group as [|p rest IH]; intros w H; simpl; [eauto|].
  destruct (H p) as [r Hr]; [left|].
  rewrite (set_finished_Some _ _ _ Hr). simpl.
  apply IH. intros q Hq. simpl.
  apply lookup_insert_is_Some'. right. apply H. now right.
Qed.

Lemma mark_finished_valid group : forall w w',
  mark_finished group w = Some w' ->
  forall p, p ∈ group -> is_Some (requests w !! p).
Proof.
  induction group as [|p0 rest IH]; intros w w' H p Hp; [inversion Hp|].
  simpl in H.
  destruct (set_finished p0 w) as [w1|] eqn:E1; simpl in H; [|discriminate].
  apply set_finished_inv in E1 as (r & Hr & ->).
  apply elem_of_cons in Hp as [->|Hp]; [eauto|].
  specialize (IH _ _ H p Hp). simpl in IH.
  apply lookup_insert_is_Some' in IH as [->|?]; eauto.
Qed.

Section RejectionEvents.
Variables (cell wt : nat) (s : Status) (group : list nat).

Lemma rejection_events_notify i wt' :
  rejection_events cell wt s group !! i = Some (EvNotify wt') ->
  i = S (length group) /\ wt' = wt.
Proof.
  unfold rejection_events. destruct i as [|i]; simpl; [discriminate|].
  intros H. apply lookup_app_Some in H as [H|[Hlen H]].
  - rewrite list_lookup_fmap in H.
    destruct (group !! i); simpl in H; discriminate.
  - rewrite length_fmap in *.
    destruct (i - length group)%nat as [|k] eqn:E; simpl in H; [|discriminate].
    injection H as ->. split; [lia|reflexivity].
Qed.

Lemma rejection_events_finished j q :
  rejection_events cell wt s group !! j = Some (EvFinished q) ->
  (j <= length group)%nat.
Proof.
  unfold rejection_events. destruct j as [|j]; simpl; [intros; lia|].
  intros H. apply lookup_app_Some in H as [H|[Hlen H]].
  - apply lookup_lt_Some in H. rewrite length_fmap in H. lia.
  - destruct (j - length (EvFinished <$> group))%nat; simpl in H; discriminate.
Qed.

Lemma rejection_events_has_finished q :
  q ∈ group -> exists j, rejection_events cell wt s group !! j = Some (EvFinished q).
Proof.
  intros Hq. apply list_elem_of_lookup in Hq as [j Hj].
  exists (S j). unfold rejection_events. simpl.
  apply lookup_app_Some. left. rewrite list_lookup_fmap, Hj. reflexivity.
Qed.

Lemma rejection_events_notifications :
  notifications wt (rejection_events cell wt s group) = 1%nat.
Proof.
  unfold notifications, rejection_events.
  rewrite !filter_app, !length_app.
  assert (filter (fun e => e = EvNotify wt) (EvFinished <$> group) = []) as ->.
  { induction group as [|a l IH]; [reflexivity|].
    simpl. rewrite filter_cons_False by discriminate. exact IH. }
  rewrite filter_cons_False by discriminate.
  rewrite filter_cons_True by reflexivity. reflexivity.
Qed.

End RejectionEvents.

(** The rejection path, spelled out. *)
Lemma reject_inv r0 group s w st w' :
  reject r0 group s w = Some (st, w') ->
  st = s /\
  statuses w' = <[finish_status r0 := s]> (statuses w) /\
  batch_state w' = batch_state w /\
  trace w' = trace w ++ rejection_events (finish_status r0) (waiter r0) s group /\
  (forall q, q ∈ group -> is_Some (requests w !! q)) /\
  forall q, requests w' !! q =
    if decide (q ∈ group)
    then (fun r => with_finished r true) <$> requests w !! q
    else requests w !! q.
Proof.
  unfold reject.
  destruct (mark_finished group (set_finish_status (finish_status r0) s w))
    as [w2|] eqn:E; simpl; [|discriminate].
  pose proof (mark_finished_valid _ _ _ E) as Hvalid.
  apply mark_finished_spec in E as (Hs & Hw & Hb & Ht & Hq). simpl in *.
  rewrite Hs, lookup_insert_eq. simpl. intros [= <- <-]. simpl.
  split_and!; try assumption; try reflexivity.
  rewrite Ht. unfold rejection_events. rewrite <- !app_assoc. reflexivity.
Qed.

Lemma reject_total r0 group s w :
  (forall p, p ∈ group -> is_Some (requests w !! p)) ->
  exists w', reject r0 group s w = Some (s, w').
Proof.
  intros H. unfold reject.
  destruct (mark_finished_total group
              (set_finish_status (finish_status r0) s w) H) as [w2 E].
  rewrite E. simpl.
  apply mark_finished_spec in E as (Hs & _). simpl in Hs.
  rewrite Hs, lookup_insert_eq. simpl. eauto.
Qed.

Lemma new_events_app w w' evs :
  trace w' = trace w ++ evs -> new_events w w' = evs.
Proof. intros H. unfold new_events. rewrite H. apply drop_app_length. Qed.

End BatchSchedulerFacts.

Module AdmissionGate.
Import BatchScheduler BatchSchedulerFacts.

Lemma AddInferRequest_total c w group p :
  group !! 0%nat = Some p ->
  (forall q, q ∈ group -> is_Some (requests w !! q)) ->
  exists st w', AddInferRequest c w group = Some (st, w').
Proof.
  intros Hp Hall. destruct group as [|p0 rest]; [discriminate|].
  injection Hp as ->.
  destruct (Hall p) as [r Hr]; [left|].
  unfold AddInferRequest. rewrite Hr. simpl.
  destruct (CheckWaitingQueueFull _ _ _).
  - destruct (reject_total r (p :: rest)
                (MkStatus RET_EXCEED_CAPACITY "waiting queue is full.") w Hall)
      as [w' ->]. eauto.
  - destruct (CheckRequestExceedLength _ _).
    + destruct (reject_total r (p :: rest)
                  (MkStatus RET_EXCEED_LENGTH "input length exceed max_token_len.")
                  w Hall) as [w' ->]. eauto.
    + eauto.
Qed.

(** A call that does not return success went through [reject]. *)
Lemma AddInferRequest_rejected c w group st w' :
  AddInferRequest c w group = Some (st, w') -> OK st = false ->
  exists p0 rest r0,
    group = p0 :: rest /\ requests w !! p0 = Some r0 /\
    (st = MkStatus RET_EXCEED_CAPACITY "waiting queue is full." \/
     st = MkStatus RET_EXCEED_LENGTH "input length exceed max_token_len.") /\
    reject r0 group st w = Some (st, w').
Proof.
  intros H Hnok. destruct group as [|p0 rest]; [discriminate|].
  unfold AddInferRequest in H.
  destruct (requests w !! p0) as [r0|] eqn:Hr; simpl in H; [|discriminate].
  exists p0, rest, r0.
  destruct (CheckWaitingQueueFull _ _ _).
  - pose proof (reject_inv _ _ _ _ _ _ H) as (-> & _). eauto 6.
  - destruct (CheckRequestExceedLength _ _).
    + pose proof (reject_inv _ _ _ _ _ _ H) as (-> & _). eauto 6.
    + injection H as <- <-. discriminate.
Qed.

(** [CheckWaitingQueueFull] for a group of one request, without the
    wrap-around. *)
Lemma CheckWaitingQueueFull_one c w :
  (Z.of_nat (length (waiting_queue (batch_state w))) + 1 < SizeT.modulus)%Z ->
  CheckWaitingQueueFull c w (SizeT.to_int (Z.of_nat (length [0%nat]))) =
  (max_waiting_queue_len c <=?
     Z.of_nat (length (waiting_queue (batch_state w))) + 1)%Z.
Proof.
  intros H. unfold CheckWaitingQueueFull.
  change (SizeT.to_int (Z.of_nat (length [0%nat]))) with 1%Z.
  rewrite SizeTFacts.wrap_small; [reflexivity|].
  unfold SizeT.in_range. lia.
Qed.

(** C1, as the claim states it, fails: with [max_waiting_queue_len = 2]
    and exactly one request ([max_waiting_queue_len - 1]) in the waiting
    queue, a group of one request with a prompt of three tokens
    ([max_token_len = 4]) is rejected with EXCEED_CAPACITY. *)
Lemma C1_counterexample :
  Z.of_nat (length (waiting_queue (batch_state Examples.one_waiting))) =
    (max_waiting_queue_len Examples.config - 1)%Z /\
  fst <$> AddInferRequest Examples.config Examples.one_waiting [1%nat] =
    Some (MkStatus RET_EXCEED_CAPACITY "waiting queue is full.").
Proof. split; vm_compute; reflexivity. Qed.

(** C1 (amended): for a request group of size 1, [AddInferRequest]
    rejects the request with EXCEED_CAPACITY when the waiting queue holds
    [max_waiting_queue_len - 1] requests or more (so also at exactly
    [max_waiting_queue_len]), and only then; when the queue holds at most
    [max_waiting_queue_len - 2] requests and the prompt is not too long, the
    request is accepted into the waiting buffer. *)
Theorem C1_capacity_gate_group_of_one c w p r :
  requests w !! p = Some r ->
  (Z.of_nat (length (waiting_queue (batch_state w))) + 1 < SizeT.modulus)%Z ->
  exists st w',
    AddInferRequest c w [p] = Some (st, w') /\
    (code st = RET_EXCEED_CAPACITY <->
     (max_waiting_queue_len c - 1
        <= Z.of_nat (length (waiting_queue (batch_state w))))%Z) /\
    ((Z.of_nat (length (waiting_queue (batch_state w))) + 1
        < max_waiting_queue_len c)%Z ->
     (Z.of_nat (length (input_tokens r)) <= max_token_len c)%Z ->
     st = Status_default /\ w' = push_waiting_buffer [p] w).
Proof.
  intros Hr Hsmall. unfold AddInferRequest. rewrite Hr. simpl.
  pose proof (CheckWaitingQueueFull_one c w Hsmall) as Hfull.
  simpl length in Hfull. rewrite Hfull.
  assert (Hall : forall q, q ∈ [p] -> is_Some (requests w !! q)).
  { intros q Hq. apply list_elem_of_singleton in Hq as ->. eauto. }
  destruct (Z.leb_spec (max_waiting_queue_len c)
              (Z.of_nat (length (waiting_queue (batch_state w))) + 1)) as [Hle|Hlt].
  - destruct (reject_total r [p]
                (MkStatus RET_EXCEED_CAPACITY "waiting queue is full.") w Hall)
      as [w' ->].
    eexists _, w'. split; [reflexivity|]. simpl. split; [split; [lia|reflexivity]|lia].
  - unfold CheckRequestExceedLength.
    destruct (Z.ltb_spec (max_token_len c) (Z.of_nat (length (input_tokens r))))
      as [Hlong|Hshort].
    + destruct (reject_total r [p]
                  (MkStatus RET_EXCEED_LENGTH "input length exceed max_token_len.")
                  w Hall) as [w' ->].
      eexists _, w'. split; [reflexivity|]. simpl.
      split; [split; [discriminate|lia]|lia].
    + eexists _, _. split; [reflexivity|]. simpl.
      split; [split; [discriminate|lia]|auto].
Qed.

Lemma C1_capacity_gate_group_of_one_witness :
  exists st w',
    AddInferRequest Examples.config Examples.one_waiting [1%nat] = Some (st, w') /\
    (code st = RET_EXCEED_CAPACITY <->
     (max_waiting_queue_len Examples.config - 1
        <= Z.of_nat (length (waiting_queue (batch_state Examples.one_waiting))))%Z) /\
    ((Z.of_nat (length (waiting_queue (batch_state Examples.one_waiting))) + 1
        < max_waiting_queue_len Examples.config)%Z ->
     (Z.of_nat (length (input_tokens (Examples.request 2 [21; 22; 23]%Z 1 1)))
        <= max_token_len Examples.config)%Z ->
     st = Status_default /\ w' = push_waiting_buffer [1%nat] Examples.one_waiting).
Proof.
  apply (C1_capacity_gate_group_of_one Examples.config Examples.one_waiting
           1%nat (Examples.request 2 [21; 22; 23]%Z 1 1)).
  - reflexivity.
  - vm_compute. reflexivity.
Defined.

(** C5: when the capacity gate lets the group through, [AddInferRequest]
    rejects with EXCEED_LENGTH exactly when the prompt of the (first)
    request has more than [max_token_len] tokens: a prompt of exactly
    [max_token_len] tokens is accepted into the waiting buffer, one of
    [max_token_len + 1] tokens is rejected with EXCEED_LENGTH. *)
Theorem C5_length_gate c w group p r :
  group !! 0%nat = Some p ->
  requests w !! p = Some r ->
  (forall q, q ∈ group -> is_Some (requests w !! q)) ->
  CheckWaitingQueueFull c w (SizeT.to_int (Z.of_nat (length group))) = false ->
  exists st w',
    AddInferRequest c w group = Some (st, w') /\
    (code st = RET_EXCEED_LENGTH <->
     (max_token_len c < Z.of_nat (length (input_tokens r)))%Z) /\
    (st = Status_default /\ w' = push_waiting_buffer group w <->
     (Z.of_nat (length (input_tokens r)) <= max_token_len c)%Z) /\
    (Z.of_nat (length (input_tokens r)) = max_token_len c ->
     st = Status_default /\ w' = push_waiting_buffer group w) /\
    (Z.of_nat (length (input_tokens r)) = (max_token_len c + 1)%Z ->
     st = MkStatus RET_EXCEED_LENGTH "input length exceed max_token_len.").
Proof.
  intros Hp Hr Hall Hfull. destruct group as [|p0 rest]; [discriminate|].
  injection Hp as ->.
  unfold AddInferRequest. rewrite Hr. simpl. simpl in Hfull. rewrite Hfull.
  unfold CheckRequestExceedLength.
  destruct (Z.ltb_spec (max_token_len c) (Z.of_nat (length (input_tokens r))))
    as [Hlong|Hshort].
  - destruct (reject_total r (p :: rest)
                (MkStatus RET_EXCEED_LENGTH "input length exceed max_token_len.")
                w Hall) as [w' ->].
    eexists _, w'. split; [reflexivity|]. simpl.
    split_and!; try done; try lia.
    split; [intros [? _]; discriminate | lia].
  - eexists _, _. split; [reflexivity|]. simpl.
    split_and!; try done; try lia.
    split; [discriminate | lia].
Qed.

Lemma C5_length_gate_witness :
  exists st w',
    AddInferRequest Examples.config Examples.none_waiting [1%nat] = Some (st, w') /\
    st = Status_default /\
    w' = push_waiting_buffer [1%nat] Examples.none_waiting.
Proof.
  destruct (C5_length_gate Examples.config Examples.none_waiting [1%nat] 1%nat
              (Examples.request 2 [21; 22; 23; 24]%Z 1 1))
    as (st & w' & Hrun & _ & _ & Heq & _).
  - reflexivity.
  - reflexivity.
  - intros q Hq. apply list_elem_of_singleton in Hq as ->. vm_compute. eauto.
  - vm_compute. reflexivity.
  - exists st, w'. split; [exact Hrun|]. apply Heq. vm_compute. reflexivity.
Defined.

(** [max_token_len = 4]: the prompt of five tokens is rejected, and the
    request is finished and notified once. *)
Example AddInferRequest_too_long :
  (fun r => (r.1, new_events Examples.none_waiting r.2)) <$>
    AddInferRequest Examples.config Examples.none_waiting [2%nat] =
  Some (MkStatus RET_EXCEED_LENGTH "input length exceed max_token_len.",
        [EvStatus 2 (MkStatus RET_EXCEED_LENGTH
                       "input length exceed max_token_len.");
         EvFinished 2; EvNotify 2]).
Proof. vm_compute. reflexivity. Qed.

(** C6: when [AddInferRequest] rejects a group (by capacity or by length)
    whose requests have the status cell and the waiter of the group's
    first request, every request of the group ends with [finished = true]
    and reads the rejection status, its waiter is notified exactly once,
    and every [finished = true] is written before the notification. *)
Theorem C6_rejection_marks_and_notifies c w group st w' :
  AddInferRequest c w group = Some (st, w') ->
  OK st = false ->
  group_shares w group ->
  (code st = RET_EXCEED_CAPACITY \/ code st = RET_EXCEED_LENGTH) /\
  (forall p, p ∈ group ->
     exists r', requests w' !! p = Some r' /\
       finished r' = true /\
       statuses w' !! finish_status r' = Some st /\
       notifications (waiter r') (new_events w w') = 1%nat /\
       exists j, new_events w w' !! j = Some (EvFinished p)) /\
  (forall i j wt q,
     new_events w w' !! i = Some (EvNotify wt) ->
     new_events w w' !! j = Some (EvFinished q) ->
     (j < i)%nat).
Proof.
  intros Hrun Hnok Hshare.
  destruct (AddInferRequest_rejected _ _ _ _ _ Hrun Hnok)
    as (p0 & rest & r0 & -> & Hr0 & Hcode & Hrej).
  apply reject_inv in Hrej as (_ & Hst & _ & Htr & Hvalid & Hreq).
  apply new_events_app in Htr. rewrite Htr.
  split_and!.
  - destruct Hcode as [-> | ->]; [left | right]; reflexivity.
  - intros p Hp. destruct (Hvalid p Hp) as [r Hr].
    destruct (Hshare p0 p r0 r eq_refl Hp Hr0 Hr) as [Hcell Hwt].
    exists (with_finished r true). rewrite Hreq, Hr.
    destruct (decide (p ∈ p0 :: rest)); [|contradiction]. simpl.
    split_and!; try reflexivity.
    + rewrite Hst, Hcell. apply lookup_insert_eq.
    + rewrite Hwt. apply rejection_events_notifications.
    + now apply rejection_events_has_finished.
  - intros i j wt q Hi Hj.
    apply rejection_events_notify in Hi as [-> _].
    apply rejection_events_finished in Hj. lia.
Qed.

(** A group of two requests of one client request, rejected by length. *)
Lemma C6_rejection_marks_and_notifies_witness :
  exists st w',
    AddInferRequest Examples.config Examples.group_world [5%nat; 6%nat]
      = Some (st, w') /\
    forall p, p ∈ [5%nat; 6%nat] ->
      exists r', requests w' !! p = Some r' /\
        finished r' = true /\
        statuses w' !! finish_status r' = Some st /\
        notifications (waiter r') (new_events Examples.group_world w') = 1%nat /\
        exists j, new_events Examples.group_world w' !! j = Some (EvFinished p).
Proof.
  destruct (AddInferRequest Examples.config Examples.group_world [5%nat; 6%nat])
    as [[st w']|] eqn:E; [|vm_compute in E; discriminate].
  exists st, w'. split; [reflexivity|].
  refine (proj1 (proj2 (C6_rejection_marks_and_notifies
                          Examples.config Examples.group_world
                          [5%nat; 6%nat] st w' E _ _))).
  - vm_compute in E. injection E as <- _. reflexivity.
  - intros p0 p r0 r [= <-] Hp Hr0 Hr.
    apply elem_of_cons in Hp as [->|Hp];
      [|apply list_elem_of_singleton in Hp as ->];
      vm_compute in Hr0, Hr; injection Hr0 as <-; injection Hr as <-;
      split; reflexivity.
Defined.

(** Without the sharing, a rejection writes the status through the first
    request of the group only and notifies that request's waiter only. *)
Lemma rejection_events_of_call c w group st w' :
  AddInferRequest c w group = Some (st, w') ->
  OK st = false ->
  exists p0 r0,
    group !! 0%nat = Some p0 /\ requests w !! p0 = Some r0 /\
    statuses w' = <[finish_status r0 := st]> (statuses w) /\
    new_events w w' =
      rejection_events (finish_status r0) (waiter r0) st group.
Proof.
  intros Hrun Hnok.
  destruct (AddInferRequest_rejected _ _ _ _ _ Hrun Hnok)
    as (p0 & rest & r0 & -> & Hr0 & _ & Hrej).
  apply reject_inv in Hrej as (_ & Hst & _ & Htr & _).
  exists p0, r0. split_and!; try done. now apply new_events_app.
Qed.

(** C9: the constructor of [BatchScheduler] fails its configuration check
    exactly when [max_step_tokens <= max_token_len]; it needs
    [max_step_tokens] strictly greater than [max_token_len]. *)
Theorem C9_constructor_check c :
  ((max_step_tokens c <= max_token_len c)%Z ->
     BatchScheduler c =
       Thrown "The max_step_tokens must large than max_token_len.") /\
  ((max_token_len c < max_step_tokens c)%Z ->
     BatchScheduler c = Returned (c, MkBatchState [] [] [] [])).
Proof.
  unfold BatchScheduler, NLLM_CHECK_WITH_INFO.
  destruct (Z.ltb_spec (max_token_len c) (max_step_tokens c)); split;
    intros; try reflexivity; lia.
Qed.

Lemma C9_constructor_check_witness :
  BatchScheduler (MkConfig 2 16 16) =
    Thrown "The max_step_tokens must large than max_token_len.".
Proof.
  apply (proj1 (C9_constructor_check (MkConfig 2 16 16))).
  vm_compute. discriminate.
Defined.

End AdmissionGate.

(** ** BatchManager: Enqueue, the driver loop and Stop *)

Module BatchManagerFacts.
Import BatchManager.

(** C10: [Enqueue] returns the success status for every request, whatever
    status the scheduler's [AddInferRequest] returned (success,
    EXCEED_CAPACITY or EXCEED_LENGTH); that status is dropped, so a
    rejection shows only in the request ([finished], the status cell, the
    notification of its waiter), and the last thing [Enqueue] does, in
    every case, is to notify the queue waiter. *)
Theorem C10_Enqueue_returns_success bm w req :
  exists st w1 w2,
    BatchScheduler.AddInferRequest (batch_scheduler_config bm)
      (allocate_request (new_address w) (make_infer_request bm req) w)
      [new_address w] = Some (st, w1) /\
    (code st = RET_SUCCESS \/ code st = RET_EXCEED_CAPACITY \/
     code st = RET_EXCEED_LENGTH) /\
    Enqueue bm w req = Some (Status_default, w2) /\
    OK Status_default = true /\
    w2 = Notify (queue_waiter_ bm) w1 /\
    last (trace w2) = Some (EvNotify (queue_waiter_ bm)).
Proof.
  set (p := new_address w).
  set (w0 := allocate_request p (make_infer_request bm req) w).
  destruct (AdmissionGate.AddInferRequest_total (batch_scheduler_config bm)
              w0 [p] p eq_refl) as (st & w1 & Hrun).
  { intros q Hq. apply list_elem_of_singleton in Hq as ->.
    unfold w0. simpl. rewrite lookup_insert_eq. eauto. }
  exists st, w1, (Notify (queue_waiter_ bm) w1).
  split_and!; try reflexivity.
  - exact Hrun.
  - destruct (OK st) eqn:Hok.
    + left. unfold OK in Hok. destruct (code st); done.
    + destruct (AdmissionGate.AddInferRequest_rejected _ _ _ _ _ Hrun Hok)
        as (_ & _ & _ & _ & _ & [-> | ->] & _); auto.
  - unfold Enqueue. fold p w0. rewrite Hrun. reflexivity.
  - simpl. apply last_snoc.
Qed.

(** A prompt of five tokens with [max_token_len = 4]: the scheduler
    rejects, [Enqueue] returns success all the same. *)
Example Enqueue_hides_rejection :
  let bm := MkBatchManager Examples.config 7 1 1024 in
  let req := MkRequest 3 "llama" [31; 32; 33; 34; 35]%Z 2 2 in
  fst <$> Enqueue bm Examples.none_waiting req = Some Status_default /\
  (w' ← snd <$> Enqueue bm Examples.none_waiting req; statuses w' !! 2%nat) =
    Some (MkStatus RET_EXCEED_LENGTH "input length exceed max_token_len.").
Proof. split; vm_compute; reflexivity. Qed.

Section Shutdown.

Variable Schedule : World -> World * list nat.
Variable Step : list nat -> World -> World.
Variable queue_waiter : nat.

Local Abbreviation run := (BatchManager.run Schedule Step queue_waiter).
Local Abbreviation sys_step :=
  (BatchManager.sys_step Schedule Step queue_waiter).
Local Abbreviation halted :=
  (BatchManager.halted Schedule Step queue_waiter).
Local Abbreviation stopping :=
  (BatchManager.stopping Step queue_waiter).

Lemma stopping_step w reqs s s' :
  stopping w reqs s -> sys_step s s' ->
  stopping w reqs s' /\ (moves_left s' < moves_left s)%nat.
Proof.
  intros Hs [Hm|Hm]; destruct Hs; simpl in Hm;
    unfold process_move, stop_move in Hm; simpl in Hm.
  all: repeat match goal with
       | H : _ \/ _ |- _ => destruct H
       | H : _ /\ _ |- _ => destruct H
       end; subst; simpl in Hm; try discriminate.
  all: injection Hm as <-; split; [|unfold moves_left; simpl; lia].
  all: try (constructor; auto; fail).
  all: try (apply stopping_both; auto; fail).
Qed.

Lemma stopping_run w reqs s s' :
  stopping w reqs s -> run s s' -> stopping w reqs s'.
Proof.
  intros Hs Hrun. induction Hrun as [|s s1 s2 Hstep _ IH]; [assumption|].
  apply IH. eapply stopping_step; eassumption.
Qed.

Lemma stopping_progress w reqs s :
  stopping w reqs s -> stop_pc s <> StopReturned -> exists s', sys_step s s'.
Proof.
  intros Hs Hne; destruct Hs; simpl in Hne.
  all: repeat match goal with
       | H : _ \/ _ |- _ => destruct H
       | H : _ /\ _ |- _ => destruct H
       end; subst; try contradiction.
  all: unfold BatchManager.sys_step, process_move, stop_move; simpl;
    eauto.
Qed.

(** C8 (amended): when [Stop] has set [terminated_] while the driver is
    inside a step, every move of the system brings it closer to the end,
    it can always move until [Stop] has returned, and when no move is left
    the driver has finished that step, left its loop and been joined.
    The world at that point is the one the step produced, with the one
    notification of the queue waiter before or after it: neither [Stop]
    nor the loop writes to a request. *)
Theorem C8_stop_mid_generation w reqs s :
  run (stop_mid_generation w reqs) s ->
  (forall s', sys_step s s' -> (moves_left s' < moves_left s)%nat) /\
  (stop_pc s <> StopReturned -> exists s', sys_step s s') /\
  (halted s ->
     terminated_ s = true /\
     process_pc s = ProcessReturned /\ stop_pc s = StopReturned /\
     (world s = Notify queue_waiter (Step reqs w) \/
      world s = Step reqs (Notify queue_waiter w))).
Proof.
  intros Hrun.
  assert (Hs : stopping w reqs s).
  { eapply stopping_run; [|exact Hrun]. constructor. }
  split_and!.
  - intros s' Hstep. exact (proj2 (stopping_step w reqs s s' Hs Hstep)).
  - now apply (stopping_progress w reqs).
  - intros [Hp Hq].
    destruct (decide (stop_pc s = StopReturned)) as [Hret|Hne].
    + destruct Hs; simpl in *; try discriminate.
      repeat match goal with
             | H : _ \/ _ |- _ => destruct H
             | H : _ /\ _ |- _ => destruct H
             end; subst; try discriminate; auto.
    + destruct (stopping_progress w reqs s Hs Hne) as [s' [Hm|Hm]];
        congruence.
Qed.

End Shutdown.

(** The run of the example: the driver finishes its step and leaves the
    loop, then [Stop] notifies and joins. *)
Lemma run_to_stopped :
  run Examples.schedule_running Examples.step_one_token 7
      (stop_mid_generation Examples.generating [0%nat]) Examples.stopped.
Proof.
  eapply run_step; [left; reflexivity|].
  eapply run_step; [left; reflexivity|].
  eapply run_step; [right; reflexivity|].
  eapply run_step; [right; reflexivity|].
  apply run_refl.
Defined.

Lemma halted_stopped :
  halted Examples.schedule_running Examples.step_one_token 7 Examples.stopped.
Proof. split; reflexivity. Defined.

(** C8, as the claim states it, fails: with a step that generates one
    token and finishes no request, the request that was in flight when
    [Stop] was called is still unfinished, and has no status, after
    [Stop] has returned. *)
Lemma C8_counterexample :
  ~ stop_marks_stopped Examples.schedule_running Examples.step_one_token 7.
Proof.
  intros H.
  destruct (H Examples.generating [0%nat] Examples.stopped
              run_to_stopped halted_stopped 0%nat)
    as (r & st & Hr & Hfin & _).
  - left.
  - vm_compute in Hr. injection Hr as <-. discriminate.
Qed.

Lemma C8_stop_mid_generation_witness :
  terminated_ Examples.stopped = true /\
  process_pc Examples.stopped = ProcessReturned /\
  stop_pc Examples.stopped = StopReturned /\
  (world Examples.stopped =
     Notify 7 (Examples.step_one_token [0%nat] Examples.generating) \/
   world Examples.stopped =
     Examples.step_one_token [0%nat] (Notify 7 Examples.generating)).
Proof.
  apply (proj2 (proj2 (C8_stop_mid_generation
                         Examples.schedule_running Examples.step_one_token 7
                         Examples.generating [0%nat] Examples.stopped
                         run_to_stopped))).
  exact halted_stopped.
Defined.

End BatchManagerFacts.

(** ** BlockManager: capacity sizing and swap-out *)

Module BlockManagerFacts.
Import BlockManager.







Lemma AllocateBlocks_enough n blocks a :
  (n <= length (free_map a))%nat ->
  AllocateBlocks n blocks a =
    (Status_default, fst <$> take n (free_map a),
     MkAllocator (drop n (free_map a))
                 (foldr (fun b m => <[b.1 := (b.2, 1%nat)]> m)
                        (used_map a) (take n (free_map a)))).
Proof.
  intros H. unfold AllocateBlocks.
  destruct (Nat.ltb_spec (length (free_map a)) n); [lia|reflexivity].
Qed.

Lemma taken_blocks_used (taken : list (nat * Z)) (used : gmap nat (Z * nat)) :
  forall id, id ∈ (fst <$> taken) ->
    is_Some (foldr (fun b m => <[b.1 := (b.2, 1%nat)]> m) used taken !! id).
Proof.
  induction taken as [|b rest IH]; intros id Hid; simpl in *.
  - inversion Hid.
  - apply lookup_insert_is_Some'.
    apply elem_of_cons in Hid as [->|Hid]; [left; reflexivity|right; auto].
Qed.

Lemma GetBlockPtrs_tracked blocks addrs a :
  (forall id, id ∈ blocks -> is_Some (block_ptr a id)) ->
  exists ptrs, GetBlockPtrs blocks addrs a = (Status_default, ptrs) /\
               length ptrs = length blocks.
Proof.
  intros H. unfold GetBlockPtrs.
  assert (Hm : is_Some (mapM (block_ptr a) blocks)).
  { apply mapM_is_Some, Forall_forall. intros id Hid. now apply H. }
  destruct Hm as [ptrs Hm]. rewrite Hm.
  exists ptrs. split; [reflexivity|]. symmetry. eapply length_mapM, Hm.
Qed.



(** In concurrent mode no call of [SwapOut] returns success or touches a
    device allocator, whatever the allocators answer. *)
Lemma SwapOut_concurrent_never_frees bm device_blocks host_blocks0 r hb bm' :
  IsRunContextDecodeAndDecodeSerially bm = false ->
  SwapOut bm device_blocks host_blocks0 = Some (r, hb, bm') ->
  r <> Returned Status_default /\
  device_allocators_ bm' = device_allocators_ bm /\
  (forall d ids, OpDeviceFree d ids ∉ drop (length (ops bm)) (ops bm')).
Proof.
  intros Hmode. unfold SwapOut.
  destruct (AllocateBlocks _ _ _) as [[st hb1] ha].
  destruct (OK st) eqn:Hst; cbn [negb].
  2:{ intros [= <- <- <-]. split_and!; [|reflexivity|].
      - intros [= E]. rewrite E in Hst. discriminate.
      - intros d ids. rewrite drop_all. apply not_elem_of_nil. }
  destruct (GetBlockPtrs hb1 [] ha) as [st2 host_addrs].
  assert (Hfresh : forall d ids,
            OpDeviceFree d ids ∉ drop (length (ops bm))
              (ops (with_host bm ha [OpHostAllocate hb1]))).
  { intros d ids. cbn [ops with_host]. rewrite drop_app_length.
    intros Hin. apply list_elem_of_singleton in Hin. discriminate. }
  destruct (OK st2) eqn:Hst2; cbn [negb].
  2:{ intros [= <- <- <-]. split_and!; [|reflexivity|exact Hfresh].
      intros [= E]. rewrite E in Hst2. discriminate. }
  swap_out_step.
  destruct (device_allocators_ bm !! GetDeviceId bm) as [dev|];
    cbn [mbind option_bind]; [|discriminate].
  destruct (GetBlockPtrs device_blocks [] dev) as [st3 device_addrs].
  destruct (OK st3) eqn:Hst3; cbn [negb].
  2:{ intros [= <- <- <-]. split_and!; [|reflexivity|exact Hfresh].
      intros [= E]. rewrite E in Hst3. discriminate. }
  swap_out_step. rewrite Hmode.
  intros [= <- <- <-]. split_and!; [discriminate|reflexivity|exact Hfresh].
Qed.


(** The two modes on the example: blocks 0 and 1 of device 0 are swapped
    out to host blocks 10 and 11. *)
Example SwapOut_serial :
  (fun r => (r.1, ops r.2)) <$>
    SwapOut (Examples.block_manager true) [0%nat; 1%nat] [] =
  Some (Returned Status_default, [10%nat; 11%nat],
        [OpHostAllocate [10%nat; 11%nat];
         OpMemcpyAsync 1000 5000 8 cudaMemcpyDeviceToHost (ComputeStream 0);
         OpMemcpyAsync 2000 6000 8 cudaMemcpyDeviceToHost (ComputeStream 0);
         OpDeviceFree 0 [0%nat; 1%nat]]).
Proof. vm_compute. reflexivity. Qed.

Example SwapOut_concurrent :
  (fun r => (r.1, ops r.2)) <$>
    SwapOut (Examples.block_manager false) [0%nat; 1%nat] [] =
  Some (Thrown unimplemented, [10%nat; 11%nat],
        [OpHostAllocate [10%nat; 11%nat]]).
Proof. vm_compute. reflexivity. Qed.

End BlockManagerFacts.

(** ** Llama: input_ids and kv_list *)

Module LlamaFacts.
Import Llama.

Lemma fold_left_app_concat {A B} (f : A -> list B) (l : list A) (init : list B) :
  fold_left (fun acc r => acc ++ f r) l init = init ++ concat (f <$> l).
Proof.
  revert init. induction l as [|a l IH]; intros init; simpl.
  - now rewrite app_nil_r.
  - rewrite IH, <- app_assoc. reflexivity.
Qed.

Lemma context_input_ids_concat forward_reqs :
  context_input_ids forward_reqs = concat (output_tokens <$> forward_reqs).
Proof.
  unfold context_input_ids.
  exact (fold_left_app_concat output_tokens forward_reqs []).
Qed.

(** The totals of the first loop. *)
Lemma totals_from m forward_reqs : forall a b offs,
  exists offs',
    fold_left
      (fun '(total_seq_len, total_block_num, kv_cache_offset_list) r =>
         let total_seq_len := (total_seq_len + length (output_tokens r))%nat in
         let total_block_num := (total_block_num + length (blocks_of m r))%nat in
         (total_seq_len, total_block_num,
          kv_cache_offset_list ++ [SizeT.to_int (Z.of_nat total_block_num)]))
      forward_reqs (a, b, offs)
    = ((a + length (concat (output_tokens <$> forward_reqs)))%nat,
       (b + length (all_blocks m forward_reqs))%nat, offs').
Proof.
  unfold all_blocks.
  induction forward_reqs as [|r rest IH]; intros a b offs; simpl.
  - exists offs. now rewrite !Nat.add_0_r.
  - destruct (IH (a + length (output_tokens r))%nat
                 (b + length (blocks_of m r))%nat
                 (offs ++ [SizeT.to_int
                             (Z.of_nat (b + length (blocks_of m r)))]))
      as [offs' ->].
    exists offs'. rewrite !length_app, !Nat.add_assoc. reflexivity.
Qed.

Lemma totals_spec m forward_reqs :
  exists offs,
    totals m forward_reqs
    = (length (concat (output_tokens <$> forward_reqs)),
       length (all_blocks m forward_reqs), offs).
Proof. unfold totals. apply (totals_from m forward_reqs 0%nat 0%nat). Qed.

Lemma at_last_last req_input :
  SizeT.in_range (Z.of_nat (length req_input)) ->
  req_input <> [] -> at_last req_input = last req_input.
Proof.
  intros Hr Hne. unfold at_last. rewrite last_lookup. f_equal.
  destruct req_input as [|t l]; [contradiction|].
  rewrite SizeTFacts.wrap_small.
  - simpl length. lia.
  - unfold SizeT.in_range in *. simpl length in *. lia.
Qed.

(** The loop of Decode, started at index [length done_] on a vector whose
    first entries are [done_]. *)
Lemma decode_input_ids_spec forward_reqs : forall done_,
  Forall has_token forward_reqs ->
  exists ids,
    decode_input_ids (length done_) forward_reqs
      (done_ ++ replicate (length forward_reqs) 0%Z) = Returned (done_ ++ ids) /\
    Forall2 (fun r t => last (output_tokens r) = Some t) forward_reqs ids.
Proof.
  induction forward_reqs as [|r rest IH]; intros done_ Hall; simpl.
  - exists []. split; [reflexivity|constructor].
  - apply Forall_cons in Hall as [[Hne Hr] Hall].
    rewrite (at_last_last _ Hr Hne).
    destruct (last (output_tokens r)) as [t|] eqn:Hlast.
    2:{ apply last_None in Hlast. contradiction. }
    replace (<[length done_ := t]> (done_ ++ 0%Z :: replicate (length rest) 0%Z))
      with ((done_ ++ [t]) ++ replicate (length rest) 0%Z).
    2:{ rewrite <- app_assoc, insert_app_r_alt by lia.
        rewrite Nat.sub_diag. reflexivity. }
    replace (S (length done_)) with (length (done_ ++ [t]))
      by (rewrite length_app; simpl; lia).
    destruct (IH (done_ ++ [t]) Hall) as (ids & -> & Hids).
    exists (t :: ids). rewrite <- app_assoc. split; [reflexivity|].
    constructor; assumption.
Qed.

(** C7: for a batch within [max_batch_size_], the [input_ids] of
    ContextDecode are the tokens of every request, concatenated in request
    order, and the shape is the sum of the token counts; the [input_ids]
    of Decode, when every request has a token, are one token per request,
    the last element of its [output_tokens], and the shape is the batch
    size. *)
Theorem C7_input_ids m forward_reqs :
  (length forward_reqs <= max_batch_size_ m)%nat ->
  (exists t,
     ContextDecode m forward_reqs = Returned t /\
     input_ids_cpu t = concat (output_tokens <$> forward_reqs) /\
     input_ids_shape t =
       [sum_list (length <$> (output_tokens <$> forward_reqs))] /\
     length (input_ids_cpu t) =
       sum_list (length <$> (output_tokens <$> forward_reqs))) /\
  (Forall has_token forward_reqs ->
   exists t,
     Decode m forward_reqs = Returned t /\
     Forall2 (fun r tok => last (output_tokens r) = Some tok)
             forward_reqs (input_ids_cpu t) /\
     input_ids_shape t = [length forward_reqs] /\
     length (input_ids_cpu t) = length forward_reqs).
Proof.
  intros Hbatch.
  destruct (totals_spec m forward_reqs) as [offs Htot].
  assert (Hmax : (max_batch_size_ m <? length forward_reqs)%nat = false)
    by (apply Nat.ltb_ge; exact Hbatch).
  split.
  - eexists. unfold ContextDecode. rewrite Hmax, Htot.
    split; [reflexivity|]. cbn [input_ids_cpu input_ids_shape].
    rewrite context_input_ids_concat, length_concat. auto.
  - intros Hall.
    destruct (decode_input_ids_spec forward_reqs [] Hall) as (ids & Hrun & Hids).
    simpl in Hrun.
    eexists. unfold Decode. rewrite Hmax, Htot, Hrun.
    split; [reflexivity|]. cbn [input_ids_cpu input_ids_shape].
    split_and!; [exact Hids|reflexivity|].
    symmetry. eapply Forall2_length, Hids.
Qed.

Lemma C7_input_ids_witness :
  (exists t,
     ContextDecode Examples.llama Examples.batch = Returned t /\
     input_ids_cpu t = [1; 2; 3; 4; 5]%Z) /\
  (exists t,
     Decode Examples.llama Examples.batch = Returned t /\
     Forall2 (fun r tok => last (output_tokens r) = Some tok)
             Examples.batch (input_ids_cpu t)).
Proof.
  destruct (C7_input_ids Examples.llama Examples.batch) as [Hc Hd].
  - vm_compute. lia.
  - split.
    + destruct Hc as (t & Hrun & Hids & _). exists t. split; assumption.
    + destruct Hd as (t & Hrun & Hlast & _).
      * repeat constructor; try discriminate; vm_compute; congruence.
      * exists t. split; assumption.
Defined.

(** *** kv_list *)

(** The innermost loop overwrites the [length blocks] entries that follow
    position [base + kv_list_index]. *)
Lemma write_blocks_spec base offset blocks : forall pre old post k,
  length pre = (base + k)%nat -> length old = length blocks ->
  write_blocks base offset blocks (pre ++ old ++ post, k)
  = (pre ++ ((fun p => p + offset)%Z <$> blocks) ++ post,
     (k + length blocks)%nat).
Proof.
  induction blocks as [|b rest IH]; intros pre old post k Hpre Hold.
  - destruct old; [|discriminate]. simpl. now rewrite Nat.add_0_r.
  - destruct old as [|o old]; [discriminate|]. simpl in Hold.
    cbn [write_blocks fst snd].
    rewrite <- Hpre, insert_app_r_alt by lia.
    rewrite Nat.sub_diag. cbn [app insert list_insert].
    replace (pre ++ (b + offset)%Z :: old ++ post)
      with ((pre ++ [(b + offset)%Z]) ++ old ++ post)
      by (rewrite <- app_assoc; reflexivity).
    rewrite IH; [|rewrite length_app; simpl; lia|lia].
    rewrite <- app_assoc. simpl. f_equal. lia.
Qed.

Lemma write_requests_spec m base offset forward_reqs : forall pre old post k,
  length pre = (base + k)%nat ->
  length old = length (all_blocks m forward_reqs) ->
  write_requests m base offset forward_reqs (pre ++ old ++ post, k)
  = (pre ++ ((fun p => p + offset)%Z <$> all_blocks m forward_reqs) ++ post,
     (k + length (all_blocks m forward_reqs))%nat).
Proof.
  unfold write_requests, all_blocks.
  induction forward_reqs as [|r rest IH]; intros pre old post k Hpre Hold.
  - destruct old; [|discriminate]. simpl. now rewrite Nat.add_0_r.
  - rewrite fmap_cons in *. cbn [concat fold_left] in *.
    rewrite length_app in Hold.
    rewrite <- (take_drop (length (blocks_of m r)) old), <- app_assoc.
    rewrite write_blocks_spec;
      [|assumption|rewrite length_take; lia].
    replace (pre ++ ((fun p => (p + offset)%Z) <$> blocks_of m r)
               ++ drop (length (blocks_of m r)) old ++ post)
      with ((pre ++ ((fun p => (p + offset)%Z) <$> blocks_of m r))
               ++ drop (length (blocks_of m r)) old ++ post)
      by (rewrite <- app_assoc; reflexivity).
    rewrite IH.
    + rewrite fmap_app, length_app, <- !app_assoc, Nat.add_assoc. reflexivity.
    + rewrite length_app, length_fmap. lia.
    + rewrite length_drop. lia.
Qed.

(** One layer: the row of the layer replaces the [2 * total] entries that
    follow position [layer_idx * total * 2]. *)
Lemma write_layer_spec m forward_reqs layer_idx pre old post :
  length pre = (layer_idx * length (all_blocks m forward_reqs) * 2)%nat ->
  length old = (length (all_blocks m forward_reqs) * 2)%nat ->
  write_layer m (length (all_blocks m forward_reqs)) forward_reqs
              (pre ++ old ++ post) layer_idx
  = pre ++ layer_row m forward_reqs layer_idx ++ post.
Proof.
  intros Hpre Hold. unfold write_layer, layer_row.
  set (total := length (all_blocks m forward_reqs)) in *.
  rewrite <- (take_drop total old), <- app_assoc.
  rewrite write_requests_spec; [|lia|rewrite length_take; lia].
  cbn [fst snd].
  replace (pre ++ ((fun p => (p + k_offset m layer_idx)%Z)
                     <$> all_blocks m forward_reqs)
             ++ drop total old ++ post)
    with ((pre ++ ((fun p => (p + k_offset m layer_idx)%Z)
                     <$> all_blocks m forward_reqs))
             ++ drop total old ++ [] ++ post)
    by (rewrite <- app_assoc; reflexivity).
  rewrite (app_assoc (drop total old) [] post), app_nil_r.
  replace (0 + total)%nat with total by lia.
  rewrite write_requests_spec.
  - cbn [fst]. rewrite <- !app_assoc. reflexivity.
  - rewrite length_app, length_fmap. fold total. lia.
  - rewrite length_drop. fold total. lia.
Qed.

Lemma length_layer_row m forward_reqs layer_idx :
  length (layer_row m forward_reqs layer_idx)
  = (length (all_blocks m forward_reqs) * 2)%nat.
Proof. unfold layer_row. rewrite length_app, !length_fmap. lia. Qed.

Lemma write_layers_spec m forward_reqs : forall k a pre,
  length pre = (a * length (all_blocks m forward_reqs) * 2)%nat ->
  fold_left (write_layer m (length (all_blocks m forward_reqs)) forward_reqs)
            (seq a k)
            (pre ++ replicate (k * length (all_blocks m forward_reqs) * 2) 0%Z)
  = pre ++ concat (layer_row m forward_reqs <$> seq a k).
Proof.
  induction k as [|k IH]; intros a pre Hpre; [reflexivity|].
  cbn [seq fold_left fmap list_fmap concat].
  replace (S k * length (all_blocks m forward_reqs) * 2)%nat
    with (length (all_blocks m forward_reqs) * 2
          + k * length (all_blocks m forward_reqs) * 2)%nat by lia.
  rewrite replicate_add.
  rewrite write_layer_spec;
    [|exact Hpre|rewrite length_replicate; reflexivity].
  rewrite app_assoc.
  rewrite (IH (S a) (pre ++ layer_row m forward_reqs a)).
  - rewrite <- app_assoc. reflexivity.
  - rewrite length_app, Hpre, length_layer_row. lia.
Qed.

(** The array the loops build is the rows of the layers, one after the
    other. *)
Lemma build_kv_list_rows m forward_reqs :
  build_kv_list m (length (all_blocks m forward_reqs)) forward_reqs
  = concat (layer_row m forward_reqs <$> seq 0 (num_layer_ m)).
Proof.
  unfold build_kv_list.
  exact (write_layers_spec m forward_reqs (num_layer_ m) 0%nat [] eq_refl).
Qed.

Lemma lookup_rows m forward_reqs : forall k a L j,
  (L < k)%nat -> (j < length (all_blocks m forward_reqs) * 2)%nat ->
  concat (layer_row m forward_reqs <$> seq a k)
    !! (L * (length (all_blocks m forward_reqs) * 2) + j)%nat
  = layer_row m forward_reqs (a + L) !! j.
Proof.
  induction k as [|k IH]; intros a L j HL Hj; [lia|].
  cbn [seq fmap list_fmap concat].
  destruct L as [|L].
  - rewrite lookup_app_l by (rewrite length_layer_row; lia).
    now rewrite Nat.add_0_r.
  - rewrite lookup_app_r by (rewrite length_layer_row; lia).
    rewrite length_layer_row.
    replace (S L * (length (all_blocks m forward_reqs) * 2) + j
             - length (all_blocks m forward_reqs) * 2)%nat
      with (L * (length (all_blocks m forward_reqs) * 2) + j)%nat by lia.
    rewrite IH by lia. f_equal. f_equal. lia.
Qed.

Lemma length_rows m forward_reqs : forall k a,
  length (concat (layer_row m forward_reqs <$> seq a k))
  = (k * (length (all_blocks m forward_reqs) * 2))%nat.
Proof.
  induction k as [|k IH]; intros a; [reflexivity|].
  cbn [seq fmap list_fmap concat].
  rewrite length_app, length_layer_row, IH. lia.
Qed.

(** The offsets without the wrap-around, when [num_layer_ * block_size_]
    is a [size_t]. *)
Lemma offsets_no_wrap m L :
  (0 <= block_size_ m)%Z ->
  (Z.of_nat (num_layer_ m) * block_size_ m < SizeT.modulus)%Z ->
  (L < num_layer_ m)%nat ->
  k_offset m L = (Z.of_nat L * block_size_ m / Z.of_nat (num_layer_ m))%Z /\
  v_offset m L = (Z.of_nat L * block_size_ m / Z.of_nat (num_layer_ m)
                  + block_size_ m / Z.of_nat (num_layer_ m) / 2)%Z.
Proof.
  intros Hbs Hfit HL. unfold k_offset, v_offset.
  assert (Hmul : (0 <= Z.of_nat L * block_size_ m
                  <= Z.of_nat (num_layer_ m) * block_size_ m - block_size_ m)%Z)
    by nia.
  rewrite (SizeTFacts.wrap_small (Z.of_nat L * block_size_ m))
    by (unfold SizeT.in_range; lia).
  split; [reflexivity|].
  apply SizeTFacts.wrap_small. unfold SizeT.in_range.
  assert (0 <= Z.of_nat L * block_size_ m / Z.of_nat (num_layer_ m)
          <= Z.of_nat L * block_size_ m)%Z.
  { split; [apply Z.div_pos; lia|].
    apply Z.div_le_upper_bound; [lia|]. nia. }
  assert (0 <= block_size_ m / Z.of_nat (num_layer_ m) / 2 <= block_size_ m)%Z.
  { split; [apply Z.div_pos; [apply Z.div_pos|]; lia|].
    apply Z.div_le_upper_bound; [lia|].
    assert (block_size_ m / Z.of_nat (num_layer_ m) <= block_size_ m)%Z.
    { apply Z.div_le_upper_bound; [lia|]. nia. }
    lia. }
  lia.
Qed.

(** Both functions build [kv_list] with the same loops. *)
Lemma tables_kv_list m forward_reqs t :
  ContextDecode m forward_reqs = Returned t \/
  Decode m forward_reqs = Returned t ->
  kv_list_shape t
    = [num_layer_ m; (length (all_blocks m forward_reqs) * 2)%nat] /\
  cpu_kv_list t
    = build_kv_list m (length (all_blocks m forward_reqs)) forward_reqs.
Proof.
  destruct (totals_spec m forward_reqs) as [offs Htot].
  unfold ContextDecode, Decode. rewrite Htot.
  destruct (max_batch_size_ m <? length forward_reqs)%nat.
  - intros [H|H]; discriminate.
  - intros [H|H].
    + injection H as <-. split; reflexivity.
    + destruct (decode_input_ids _ _ _); try discriminate.
      injection H as <-. split; reflexivity.
Qed.

(** C3, as the claim states it, fails: with 3 layers and blocks of 5
    bytes, the K entry of layer 2 for the block at address 1000 is
    1000 + (2 * 5) / 3 = 1003, where the claim has
    1000 + 2 * (5 / 3) = 1002. *)
Lemma C3_counterexample :
  exists t,
    ContextDecode Examples.odd_llama Examples.one_block_batch = Returned t /\
    cpu_kv_list t !! (2 * (1 * 2) + 0)%nat = Some 1003%Z /\
    (1000 + 2 * (block_size_ Examples.odd_llama
                 / Z.of_nat (num_layer_ Examples.odd_llama)))%Z <> 1003%Z.
Proof.
  eexists. split; [vm_compute; reflexivity|].
  split; [reflexivity|]. vm_compute. discriminate.
Qed.

(** C3 (amended): the [kv_list] of ContextDecode and of Decode has shape
    [[num_layer, total_block_num * 2]]; in the row of layer [L], entry [j]
    of the first [total_block_num] is the K address
    [block_ptr + (L * block_size) / num_layer] of the [j]-th block of the
    batch in request order, and entry [j] of the next [total_block_num] is
    the V address
    [block_ptr + (L * block_size) / num_layer + (block_size / num_layer) / 2];
    the rows follow each other without gap.  When [num_layer] divides
    [block_size], [(L * block_size) / num_layer] is
    [L * (block_size / num_layer)]. *)
Theorem C3_kv_list_layout m forward_reqs t L j p :
  ContextDecode m forward_reqs = Returned t \/
  Decode m forward_reqs = Returned t ->
  (0 <= block_size_ m)%Z ->
  (Z.of_nat (num_layer_ m) * block_size_ m < SizeT.modulus)%Z ->
  (L < num_layer_ m)%nat ->
  all_blocks m forward_reqs !! j = Some p ->
  kv_list_shape t
    = [num_layer_ m; (length (all_blocks m forward_reqs) * 2)%nat] /\
  length (cpu_kv_list t)
    = (num_layer_ m * (length (all_blocks m forward_reqs) * 2))%nat /\
  cpu_kv_list t !! (L * (length (all_blocks m forward_reqs) * 2) + j)%nat
    = Some (p + Z.of_nat L * block_size_ m / Z.of_nat (num_layer_ m))%Z /\
  cpu_kv_list t !! (L * (length (all_blocks m forward_reqs) * 2)
                    + length (all_blocks m forward_reqs) + j)%nat
    = Some (p + (Z.of_nat L * block_size_ m / Z.of_nat (num_layer_ m)
                 + block_size_ m / Z.of_nat (num_layer_ m) / 2))%Z /\
  ((Z.of_nat (num_layer_ m) | block_size_ m)%Z ->
   (Z.of_nat L * block_size_ m / Z.of_nat (num_layer_ m)
    = Z.of_nat L * (block_size_ m / Z.of_nat (num_layer_ m)))%Z).
Proof.
  intros Ht Hbs Hfit HL Hj.
  destruct (tables_kv_list m forward_reqs t Ht) as [Hshape Hkv].
  destruct (offsets_no_wrap m L Hbs Hfit HL) as [Hk Hv].
  pose proof (lookup_lt_Some _ _ _ Hj) as Hlt.
  rewrite Hkv, build_kv_list_rows.
  split_and!.
  - exact Hshape.
  - apply length_rows.
  - rewrite lookup_rows by lia. simpl. unfold layer_row.
    rewrite lookup_app_l by (rewrite length_fmap; lia).
    rewrite list_lookup_fmap, Hj, Hk. reflexivity.
  - rewrite <- Nat.add_assoc, lookup_rows by lia. simpl. unfold layer_row.
    rewrite lookup_app_r by (rewrite length_fmap; lia).
    rewrite length_fmap.
    replace (length (all_blocks m forward_reqs) + j
             - length (all_blocks m forward_reqs))%nat with j by lia.
    rewrite list_lookup_fmap, Hj, Hv. reflexivity.
  - intros Hdiv. apply Z.divide_div_mul_exact; [lia|exact Hdiv].
Qed.

(** Two layers, blocks of 1024 bytes, a block at [p = 8192]: the K region
    of layer 1 begins at [p + 512], the V region at [p + 768]. *)
Lemma C3_kv_list_layout_witness :
  exists t,
    Decode Examples.llama Examples.batch = Returned t /\
    kv_list_shape t = [2%nat; 6%nat] /\
    cpu_kv_list t !! 7%nat = Some (8192 + 512)%Z /\
    cpu_kv_list t !! 10%nat = Some (8192 + 768)%Z.
Proof.
  destruct (Decode Examples.llama Examples.batch) as [t| |] eqn:E;
    [|vm_compute in E; discriminate|vm_compute in E; discriminate].
  exists t. split; [reflexivity|].
  destruct (C3_kv_list_layout Examples.llama Examples.batch t 1 1 8192%Z)
    as (Hshape & _ & Hk & Hv & _).
  - right. exact E.
  - vm_compute. discriminate.
  - vm_compute. reflexivity.
  - vm_compute. lia.
  - reflexivity.
  - split_and!; [exact Hshape|exact Hk|exact Hv].
Defined.

End LlamaFacts.

(** ** Llama: offsets, positions and shapes *)

Module LlamaTablesFacts.
Import Llama LlamaTables.

Lemma to_int64_small z : (0 <= z < 2 ^ 63)%Z -> to_int64 z = z.
Proof. intros H. unfold to_int64. rewrite Z.mod_small; lia. Qed.

(** The part of a concatenation that comes from its [i]-th list. *)
Lemma concat_segment {A} (ls : list (list A)) i l :
  ls !! i = Some l ->
  take (length l) (drop (length (concat (take i ls))) (concat ls)) = l.
Proof.
  intros Hi.
  pose proof (f_equal (@concat A) (take_drop_middle ls i l Hi)) as E.
  rewrite concat_app in E. simpl in E. rewrite <- E.
  rewrite drop_app_length. now rewrite take_app_length.
Qed.

Lemma concat_segment_lookup {A} (ls : list (list A)) i l k :
  ls !! i = Some l ->
  (k < length l)%nat ->
  concat ls !! (length (concat (take i ls)) + k)%nat = l !! k.
Proof.
  intros Hi Hk.
  transitivity
    (take (length l) (drop (length (concat (take i ls))) (concat ls)) !! k);
    [|now rewrite (concat_segment ls i l Hi)].
  rewrite lookup_take_lt by exact Hk. now rewrite lookup_drop.
Qed.

Lemma blocks_before_S m r rest i :
  blocks_before m (r :: rest) (S i)
  = (length (blocks_of m r) + blocks_before m rest i)%nat.
Proof.
  unfold blocks_before, all_blocks. simpl. now rewrite length_app.
Qed.

Lemma tokens_before_S r rest i :
  tokens_before (r :: rest) (S i)
  = (length (output_tokens r) + tokens_before rest i)%nat.
Proof. unfold tokens_before. simpl. now rewrite length_app. Qed.

Lemma blocks_before_all m forward_reqs :
  blocks_before m forward_reqs (length forward_reqs)
  = length (all_blocks m forward_reqs).
Proof. unfold blocks_before. now rewrite firstn_all. Qed.

Lemma tokens_before_all forward_reqs :
  tokens_before forward_reqs (length forward_reqs)
  = length (concat (output_tokens <$> forward_reqs)).
Proof. unfold tokens_before. now rewrite firstn_all. Qed.

Lemma blocks_before_le m forward_reqs i :
  (blocks_before m forward_reqs i
   <= blocks_before m forward_reqs (length forward_reqs))%nat.
Proof.
  unfold blocks_before, all_blocks.
  rewrite firstn_all.
  pose proof (f_equal (fun l => length (concat (blocks_of m <$> l)))
                (take_drop i forward_reqs)) as E.
  simpl in E. rewrite fmap_app, concat_app, length_app in E. lia.
Qed.

Lemma tokens_before_le forward_reqs i :
  (tokens_before forward_reqs i
   <= tokens_before forward_reqs (length forward_reqs))%nat.
Proof.
  unfold tokens_before.
  rewrite firstn_all.
  pose proof (f_equal (fun l => length (concat (output_tokens <$> l)))
                (take_drop i forward_reqs)) as E.
  simpl in E. rewrite fmap_app, concat_app, length_app in E. lia.
Qed.

(** The third component of [totals]: one entry per request, the number of
    blocks of the batch up to and including it. *)
Lemma totals_offsets_from m forward_reqs : forall a b offs,
  fold_left
    (fun '(total_seq_len, total_block_num, kv_cache_offset_list) r =>
       let total_seq_len := (total_seq_len + length (output_tokens r))%nat in
       let total_block_num := (total_block_num + length (blocks_of m r))%nat in
       (total_seq_len, total_block_num,
        kv_cache_offset_list ++ [SizeT.to_int (Z.of_nat total_block_num)]))
    forward_reqs (a, b, offs)
  = ((a + tokens_before forward_reqs (length forward_reqs))%nat,
     (b + blocks_before m forward_reqs (length forward_reqs))%nat,
     offs ++ ((fun i => SizeT.to_int
                          (Z.of_nat (b + blocks_before m forward_reqs i)))
              <$> seq 1 (length forward_reqs))).
Proof.
  induction forward_reqs as [|r rest IH]; intros a b offs.
  - simpl. unfold tokens_before, blocks_before, all_blocks. simpl.
    now rewrite !Nat.add_0_r, app_nil_r.
  - cbn [fold_left length]. rewrite IH.
    rewrite tokens_before_S, blocks_before_S, !Nat.add_assoc.
    f_equal. rewrite <- app_assoc. f_equal.
    cbn [seq fmap list_fmap app]. f_equal.
    + rewrite blocks_before_S. unfold blocks_before, all_blocks. simpl.
      now rewrite Nat.add_0_r.
    + rewrite <- (fmap_S_seq 1), <- list_fmap_compose.
      apply list_fmap_ext. intros _ i _. simpl.
      now rewrite blocks_before_S, Nat.add_assoc.
Qed.

Lemma totals_full m forward_reqs :
  totals m forward_reqs
  = (tokens_before forward_reqs (length forward_reqs),
     blocks_before m forward_reqs (length forward_reqs),
     (fun i => SizeT.to_int (Z.of_nat (blocks_before m forward_reqs i)))
       <$> seq 0 (S (length forward_reqs))).
Proof.
  unfold totals. rewrite totals_offsets_from. simpl. reflexivity.
Qed.

Lemma tables_offsets m forward_reqs t :
  ContextDecode m forward_reqs = Returned t \/
  Decode m forward_reqs = Returned t ->
  kv_cache_offset_list t = (totals m forward_reqs).2.
Proof.
  unfold ContextDecode, Decode.
  destruct (totals m forward_reqs) as [[a b] offs]. cbn [snd].
  destruct (max_batch_size_ m <? length forward_reqs)%nat.
  - intros [H|H]; discriminate.
  - intros [H|H].
    + injection H as <-. reflexivity.
    + destruct (decode_input_ids _ _ _); try discriminate.
      injection H as <-. reflexivity.
Qed.

(** X1: [kv_cache_offset_list], in ContextDecode and in Decode, is the
    prefix sum of the block counts with a leading 0: it has [batch + 1]
    entries, entry [i] is the number of blocks of the requests before
    request [i], the last entry is [total_block_num], and the blocks of
    request [i] are the entries [offset[i] .. offset[i+1])] of the batch's
    blocks. *)
Theorem kv_cache_offset_list_prefix_sums m forward_reqs t :
  ContextDecode m forward_reqs = Returned t \/
  Decode m forward_reqs = Returned t ->
  (Z.of_nat (length (all_blocks m forward_reqs)) < 2 ^ 31)%Z ->
  length (kv_cache_offset_list t) = S (length forward_reqs) /\
  (forall i, (i <= length forward_reqs)%nat ->
     kv_cache_offset_list t !! i
       = Some (Z.of_nat (blocks_before m forward_reqs i))) /\
  last (kv_cache_offset_list t)
    = Some (Z.of_nat (length (all_blocks m forward_reqs))) /\
  (forall i r, forward_reqs !! i = Some r ->
     blocks_before m forward_reqs (S i)
       = (blocks_before m forward_reqs i + length (blocks_of m r))%nat /\
     take (length (blocks_of m r))
          (drop (blocks_before m forward_reqs i) (all_blocks m forward_reqs))
       = blocks_of m r).
Proof.
  intros Ht Hfit. rewrite (tables_offsets m forward_reqs t Ht), totals_full.
  cbn [snd].
  assert (Hentry : forall i, (i <= length forward_reqs)%nat ->
            ((fun i => SizeT.to_int (Z.of_nat (blocks_before m forward_reqs i)))
               <$> seq 0 (S (length forward_reqs))) !! i
            = Some (Z.of_nat (blocks_before m forward_reqs i))).
  { intros i Hi. rewrite list_lookup_fmap, lookup_seq_lt by lia. simpl.
    rewrite SizeTFacts.to_int_small; [reflexivity|].
    pose proof (blocks_before_le m forward_reqs i).
    rewrite blocks_before_all in *. lia. }
  split_and!.
  - now rewrite length_fmap, length_seq.
  - exact Hentry.
  - rewrite last_lookup, length_fmap, length_seq. simpl.
    rewrite Hentry by lia. now rewrite blocks_before_all.
  - intros i r Hi. split.
    + unfold blocks_before, all_blocks.
      rewrite (take_S_r _ _ _ Hi), fmap_app, concat_app, length_app.
      simpl. now rewrite app_nil_r.
    + unfold blocks_before, all_blocks. rewrite fmap_take.
      apply concat_segment. now rewrite list_lookup_fmap, Hi.
Qed.

Lemma kv_cache_offset_list_prefix_sums_witness :
  exists t,
    Decode Examples.llama Examples.batch = Returned t /\
    kv_cache_offset_list t = [0; 2; 3]%Z /\
    kv_cache_offset_list t !! 1%nat
      = Some (Z.of_nat (blocks_before Examples.llama Examples.batch 1)).
Proof.
  destruct (Decode Examples.llama Examples.batch) as [t| |] eqn:E;
    [|vm_compute in E; discriminate|vm_compute in E; discriminate].
  exists t. split; [reflexivity|].
  split; [vm_compute in E; injection E as <-; reflexivity|].
  refine (proj1 (proj2 (kv_cache_offset_list_prefix_sums
                          Examples.llama Examples.batch t (or_intror E) _))
            1%nat _).
  - vm_compute. reflexivity.
  - vm_compute. lia.
Defined.

(** *** The input loop of ContextDecode *)

Lemma max_list_cons_Z (a : nat) (l : list nat) (z : Z) :
  Z.max (Z.max z (Z.of_nat a)) (Z.of_nat (max_list l))
  = Z.max z (Z.of_nat (max_list (a :: l))).
Proof. simpl. lia. Qed.

(** The loop from request [idx] on, when no offset reaches [2^31]. *)
Lemma context_input_loop_spec forward_reqs : forall idx st,
  length (input_offset_list_uint64 st) = (S idx + length forward_reqs)%nat ->
  (0 <= input_offset st)%Z ->
  (0 <= max_tokens st)%Z ->
  (input_offset st
   + Z.of_nat (tokens_before forward_reqs (length forward_reqs)) < 2 ^ 31)%Z ->
  let st' := context_input_loop idx forward_reqs st in
  ids_cpu st' = ids_cpu st ++ concat (output_tokens <$> forward_reqs) /\
  max_tokens st'
    = Z.max (max_tokens st)
            (Z.of_nat (max_list (length <$> (output_tokens <$> forward_reqs)))) /\
  length (input_offset_list_uint64 st') = (S idx + length forward_reqs)%nat /\
  (forall j, (j <= idx)%nat ->
     input_offset_list_uint64 st' !! j = input_offset_list_uint64 st !! j) /\
  (forall i, (1 <= i <= length forward_reqs)%nat ->
     input_offset_list_uint64 st' !! (idx + i)%nat
     = Some (input_offset st + Z.of_nat (tokens_before forward_reqs i))%Z).
Proof.
  induction forward_reqs as [|r rest IH]; intros idx st Hlen Hpos Hmx Hfit; simpl.
  - rewrite app_nil_r. split_and!; try done; [lia|]. intros i Hi. simpl in Hi. lia.
  - cbn [length] in Hlen, Hfit. rewrite tokens_before_S in Hfit.
    pose proof (tokens_before_le rest 0) as _.
    assert (Hoff : SizeT.wrap (input_offset st
                               + Z.of_nat (length (output_tokens r)))
                   = (input_offset st
                      + Z.of_nat (length (output_tokens r)))%Z).
    { apply SizeTFacts.wrap_small. unfold SizeT.in_range.
      rewrite SizeTFacts.modulus_eq. lia. }
    destruct (IH (S idx) (context_input_step idx st r)) as (Hids & Hmax & Hl & Hkeep & Hnew).
    + cbn [context_input_step input_offset_list_uint64].
      rewrite length_insert. lia.
    + cbn [context_input_step input_offset]. rewrite Hoff. lia.
    + cbn [context_input_step max_tokens]. lia.
    + cbn [context_input_step input_offset]. rewrite Hoff. lia.
    + cbn [context_input_step ids_cpu max_tokens input_offset
             input_offset_list_uint64] in Hids, Hmax, Hl, Hkeep, Hnew.
      rewrite Hoff in *.
      split_and!.
      * rewrite Hids, <- app_assoc. reflexivity.
      * rewrite Hmax, SizeTFacts.to_int_small by lia.
        apply max_list_cons_Z.
      * rewrite Hl. lia.
      * intros j Hj. rewrite Hkeep by lia.
        apply list_lookup_insert_ne. lia.
      * intros i Hi. destruct i as [|i]; [lia|].
        rewrite tokens_before_S.
        destruct i as [|i].
        -- rewrite Nat.add_1_r, Hkeep by lia.
           rewrite list_lookup_insert_eq by lia.
           unfold tokens_before. simpl. f_equal. lia.
        -- replace (idx + S (S i))%nat with (S idx + S i)%nat by lia.
           rewrite Hnew by lia. f_equal. lia.
Qed.

(** While no offset reaches [2^31] the [int] list and the [size_t] list hold
    the same numbers. *)
Lemma context_input_loop_int32 forward_reqs : forall idx st,
  input_offset_list_int32 st = input_offset_list_uint64 st ->
  (0 <= input_offset st)%Z ->
  (input_offset st
   + Z.of_nat (tokens_before forward_reqs (length forward_reqs)) < 2 ^ 31)%Z ->
  input_offset_list_int32 (context_input_loop idx forward_reqs st)
  = input_offset_list_uint64 (context_input_loop idx forward_reqs st).
Proof.
  induction forward_reqs as [|r rest IH]; intros idx st Heq Hpos Hfit; simpl.
  - exact Heq.
  - cbn [length] in Hfit. rewrite tokens_before_S in Hfit.
    assert (Hoff : SizeT.wrap (input_offset st
                               + Z.of_nat (length (output_tokens r)))
                   = (input_offset st
                      + Z.of_nat (length (output_tokens r)))%Z).
    { apply SizeTFacts.wrap_small. unfold SizeT.in_range.
      rewrite SizeTFacts.modulus_eq. lia. }
    apply IH; cbn [context_input_step input_offset input_offset_list_int32
                     input_offset_list_uint64]; rewrite ?Hoff; try lia.
    rewrite Heq, SizeTFacts.to_int_small by lia. reflexivity.
Qed.

(** *** Rotary positions of ContextDecode *)

Lemma write_positions_spec pre old post k : forall size,
  length pre = k -> (size <= length old)%nat ->
  (Z.of_nat size <= 2 ^ 63)%Z ->
  write_positions size (pre ++ old ++ post, k)
  = (pre ++ (Z.of_nat <$> seq 0 size) ++ drop size old ++ post, (k + size)%nat).
Proof.
  intros size Hpre. induction size as [|n IH]; intros Hn Hfit.
  - simpl. now rewrite Nat.add_0_r.
  - unfold write_positions in *. rewrite seq_S, fold_left_app, IH by lia.
    cbn [fold_left fst snd Nat.add].
    destruct (lookup_lt_is_Some_2 old n) as [o Ho]; [lia|].
    rewrite (drop_S _ _ _ Ho).
    rewrite app_assoc, insert_app_r_alt
      by (rewrite length_app, length_fmap, length_seq; lia).
    rewrite length_app, length_fmap, length_seq, Hpre.
    replace (k + n - (k + n))%nat with 0%nat by lia.
    cbn [insert list_insert app].
    rewrite to_int64_small by lia.
    rewrite fmap_app, <- !app_assoc. simpl.
    f_equal. lia.
Qed.

Lemma length_positions_of r :
  length (positions_of r) = length (output_tokens r).
Proof. unfold positions_of. now rewrite length_fmap, length_seq. Qed.

Lemma length_concat_positions (forward_reqs : list ForwardRequest) :
  length (concat (positions_of <$> forward_reqs))
  = length (concat (output_tokens <$> forward_reqs)).
Proof.
  induction forward_reqs as [|r rest IH]; [reflexivity|].
  rewrite !fmap_cons. cbn [concat].
  now rewrite !length_app, length_positions_of, IH.
Qed.

Lemma max_list_le_sum (ns : list nat) : (max_list ns <= sum_list ns)%nat.
Proof. induction ns as [|n ns IH]; simpl; lia. Qed.

Lemma length_concat_sum {A} (ls : list (list A)) :
  length (concat ls) = sum_list (length <$> ls).
Proof.
  induction ls as [|l ls IH]; [reflexivity|].
  rewrite fmap_cons. cbn [concat]. rewrite length_app, IH. reflexivity.
Qed.

Lemma rotary_loop_spec forward_reqs : forall pre old post k,
  length pre = k ->
  length old = length (concat (output_tokens <$> forward_reqs)) ->
  (Z.of_nat (length old) <= 2 ^ 63)%Z ->
  fold_left (fun st r => write_positions (length (output_tokens r)) st)
            forward_reqs (pre ++ old ++ post, k)
  = (pre ++ concat (positions_of <$> forward_reqs) ++ post,
     (k + length old)%nat).
Proof.
  induction forward_reqs as [|r rest IH]; intros pre old post k Hpre Hold Hfit.
  - destruct old; [|discriminate]. simpl. now rewrite Nat.add_0_r.
  - rewrite fmap_cons in *. cbn [concat fold_left] in *.
    rewrite length_app in Hold.
    rewrite write_positions_spec by lia.
    replace (pre ++ (Z.of_nat <$> seq 0 (length (output_tokens r)))
               ++ drop (length (output_tokens r)) old ++ post)
      with ((pre ++ positions_of r)
               ++ drop (length (output_tokens r)) old ++ post)
      by (unfold positions_of; rewrite <- app_assoc; reflexivity).
    rewrite IH.
    + rewrite length_drop, <- !app_assoc. f_equal. lia.
    + rewrite length_app, length_positions_of. lia.
    + rewrite length_drop. lia.
    + rewrite length_drop. lia.
Qed.

Lemma context_rotary_pos_spec forward_reqs :
  (Z.of_nat (tokens_before forward_reqs (length forward_reqs)) < 2 ^ 31)%Z ->
  context_rotary_pos (tokens_before forward_reqs (length forward_reqs))
                     forward_reqs
  = concat (positions_of <$> forward_reqs).
Proof.
  intros Hfit. unfold context_rotary_pos.
  pose proof (rotary_loop_spec forward_reqs []
                (replicate (tokens_before forward_reqs (length forward_reqs)) 0%Z)
                [] 0%nat eq_refl) as H.
  rewrite !app_nil_r in H. simpl in H. rewrite H.
  - simpl. reflexivity.
  - now rewrite length_replicate, tokens_before_all.
  - rewrite length_replicate. lia.
Qed.

(** *** The tables of ContextDecode, all at once *)

Lemma ContextDecode_tables_spec m forward_reqs :
  (length forward_reqs <= max_batch_size_ m)%nat ->
  int_sized m forward_reqs ->
  ContextDecode_tables m forward_reqs
  = Some (Returned
      (MkContextTables
         ((fun i => Z.of_nat (blocks_before m forward_reqs i))
            <$> seq 0 (S (length forward_reqs)))
         (concat (output_tokens <$> forward_reqs))
         ((fun i => Z.of_nat (tokens_before forward_reqs i))
            <$> seq 0 (S (length forward_reqs)))
         ((fun i => Z.of_nat (tokens_before forward_reqs i))
            <$> seq 0 (S (length forward_reqs)))
         (concat (positions_of <$> forward_reqs))
         [Z.of_nat (length forward_reqs);
          Z.of_nat (max_list (length <$> (output_tokens <$> forward_reqs)));
          Z.of_nat (length (all_blocks m forward_reqs))])).
Proof.
  intros Hbatch [Htok Hblk].
  unfold ContextDecode_tables.
  assert (Hmax : (max_batch_size_ m <? length forward_reqs)%nat = false)
    by (apply Nat.ltb_ge; exact Hbatch).
  rewrite Hmax, totals_full.
  assert (Hoffs : (fun i => SizeT.to_int
                              (Z.of_nat (blocks_before m forward_reqs i)))
                    <$> seq 0 (S (length forward_reqs))
                  = (fun i => Z.of_nat (blocks_before m forward_reqs i))
                    <$> seq 0 (S (length forward_reqs))).
  { apply list_fmap_ext. intros _ i _.
    apply SizeTFacts.to_int_small.
    pose proof (blocks_before_le m forward_reqs i). lia. }
  rewrite Hoffs.
  set (st0 := MkInputState 0 (replicate (length forward_reqs + 1) 0%Z)
                (replicate (length forward_reqs + 1) 0%Z) 0 []).
  destruct (context_input_loop_spec forward_reqs 0 st0)
    as (Hids & Hmx & Hlen & Hkeep & Hnew);
    [simpl; rewrite length_replicate; lia|simpl; lia|simpl; lia|simpl; lia|].
  pose proof (context_input_loop_int32 forward_reqs 0 st0 eq_refl) as H32.
  unfold context_inputs. fold st0.
  rewrite H32 by (simpl; lia).
  assert (H64 : input_offset_list_uint64 (context_input_loop 0 forward_reqs st0)
                = (fun i => Z.of_nat (tokens_before forward_reqs i))
                    <$> seq 0 (S (length forward_reqs))).
  { apply list_eq. intros i.
    destruct (decide (i <= length forward_reqs)%nat) as [Hi|Hi].
    - rewrite list_lookup_fmap, lookup_seq_lt by lia. simpl.
      destruct i as [|i].
      + rewrite Hkeep by lia. simpl. rewrite lookup_replicate_2 by lia.
        reflexivity.
      + specialize (Hnew (S i)). simpl in Hnew. rewrite Hnew by lia.
        reflexivity.
    - rewrite lookup_ge_None_2 by lia.
      rewrite lookup_ge_None_2; [reflexivity|].
      rewrite length_fmap, length_seq. lia. }
  rewrite H64, Hids, Hmx. cbn [ids_cpu max_tokens st0 app].
  rewrite context_rotary_pos_spec by exact Htok.
  unfold forward_shape.
  rewrite last_lookup, length_fmap, length_seq. cbn [pred].
  rewrite list_lookup_fmap, lookup_seq_lt by lia. cbn [fmap option_fmap option_map mbind option_bind Nat.add].
  rewrite blocks_before_all.
  rewrite Z.max_r by lia.
  assert (Hml : (Z.of_nat (max_list (length <$> (output_tokens <$> forward_reqs)))
                 <= Z.of_nat (tokens_before forward_reqs (length forward_reqs)))%Z).
  { rewrite tokens_before_all, length_concat_sum.
    apply inj_le. apply max_list_le_sum. }
  rewrite blocks_before_all in Hblk.
  rewrite !SizeTFacts.wrap_small
    by (unfold SizeT.in_range; rewrite SizeTFacts.modulus_eq; lia).
  reflexivity.
Qed.

(** X2: the two offset lists of ContextDecode hold the same numbers, the
    start of every request in [input_ids] followed by the total: entry [i]
    is the number of tokens before request [i], and the tokens of request
    [i] are the entries [offset[i] .. offset[i+1])] of [input_ids]. *)
Theorem context_input_offsets m forward_reqs :
  (length forward_reqs <= max_batch_size_ m)%nat ->
  int_sized m forward_reqs ->
  exists t,
    ContextDecode_tables m forward_reqs = Some (Returned t) /\
    c_input_ids_cpu t = context_input_ids forward_reqs /\
    c_input_offset_list_int32 t = c_input_offset_list_uint64 t /\
    length (c_input_offset_list_uint64 t) = S (length forward_reqs) /\
    (forall i, (i <= length forward_reqs)%nat ->
       c_input_offset_list_uint64 t !! i
         = Some (Z.of_nat (tokens_before forward_reqs i))) /\
    last (c_input_offset_list_uint64 t)
      = Some (Z.of_nat (length (c_input_ids_cpu t))) /\
    (forall i r, forward_reqs !! i = Some r ->
       tokens_before forward_reqs (S i)
         = (tokens_before forward_reqs i + length (output_tokens r))%nat /\
       take (length (output_tokens r))
            (drop (tokens_before forward_reqs i) (c_input_ids_cpu t))
         = output_tokens r).
Proof.
  intros Hbatch Hsized. eexists.
  split; [apply ContextDecode_tables_spec; assumption|].
  cbn [c_input_ids_cpu c_input_offset_list_int32 c_input_offset_list_uint64].
  assert (Hentry : forall i, (i <= length forward_reqs)%nat ->
            ((fun i => Z.of_nat (tokens_before forward_reqs i))
               <$> seq 0 (S (length forward_reqs))) !! i
            = Some (Z.of_nat (tokens_before forward_reqs i))).
  { intros i Hi. now rewrite list_lookup_fmap, lookup_seq_lt by lia. }
  split_and!.
  - now rewrite LlamaFacts.context_input_ids_concat.
  - reflexivity.
  - now rewrite length_fmap, length_seq.
  - exact Hentry.
  - rewrite last_lookup, length_fmap, length_seq. simpl.
    rewrite Hentry by lia. now rewrite tokens_before_all.
  - intros i r Hi. split.
    + unfold tokens_before.
      rewrite (take_S_r _ _ _ Hi), fmap_app, concat_app, length_app.
      simpl. now rewrite app_nil_r.
    + unfold tokens_before. rewrite fmap_take.
      apply concat_segment. now rewrite list_lookup_fmap, Hi.
Qed.

Lemma int_sized_example : int_sized Examples.llama Examples.batch.
Proof. split; vm_compute; reflexivity. Defined.

Lemma context_input_offsets_witness :
  exists t,
    ContextDecode_tables Examples.llama Examples.batch = Some (Returned t) /\
    c_input_offset_list_uint64 t !! 1%nat = Some 3%Z /\
    take 2 (drop 3 (c_input_ids_cpu t)) = [4; 5]%Z.
Proof.
  destruct (context_input_offsets Examples.llama Examples.batch)
    as (t & Hrun & _ & _ & _ & Hoff & _ & Hseg).
  - vm_compute. lia.
  - exact int_sized_example.
  - exists t. split; [exact Hrun|]. split.
    + exact (Hoff 1%nat ltac:(vm_compute; lia)).
    + exact (proj2 (Hseg 1%nat _ eq_refl)).
Defined.

(** X3: the rotary positions of ContextDecode restart at 0 for every
    request: there is one position per entry of [input_ids], and the entry
    at [offset[i] + k], which is token [k] of request [i], has position
    [k]. *)
Theorem context_rotary_positions m forward_reqs :
  (length forward_reqs <= max_batch_size_ m)%nat ->
  int_sized m forward_reqs ->
  exists t,
    ContextDecode_tables m forward_reqs = Some (Returned t) /\
    length (c_cpu_rotary_pos t) = length (c_input_ids_cpu t) /\
    (forall i r k, forward_reqs !! i = Some r ->
       (k < length (output_tokens r))%nat ->
       c_cpu_rotary_pos t !! (tokens_before forward_reqs i + k)%nat
         = Some (Z.of_nat k) /\
       c_input_ids_cpu t !! (tokens_before forward_reqs i + k)%nat
         = output_tokens r !! k).
Proof.
  intros Hbatch Hsized. eexists.
  split; [apply ContextDecode_tables_spec; assumption|].
  cbn [c_input_ids_cpu c_cpu_rotary_pos].
  split; [apply length_concat_positions|].
  intros i r k Hi Hk. split.
  - assert (Hb : tokens_before forward_reqs i
                 = length (concat (take i (positions_of <$> forward_reqs)))).
    { unfold tokens_before.
      now rewrite <- fmap_take, length_concat_positions. }
    rewrite Hb.
    rewrite (concat_segment_lookup _ i (positions_of r));
      [|now rewrite list_lookup_fmap, Hi|now rewrite length_positions_of].
    unfold positions_of. now rewrite list_lookup_fmap, lookup_seq_lt by lia.
  - unfold tokens_before. rewrite fmap_take.
    apply concat_segment_lookup; [|exact Hk].
    now rewrite list_lookup_fmap, Hi.
Qed.

Lemma context_rotary_positions_witness :
  exists t,
    ContextDecode_tables Examples.llama Examples.batch = Some (Returned t) /\
    c_cpu_rotary_pos t = [0; 1; 2; 0; 1]%Z /\
    c_cpu_rotary_pos t !! 4%nat = Some 1%Z.
Proof.
  destruct (context_rotary_positions Examples.llama Examples.batch)
    as (t & Hrun & _ & Hpos).
  - vm_compute. lia.
  - exact int_sized_example.
  - exists t. split; [exact Hrun|]. split.
    + vm_compute in Hrun. injection Hrun as <-. reflexivity.
    + exact (proj1 (Hpos 1%nat _ 1%nat eq_refl ltac:(vm_compute; lia))).
Defined.

(** X4: [forward_shape] of ContextDecode is
    [[batch_size, max_tokens, total_block_num]], where [max_tokens] is the
    largest token count of a request of the batch (0 for the empty
    batch): no request has more tokens, and some request has exactly that
    many. *)
Theorem context_forward_shape m forward_reqs :
  (length forward_reqs <= max_batch_size_ m)%nat ->
  int_sized m forward_reqs ->
  exists t max_tokens,
    ContextDecode_tables m forward_reqs = Some (Returned t) /\
    c_forward_shape t
      = [Z.of_nat (length forward_reqs); Z.of_nat max_tokens;
         Z.of_nat (length (all_blocks m forward_reqs))] /\
    Forall (fun r => (length (output_tokens r) <= max_tokens)%nat)
           forward_reqs /\
    (forward_reqs = [] -> max_tokens = 0%nat) /\
    (forward_reqs <> [] ->
     Exists (fun r => length (output_tokens r) = max_tokens) forward_reqs).
Proof.
  intros Hbatch Hsized.
  exists (MkContextTables
            ((fun i => Z.of_nat (blocks_before m forward_reqs i))
               <$> seq 0 (S (length forward_reqs)))
            (concat (output_tokens <$> forward_reqs))
            ((fun i => Z.of_nat (tokens_before forward_reqs i))
               <$> seq 0 (S (length forward_reqs)))
            ((fun i => Z.of_nat (tokens_before forward_reqs i))
               <$> seq 0 (S (length forward_reqs)))
            (concat (positions_of <$> forward_reqs))
            [Z.of_nat (length forward_reqs);
             Z.of_nat (max_list (length <$> (output_tokens <$> forward_reqs)));
             Z.of_nat (length (all_blocks m forward_reqs))]),
         (max_list (length <$> (output_tokens <$> forward_reqs))).
  split; [apply ContextDecode_tables_spec; assumption|].
  split; [reflexivity|].
  split_and!.
  - apply Forall_forall. intros r Hr.
    apply max_list_elem_of_le.
    apply list_elem_of_fmap. exists (output_tokens r). split; [reflexivity|].
    apply list_elem_of_fmap. eauto.
  - intros ->. reflexivity.
  - intros Hne.
    assert (Hin : max_list (length <$> (output_tokens <$> forward_reqs))
                  ∈ (length <$> (output_tokens <$> forward_reqs))).
    { apply max_list_elem_of. destruct forward_reqs; [contradiction|discriminate]. }
    apply list_elem_of_fmap in Hin as (toks & Hlen & Hin).
    apply list_elem_of_fmap in Hin as (r & -> & Hin).
    apply Exists_exists. exists r. split; [exact Hin|now symmetry].
Qed.

Lemma context_forward_shape_witness :
  exists t,
    ContextDecode_tables Examples.llama Examples.batch = Some (Returned t) /\
    c_forward_shape t = [2; 3; 3]%Z.
Proof.
  destruct (context_forward_shape Examples.llama Examples.batch)
    as (t & mx & Hrun & Hshape & _).
  - vm_compute. lia.
  - exact int_sized_example.
  - exists t. split; [exact Hrun|].
    vm_compute in Hrun. injection Hrun as <-. reflexivity.
Defined.

(** *** The loops of Decode *)

Lemma insert_after_done {A} (done_ : list A) (x y : A) (rest : list A) idx :
  length done_ = idx ->
  <[idx := x]> (done_ ++ y :: rest) = (done_ ++ [x]) ++ rest.
Proof.
  intros <-. rewrite insert_app_r_alt by lia.
  rewrite Nat.sub_diag, <- app_assoc. reflexivity.
Qed.

(** The loop from request [idx] on: the entries already written stay, and
    each request adds its last token, its token count and the next
    offset. *)
Lemma decode_input_loop_spec forward_reqs :
  forall idx st off32 off64 toks ids,
  Forall has_token forward_reqs ->
  d_input_offset_list_int32 st = off32 ++ replicate (length forward_reqs) 0%Z ->
  d_input_offset_list_uint64 st = off64 ++ replicate (length forward_reqs) 0%Z ->
  d_input_tokens_list_int32 st = toks ++ replicate (length forward_reqs) 0%Z ->
  d_ids_cpu st = ids ++ replicate (length forward_reqs) 0%Z ->
  length off32 = S idx -> length off64 = S idx ->
  length toks = idx -> length ids = idx ->
  (0 <= d_input_offset st)%Z -> (0 <= d_max_tokens st)%Z ->
  (d_input_offset st + Z.of_nat (length forward_reqs) < 2 ^ 31)%Z ->
  Forall (fun r => (Z.of_nat (length (output_tokens r)) < 2 ^ 31)%Z)
         forward_reqs ->
  exists lasts,
    Forall2 (fun r t => last (output_tokens r) = Some t) forward_reqs lasts /\
    decode_input_loop idx forward_reqs st
    = Returned
        (MkDecodeState
           (d_input_offset st + Z.of_nat (length forward_reqs))
           (off32 ++ ((fun i => d_input_offset st + Z.of_nat i)%Z
                      <$> seq 1 (length forward_reqs)))
           (toks ++ ((fun r => Z.of_nat (length (output_tokens r)))
                     <$> forward_reqs))
           (off64 ++ ((fun i => d_input_offset st + Z.of_nat i)%Z
                      <$> seq 1 (length forward_reqs)))
           (Z.max (d_max_tokens st)
                  (Z.of_nat (max_list (length <$> (output_tokens <$> forward_reqs)))))
           (ids ++ lasts)).
Proof.
  induction forward_reqs as [|r rest IH];
    intros idx st off32 off64 toks ids Hall H32 H64 Htok Hids
           L32 L64 Ltok Lids Hoff Hmx Hfit Hlens.
  - exists []. split; [constructor|].
    destruct st; simpl in *; subst.
    rewrite !app_nil_r, Z.add_0_r, Z.max_l by lia. reflexivity.
  - apply Forall_cons in Hall as [[Hne Hr] Hall].
    apply Forall_cons in Hlens as [Hlen Hlens].
    cbn [length replicate] in *.
    cbn [decode_input_loop]. unfold decode_input_step.
    rewrite (LlamaFacts.at_last_last _ Hr Hne).
    destruct (last (output_tokens r)) as [t|] eqn:Hlast.
    2:{ apply last_None in Hlast. contradiction. }
    assert (Hw : SizeT.wrap (d_input_offset st + 1) = (d_input_offset st + 1)%Z).
    { apply SizeTFacts.wrap_small. unfold SizeT.in_range.
      rewrite SizeTFacts.modulus_eq. lia. }
    rewrite Hw, H32, H64, Htok, Hids.
    rewrite !SizeTFacts.to_int_small by lia.
    rewrite (insert_after_done off32 _ _ _ (S idx) L32).
    rewrite (insert_after_done off64 _ _ _ (S idx) L64).
    rewrite (insert_after_done toks _ _ _ idx Ltok).
    rewrite (insert_after_done ids _ _ _ idx Lids).
    match goal with
    | |- context [decode_input_loop _ _ ?s] =>
        destruct (IH (S idx) s _ _ _ _ Hall eq_refl eq_refl eq_refl eq_refl)
          as (lasts & Hlasts & ->)
    end.
    all: try (rewrite length_app; simpl; lia).
    all: cbn [d_input_offset d_max_tokens]; try lia; try assumption.
    exists (t :: lasts). split; [constructor; assumption|].
    cbn [d_input_offset d_max_tokens].
    f_equal. f_equal.
    + lia.
    + rewrite <- app_assoc. f_equal. cbn [seq fmap list_fmap app].
      f_equal; try lia.
      rewrite <- (fmap_S_seq 1), <- list_fmap_compose.
      apply list_fmap_ext. intros _ i _. simpl. lia.
    + rewrite <- app_assoc. reflexivity.
    + rewrite <- app_assoc. f_equal. cbn [seq fmap list_fmap app].
      f_equal; try lia.
      rewrite <- (fmap_S_seq 1), <- list_fmap_compose.
      apply list_fmap_ext. intros _ i _. simpl. lia.
    + rewrite !fmap_cons. simpl max_list. lia.
    + rewrite <- app_assoc. reflexivity.
Qed.

Lemma decode_rotary_loop_spec forward_reqs : forall done_,
  Forall has_token forward_reqs ->
  Forall (fun r => (Z.of_nat (length (output_tokens r)) < 2 ^ 31)%Z)
         forward_reqs ->
  decode_rotary_loop (length done_) forward_reqs
    (done_ ++ replicate (length forward_reqs) 0%Z)
  = done_ ++ ((fun r => Z.of_nat (length (output_tokens r)) - 1)%Z
              <$> forward_reqs).
Proof.
  induction forward_reqs as [|r rest IH]; intros done_ Hall Hlens.
  - reflexivity.
  - apply Forall_cons in Hall as [[Hne Hr] Hall].
    apply Forall_cons in Hlens as [Hlen Hlens].
    cbn [decode_rotary_loop length replicate].
    rewrite (insert_after_done done_ _ _ _ (length done_) eq_refl).
    replace (S (length done_)) with (length (done_ ++
      [to_int64 (SizeT.wrap (Z.of_nat (length (output_tokens r)) - 1))]))
      by (rewrite length_app; simpl; lia).
    rewrite IH by assumption.
    rewrite <- app_assoc, fmap_cons. simpl. do 2 f_equal.
    assert (0 < Z.of_nat (length (output_tokens r)))%Z
      by (destruct (output_tokens r); [contradiction|simpl; lia]).
    rewrite SizeTFacts.wrap_small
      by (unfold SizeT.in_range; rewrite SizeTFacts.modulus_eq; lia).
    apply to_int64_small. lia.
Qed.

Lemma token_counts_int_sized m forward_reqs :
  int_sized m forward_reqs ->
  Forall (fun r => (Z.of_nat (length (output_tokens r)) < 2 ^ 31)%Z)
         forward_reqs.
Proof.
  intros [Htok _]. apply Forall_forall. intros r Hr.
  rewrite tokens_before_all, length_concat_sum in Htok.
  assert (length (output_tokens r)
          <= sum_list (length <$> (output_tokens <$> forward_reqs)))%nat.
  { etransitivity; [|apply max_list_le_sum].
    apply max_list_elem_of_le.
    apply list_elem_of_fmap. exists (output_tokens r). split; [reflexivity|].
    apply list_elem_of_fmap. eauto. }
  lia.
Qed.

(** X5: for a batch in which every request has a token, Decode uploads one
    entry per request: [input_ids] holds the last token of each request,
    [input_tokens] its token count, the rotary position is the index of
    that last token ([size - 1]), and both offset lists are
    [0, 1, ..., batch_size]; [forward_shape] is
    [[batch_size, largest token count, total_block_num]]. *)
Theorem decode_tables_one_entry_per_request m forward_reqs :
  (length forward_reqs <= max_batch_size_ m)%nat ->
  int_sized m forward_reqs ->
  (Z.of_nat (length forward_reqs) < 2 ^ 31)%Z ->
  Forall has_token forward_reqs ->
  exists t,
    Decode_tables m forward_reqs = Some (Returned t) /\
    Forall2 (fun r tok => last (output_tokens r) = Some tok)
            forward_reqs (t_input_ids_cpu t) /\
    t_input_tokens_list_int32 t
      = (fun r => Z.of_nat (length (output_tokens r))) <$> forward_reqs /\
    t_cpu_rotary_pos t
      = (fun r => Z.of_nat (length (output_tokens r)) - 1)%Z <$> forward_reqs /\
    t_input_offset_list_int32 t
      = Z.of_nat <$> seq 0 (S (length forward_reqs)) /\
    t_input_offset_list_uint64 t
      = Z.of_nat <$> seq 0 (S (length forward_reqs)) /\
    t_forward_shape t
      = [Z.of_nat (length forward_reqs);
         Z.of_nat (max_list (length <$> (output_tokens <$> forward_reqs)));
         Z.of_nat (length (all_blocks m forward_reqs))].
Proof.
  intros Hbatch Hsized Hn Hall.
  pose proof (token_counts_int_sized m forward_reqs Hsized) as Hlens.
  destruct Hsized as [Htok Hblk].
  assert (Hmax : (max_batch_size_ m <? length forward_reqs)%nat = false)
    by (apply Nat.ltb_ge; exact Hbatch).
  destruct (decode_input_loop_spec forward_reqs 0
              (MkDecodeState 0 (replicate (length forward_reqs + 1) 0%Z)
                 (replicate (length forward_reqs) 0%Z)
                 (replicate (length forward_reqs + 1) 0%Z) 0
                 (replicate (length forward_reqs) 0%Z))
              [0%Z] [0%Z] [] [] Hall)
    as (lasts & Hlasts & Hrun); cbn; try reflexivity; try lia; try assumption.
  1,2: rewrite Nat.add_1_r; reflexivity.
  eexists. split.
  - unfold Decode_tables, decode_inputs. rewrite Hmax, totals_full, Hrun.
    unfold forward_shape.
    rewrite last_lookup, length_fmap, length_seq. cbn [pred].
    rewrite list_lookup_fmap, lookup_seq_lt by lia.
    cbn [fmap option_fmap option_map mbind option_bind Nat.add].
    reflexivity.
  - cbn [t_input_ids_cpu t_input_tokens_list_int32 t_cpu_rotary_pos
           t_input_offset_list_int32 t_input_offset_list_uint64
           t_forward_shape d_ids_cpu d_input_tokens_list_int32
           d_input_offset_list_int32 d_input_offset_list_uint64
           d_max_tokens app].
    assert (Hseq : (0%Z :: ((fun i => (0 + Z.of_nat i)%Z)
                            <$> seq 1 (length forward_reqs)))
                   = Z.of_nat <$> seq 0 (S (length forward_reqs))).
    { cbn [seq fmap list_fmap]. f_equal. }
    split_and!.
    + exact Hlasts.
    + reflexivity.
    + exact (decode_rotary_loop_spec forward_reqs [] Hall Hlens).
    + exact Hseq.
    + exact Hseq.
    + rewrite blocks_before_all in *.
      assert (Hml : (Z.of_nat (max_list (length <$> (output_tokens <$> forward_reqs)))
                     <= Z.of_nat (tokens_before forward_reqs (length forward_reqs)))%Z).
      { rewrite tokens_before_all, length_concat_sum.
        apply inj_le. apply max_list_le_sum. }
      rewrite Z.max_r by lia.
      rewrite SizeTFacts.to_int_small by lia.
      rewrite !SizeTFacts.wrap_small
        by (unfold SizeT.in_range; rewrite SizeTFacts.modulus_eq; lia).
      reflexivity.
Qed.

Lemma decode_tables_one_entry_per_request_witness :
  exists t,
    Decode_tables Examples.llama Examples.batch = Some (Returned t) /\
    t_input_ids_cpu t = [3; 5]%Z /\
    t_cpu_rotary_pos t = [2; 1]%Z /\
    t_input_offset_list_int32 t = [0; 1; 2]%Z.
Proof.
  destruct (decode_tables_one_entry_per_request Examples.llama Examples.batch)
    as (t & Hrun & _ & _ & Hpos & Hoff & _).
  - vm_compute. lia.
  - exact int_sized_example.
  - vm_compute. reflexivity.
  - repeat constructor; try discriminate; vm_compute; congruence.
  - exists t. split; [exact Hrun|]. split_and!.
    + vm_compute in Hrun. injection Hrun as <-. reflexivity.
    + exact Hpos.
    + exact Hoff.
Defined.

(** *** Requests without tokens *)

Lemma at_last_nil : at_last [] = None.
Proof. reflexivity. Qed.

Lemma decode_input_ids_outcome forward_reqs : forall idx l,
  Forall (fun r => SizeT.in_range (Z.of_nat (length (output_tokens r))))
         forward_reqs ->
  (Exists (fun r => output_tokens r = []) forward_reqs ->
   decode_input_ids idx forward_reqs l = Thrown "vector::_M_range_check") /\
  (Forall (fun r => output_tokens r <> []) forward_reqs ->
   exists ids, decode_input_ids idx forward_reqs l = Returned ids).
Proof.
  induction forward_reqs as [|r rest IH]; intros idx l Hr.
  - split; [intros H; inversion H|intros _; simpl; eauto].
  - apply Forall_cons in Hr as [Hr Hrest]. simpl.
    destruct (output_tokens r) as [|t ts] eqn:Htoks.
    + rewrite at_last_nil. split; [reflexivity|].
      intros H. apply Forall_cons in H as [H _]. contradiction.
    + rewrite LlamaFacts.at_last_last by (assumption || discriminate).
      destruct (last (t :: ts)) as [x|] eqn:Hlast;
        [|apply last_None in Hlast; discriminate].
      destruct (IH (S idx) (<[idx := x]> l) Hrest) as [Hthrow Hret].
      split.
      * intros H. apply Exists_cons in H as [H|H]; [congruence|auto].
      * intros H. apply Forall_cons in H as [_ H]. auto.
Qed.

(** X6: a request without tokens is harmless to ContextDecode, which
    returns its tables for every batch within [max_batch_size_], and fatal
    to Decode: Decode throws the range error of [at] exactly when some
    request of the batch has no token, and returns its tables exactly when
    every request has one. *)
Theorem decode_throws_without_token m forward_reqs :
  (length forward_reqs <= max_batch_size_ m)%nat ->
  Forall (fun r => SizeT.in_range (Z.of_nat (length (output_tokens r))))
         forward_reqs ->
  (exists t, ContextDecode m forward_reqs = Returned t) /\
  (Exists (fun r => output_tokens r = []) forward_reqs <->
   Decode m forward_reqs = Thrown "vector::_M_range_check") /\
  (Forall (fun r => output_tokens r <> []) forward_reqs <->
   exists t, Decode m forward_reqs = Returned t).
Proof.
  intros Hbatch Hr.
  assert (Hmax : (max_batch_size_ m <? length forward_reqs)%nat = false)
    by (apply Nat.ltb_ge; exact Hbatch).
  destruct (decode_input_ids_outcome forward_reqs 0
              (replicate (length forward_reqs) 0%Z) Hr) as [Hthrow Hret].
  assert (Hcases : Exists (fun r => output_tokens r = []) forward_reqs \/
                   Forall (fun r => output_tokens r <> []) forward_reqs).
  { destruct (decide (Exists (fun r => output_tokens r = []) forward_reqs))
      as [H|H]; [left; exact H|right].
    now apply not_Exists_Forall in H; [|intros r; apply _]. }
  unfold ContextDecode, Decode. rewrite Hmax.
  destruct (totals m forward_reqs) as [[a b] offs].
  split_and!.
  - eauto.
  - split.
    + intros H. now rewrite (Hthrow H).
    + intros H. destruct Hcases as [Hc|Hc]; [exact Hc|].
      destruct (Hret Hc) as [ids Hids]. rewrite Hids in H. discriminate.
  - split.
    + intros H. destruct (Hret H) as [ids ->]. eauto.
    + intros [t H]. destruct Hcases as [Hc|Hc]; [|exact Hc].
      rewrite (Hthrow Hc) in H. discriminate.
Qed.

Lemma decode_throws_without_token_witness :
  Decode Examples.llama
    [MkForwardRequest [1; 2]%Z [[4096%Z]]; MkForwardRequest [] [[]]]
  = Thrown "vector::_M_range_check".
Proof.
  apply (proj1 (proj2 (decode_throws_without_token Examples.llama
           [MkForwardRequest [1; 2]%Z [[4096%Z]]; MkForwardRequest [] [[]]]
           ltac:(vm_compute; lia)
           ltac:(repeat constructor; vm_compute; congruence)))).
  apply Exists_cons. right. apply Exists_cons. left. reflexivity.
Defined.

(** *** The layout inside a block *)

Lemma div_add_ge a b n :
  (0 < n)%Z -> (a / n + b / n <= (a + b) / n)%Z.
Proof.
  intros Hn. apply Z.div_le_lower_bound; [exact Hn|].
  pose proof (Z.mul_div_le a n Hn). pose proof (Z.mul_div_le b n Hn). lia.
Qed.

(** X7: the regions of the layers inside one block.  With
    [per_layer = block_size / num_layer], layer [L] owns the bytes from its K
    offset to K offset + [per_layer]: the V offset is the K offset plus
    [per_layer / 2], the region of a layer ends where that of the next one
    begins or before, and the region of the last layer ends inside the
    block.  So every K and V address in [kv_list] lies inside its block,
    and regions of different layers do not overlap. *)
Theorem kv_regions_within_block m forward_reqs t L j p :
  ContextDecode m forward_reqs = Returned t \/
  Decode m forward_reqs = Returned t ->
  (0 <= block_size_ m)%Z ->
  (Z.of_nat (num_layer_ m) * block_size_ m < SizeT.modulus)%Z ->
  (L < num_layer_ m)%nat ->
  all_blocks m forward_reqs !! j = Some p ->
  exists k v,
    cpu_kv_list t !! (L * (length (all_blocks m forward_reqs) * 2) + j)%nat
      = Some k /\
    cpu_kv_list t !! (L * (length (all_blocks m forward_reqs) * 2)
                      + length (all_blocks m forward_reqs) + j)%nat
      = Some v /\
    k = (p + k_offset m L)%Z /\
    v = (k + per_layer m / 2)%Z /\
    (p <= k <= v)%Z /\
    (k + per_layer m <= p + block_size_ m)%Z /\
    ((S L < num_layer_ m)%nat ->
     (k + per_layer m <= p + k_offset m (S L))%Z).
Proof.
  intros Ht Hbs Hfit HL Hj.
  destruct (LlamaFacts.tables_kv_list m forward_reqs t Ht) as [_ Hkv].
  destruct (LlamaFacts.offsets_no_wrap m L Hbs Hfit HL) as [Hk Hv].
  pose proof (lookup_lt_Some _ _ _ Hj) as Hlt.
  assert (Hn : (0 < Z.of_nat (num_layer_ m))%Z) by lia.
  exists (p + k_offset m L)%Z, (p + v_offset m L)%Z.
  rewrite Hkv, LlamaFacts.build_kv_list_rows.
  assert (Hper : (0 <= per_layer m)%Z)
    by (unfold per_layer; apply Z.div_pos; lia).
  assert (Hhalf : (0 <= per_layer m / 2 <= per_layer m)%Z).
  { split; [apply Z.div_pos; lia|].
    apply Z.div_le_upper_bound; lia. }
  assert (Hk0 : (0 <= k_offset m L)%Z)
    by (rewrite Hk; apply Z.div_pos; lia).
  assert (Hnext : (k_offset m L + per_layer m
                   <= (Z.of_nat (S L) * block_size_ m) / Z.of_nat (num_layer_ m))%Z).
  { rewrite Hk. unfold per_layer.
    etransitivity; [apply div_add_ge; exact Hn|].
    apply Z.div_le_mono; [exact Hn|]. lia. }
  assert (Hvk : v_offset m L = (k_offset m L + per_layer m / 2)%Z)
    by (rewrite Hv, Hk; reflexivity).
  split_and!.
  - rewrite LlamaFacts.lookup_rows by lia. simpl. unfold layer_row.
    rewrite lookup_app_l by (rewrite length_fmap; lia).
    now rewrite list_lookup_fmap, Hj.
  - rewrite <- Nat.add_assoc, LlamaFacts.lookup_rows by lia. simpl.
    unfold layer_row.
    rewrite lookup_app_r by (rewrite length_fmap; lia).
    rewrite length_fmap.
    replace (length (all_blocks m forward_reqs) + j
             - length (all_blocks m forward_reqs))%nat with j by lia.
    now rewrite list_lookup_fmap, Hj.
  - reflexivity.
  - rewrite Hvk. lia.
  - lia.
  - rewrite Hvk. lia.
  - assert ((Z.of_nat (S L) * block_size_ m) / Z.of_nat (num_layer_ m)
            <= block_size_ m)%Z.
    { apply Z.div_le_upper_bound; [exact Hn|]. nia. }
    lia.
  - intros HSL.
    destruct (LlamaFacts.offsets_no_wrap m (S L) Hbs Hfit HSL) as [Hk' _].
    rewrite Hk'. lia.
Qed.

Lemma kv_regions_within_block_witness :
  exists t k v,
    Decode Examples.llama Examples.batch = Returned t /\
    cpu_kv_list t !! 7%nat = Some k /\ cpu_kv_list t !! 10%nat = Some v /\
    (8192 <= k <= v)%Z /\ (k + 512 <= 8192 + 1024)%Z.
Proof.
  destruct (Decode Examples.llama Examples.batch) as [t| |] eqn:E;
    [|vm_compute in E; discriminate|vm_compute in E; discriminate].
  destruct (kv_regions_within_block Examples.llama Examples.batch t 1 1 8192%Z)
    as (k & v & Hk & Hv & _ & _ & Hord & Hend & _).
  - right. exact E.
  - vm_compute. discriminate.
  - vm_compute. reflexivity.
  - vm_compute. lia.
  - reflexivity.
  - exists t, k, v. split; [reflexivity|]. split; [exact Hk|].
    split; [exact Hv|]. split; [exact Hord|exact Hend].
Defined.

End LlamaTablesFacts.

(** ** BlockManager: wrappers, error paths and SwapIn *)

Module BlockManagerOpsFacts.
Import BlockManager BlockManagerOps.

Lemma GetDeviceAllocator_valid bm a :
  device_allocators_ bm !! GetDeviceId bm = Some a ->
  GetDeviceAllocator bm = Returned a.
Proof.
  intros H. unfold GetDeviceAllocator, NLLM_CHECK_WITH_INFO.
  pose proof (lookup_lt_Some _ _ _ H) as Hlt.
  destruct (Nat.ltb_spec (GetDeviceId bm) (length (device_allocators_ bm)));
    [|lia].
  now rewrite H.
Qed.

Lemma GetDeviceAllocator_invalid bm :
  (length (device_allocators_ bm) <= GetDeviceId bm)%nat ->
  GetDeviceAllocator bm
  = Thrown ("Invalid device id " +:+ pretty (GetDeviceId bm)).
Proof.
  intros H. unfold GetDeviceAllocator, NLLM_CHECK_WITH_INFO.
  destruct (Nat.ltb_spec (GetDeviceId bm) (length (device_allocators_ bm)));
    [lia|reflexivity].
Qed.

(** X8: the device-side operations of the block manager go through
    [GetDeviceAllocator].  With a current device outside
    [device_allocators_] each of them throws "Invalid device id <n>" and
    changes nothing; with a valid one, [AllocateBlocks] and [FreeBlocks]
    change the allocator of the current device only: the host allocator
    and the allocators of the other devices are as before. *)
Theorem device_operations_check_and_frame bm block_num blocks addrs :
  ((length (device_allocators_ bm) <= GetDeviceId bm)%nat ->
   AllocateBlocks bm block_num blocks
     = Thrown ("Invalid device id " +:+ pretty (GetDeviceId bm)) /\
   FreeBlocks bm blocks
     = Thrown ("Invalid device id " +:+ pretty (GetDeviceId bm)) /\
   GetBlockPtrs bm blocks addrs
     = Thrown ("Invalid device id " +:+ pretty (GetDeviceId bm))) /\
  (forall a, device_allocators_ bm !! GetDeviceId bm = Some a ->
   exists st1 blocks1 bm1 st2 bm2,
     AllocateBlocks bm block_num blocks = Returned (st1, blocks1, bm1) /\
     FreeBlocks bm blocks = Returned (st2, bm2) /\
     GetBlockPtrs bm blocks addrs
       = Returned (BlockManager.GetBlockPtrs blocks addrs a) /\
     host_allocator_ bm1 = host_allocator_ bm /\
     host_allocator_ bm2 = host_allocator_ bm /\
     device_allocators_ bm1 !! GetDeviceId bm
       = Some (BlockManager.AllocateBlocks block_num blocks a).2 /\
     device_allocators_ bm2 !! GetDeviceId bm
       = Some (BlockManager.FreeBlocks blocks a).2 /\
     (forall j, j <> GetDeviceId bm ->
        device_allocators_ bm1 !! j = device_allocators_ bm !! j /\
        device_allocators_ bm2 !! j = device_allocators_ bm !! j)).
Proof.
  split.
  - intros H. unfold AllocateBlocks, FreeBlocks, GetBlockPtrs.
    rewrite (GetDeviceAllocator_invalid bm H). auto.
  - intros a Ha. unfold AllocateBlocks, FreeBlocks, GetBlockPtrs.
    rewrite (GetDeviceAllocator_valid bm a Ha).
    pose proof (lookup_lt_Some _ _ _ Ha) as Hlt.
    destruct (BlockManager.AllocateBlocks block_num blocks a)
      as [[st1 blocks1] a1] eqn:E1.
    destruct (BlockManager.FreeBlocks blocks a) as [st2 a2] eqn:E2.
    eexists _, _, _, _, _.
    split; [reflexivity|]. split; [reflexivity|]. split; [reflexivity|].
    cbn [host_allocator_ device_allocators_ set_device_allocator snd].
    split_and!; try reflexivity.
    + now apply list_lookup_insert_eq.
    + now apply list_lookup_insert_eq.
    + intros j Hj. split; apply list_lookup_insert_ne; congruence.
Qed.

Lemma device_operations_check_and_frame_witness :
  AllocateBlocks (MkBlockManager Examples.block_config Examples.host_pool
                    [Examples.device_pool] true 3 []) 1 []
  = Thrown "Invalid device id 3".
Proof.
  apply (proj1 (device_operations_check_and_frame
                  (MkBlockManager Examples.block_config Examples.host_pool
                     [Examples.device_pool] true 3 []) 1 [] [])).
  vm_compute. lia.
Defined.

Lemma copies_to_device_spec device_addrs host_addrs count stream :
  length device_addrs = length host_addrs ->
  length (copies_to_device device_addrs host_addrs count stream)
    = length host_addrs /\
  Forall (is_copy_to_device_on stream)
         (copies_to_device device_addrs host_addrs count stream).
Proof.
  unfold copies_to_device. intros Hlen. split.
  - rewrite length_zip_with. lia.
  - clear Hlen. revert host_addrs.
    induction device_addrs as [|d ds IH]; intros [|h hs]; simpl;
      constructor; [reflexivity|apply IH].
Qed.

Lemma GetBlockPtrs_after_set bm a a' blocks addrs :
  device_allocators_ bm !! GetDeviceId bm = Some a ->
  GetBlockPtrs (set_device_allocator bm (GetDeviceId bm) a') blocks addrs
  = Returned (BlockManager.GetBlockPtrs blocks addrs a').
Proof.
  intros Ha. unfold GetBlockPtrs.
  rewrite (GetDeviceAllocator_valid _ a'); [reflexivity|].
  cbn [device_allocators_ set_device_allocator GetDeviceId].
  apply list_lookup_insert_eq. eapply lookup_lt_Some, Ha.
Qed.

(** X9: [SwapIn] mirrors [SwapOut].  For a call for which the allocator of
    the current device has enough free blocks and the host blocks are
    tracked: in serial mode it returns success, the out-parameter holds as
    many device blocks as there are host blocks, and what it asks for is, in
    this order, the device allocation, one host-to-device copy per block on
    the compute stream of the current device, then the release of the host
    blocks; in concurrent mode it throws "... unimplemented" after the
    device allocation: no copy is issued, the host allocator is as before
    and the device blocks stay allocated. *)
Theorem SwapIn_serial_and_concurrent bm host_blocks device_blocks0
    device_allocator :
  device_allocators_ bm !! GetDeviceId bm = Some device_allocator ->
  (length host_blocks <= length (free_map device_allocator))%nat ->
  (forall id, id ∈ host_blocks ->
     is_Some (block_ptr (host_allocator_ bm) id)) ->
  exists device_blocks bm' calls,
    length device_blocks = length host_blocks /\
    (IsRunContextDecodeAndDecodeSerially bm = true ->
       SwapIn bm host_blocks device_blocks0
         = Some (Returned Status_default, device_blocks, bm', calls) /\
       exists copies,
         calls = [CallDeviceAllocate (GetDeviceId bm) device_blocks]
                   ++ copies ++ [CallHostFree host_blocks] /\
         length copies = length host_blocks /\
         Forall (is_copy_to_device_on (ComputeStream (GetDeviceId bm))) copies /\
         host_allocator_ bm'
           = (BlockManager.FreeBlocks host_blocks (host_allocator_ bm)).2) /\
    (IsRunContextDecodeAndDecodeSerially bm = false ->
       SwapIn bm host_blocks device_blocks0
         = Some (Thrown unimplemented, device_blocks, bm', calls) /\
       calls = [CallDeviceAllocate (GetDeviceId bm) device_blocks] /\
       host_allocator_ bm' = host_allocator_ bm /\
       exists a', device_allocators_ bm' !! GetDeviceId bm = Some a' /\
         free_map a' = drop (length host_blocks) (free_map device_allocator)).
Proof.
  intros Hdev Hfree Hptrs.
  set (n := length host_blocks) in *.
  set (da := MkAllocator (drop n (free_map device_allocator))
               (foldr (fun b m => <[b.1 := (b.2, 1%nat)]> m)
                      (used_map device_allocator)
                      (take n (free_map device_allocator)))).
  set (db := fst <$> take n (free_map device_allocator)).
  destruct (BlockManagerFacts.GetBlockPtrs_tracked db [] da)
    as (device_addrs & Hda & Hdl).
  { intros id Hid. unfold block_ptr.
    destruct (BlockManagerFacts.taken_blocks_used
                (take n (free_map device_allocator))
                (used_map device_allocator) id Hid) as [[addr rc] Hl].
    simpl. rewrite Hl. eauto. }
  destruct (BlockManagerFacts.GetBlockPtrs_tracked host_blocks []
              (host_allocator_ bm) Hptrs) as (host_addrs & Hha & Hhl).
  assert (Hdb : length db = n).
  { unfold db. rewrite length_fmap, length_take. lia. }
  pose proof (BlockManagerFacts.AllocateBlocks_enough n device_blocks0
                device_allocator Hfree) as Halloc.
  fold da db in Halloc.
  set (bm1 := set_device_allocator bm (GetDeviceId bm) da).
  set (copies := copies_to_device device_addrs host_addrs
                   (SizeT.wrap (SizeT.to_int
                      (cfg_block_size (device_allocator_config
                         (block_manager_config_ bm)))))
                   (ComputeStream (GetDeviceId bm))).
  destruct (copies_to_device_spec device_addrs host_addrs
              (SizeT.wrap (SizeT.to_int
                 (cfg_block_size (device_allocator_config
                    (block_manager_config_ bm)))))
              (ComputeStream (GetDeviceId bm))) as [Hcl Hcf].
  { rewrite Hdl, Hdb, Hhl. reflexivity. }
  fold copies in Hcl, Hcf.
  destruct (BlockManager.FreeBlocks host_blocks (host_allocator_ bm))
    as [fst_ host'] eqn:Hfb.
  exists db.
  exists (if IsRunContextDecodeAndDecodeSerially bm
          then set_host_allocator bm1 host' else bm1).
  exists (if IsRunContextDecodeAndDecodeSerially bm
          then [CallDeviceAllocate (GetDeviceId bm) db] ++ copies
                 ++ [CallHostFree host_blocks]
          else [CallDeviceAllocate (GetDeviceId bm) db]).
  split; [exact Hdb|].
  destruct (IsRunContextDecodeAndDecodeSerially bm) eqn:Hmode;
    split; intros Hm; try discriminate Hm.
  - split.
    + unfold SwapIn. rewrite Hdev. cbn [mbind option_bind]. fold n.
      rewrite Halloc. swap_in_step. fold bm1.
      unfold bm1 at 1. rewrite (GetBlockPtrs_after_set bm _ da db [] Hdev).
      rewrite Hda. swap_in_step. fold bm1.
      unfold bm1 at 1. swap_in_step. rewrite Hha. swap_in_step.
      unfold bm1 at 1 2. swap_in_step. rewrite ?Hmode. cbn [negb].
      cbn beta iota zeta. unfold bm1 at 1. swap_in_step.
      rewrite Hfb. rewrite <- app_assoc. exact eq_refl.
    + exists copies. split_and!; try exact eq_refl.
      * rewrite Hcl. exact Hhl.
      * exact Hcf.
  - split.
    + unfold SwapIn. rewrite Hdev. cbn [mbind option_bind]. fold n.
      rewrite Halloc. swap_in_step. fold bm1.
      unfold bm1 at 1. rewrite (GetBlockPtrs_after_set bm _ da db [] Hdev).
      rewrite Hda. swap_in_step. fold bm1.
      unfold bm1 at 1. swap_in_step. rewrite Hha. swap_in_step.
      unfold bm1 at 1. swap_in_step. rewrite ?Hmode. exact eq_refl.
    + split_and!; try exact eq_refl.
      exists da. split; [|exact eq_refl].
      unfold bm1. cbn [device_allocators_ set_device_allocator].
      apply list_lookup_insert_eq. eapply lookup_lt_Some, Hdev.
Qed.

Lemma SwapIn_serial_and_concurrent_witness :
  exists device_blocks bm' calls,
    length device_blocks = 2%nat /\
    SwapIn (MkBlockManager Examples.block_config Examples.device_pool
              [Examples.host_pool] true 0 []) [0%nat; 1%nat] []
      = Some (Returned Status_default, device_blocks, bm', calls).
Proof.
  destruct (SwapIn_serial_and_concurrent
              (MkBlockManager Examples.block_config Examples.device_pool
                 [Examples.host_pool] true 0 []) [0%nat; 1%nat] []
              Examples.host_pool)
    as (db & bm' & calls & Hlen & Hserial & _).
  - reflexivity.
  - vm_compute. lia.
  - intros id Hid.
    apply elem_of_cons in Hid as [->|Hid];
      [|apply list_elem_of_singleton in Hid as ->]; vm_compute; eauto.
  - destruct (Hserial eq_refl) as (Hrun & _).
    exists db, bm', calls. split; [exact Hlen|exact Hrun].
Defined.

Lemma GetBlockPtrs_untracked blocks addrs a id :
  id ∈ blocks -> block_ptr a id = None ->
  BlockManager.GetBlockPtrs blocks addrs a
    = (MkStatus RET_INVALID_ARGUMENT "Unknown block id.", addrs).
Proof.
  intros Hin Hnone. unfold BlockManager.GetBlockPtrs.
  destruct (mapM (block_ptr a) blocks) as [ptrs|] eqn:Hm; [|reflexivity].
  assert (Hs : is_Some (mapM (block_ptr a) blocks)) by eauto.
  apply mapM_is_Some in Hs. rewrite Forall_forall in Hs.
  destruct (Hs id Hin) as [x Hx]. simpl in Hx. congruence.
Qed.

(** X10: the two early returns of [SwapOut].  When the host pool has fewer
    free blocks than there are device blocks, the status of the host
    allocation is returned and nothing has changed.  When the host
    allocation succeeded and the current device does not track one of the
    device blocks, the error of the device's [GetBlockPtrs] is returned in
    either mode and nothing is rolled back: the host blocks handed out
    stay allocated, no copy is issued and no device block is freed. *)
Theorem SwapOut_early_returns bm device_blocks host_blocks0 :
  ((length (free_map (host_allocator_ bm)) < length device_blocks)%nat ->
   exists st,
     SwapOut bm device_blocks host_blocks0
       = Some (Returned st, host_blocks0, bm) /\
     OK st = false) /\
  (forall device_allocator id,
     (length device_blocks <= length (free_map (host_allocator_ bm)))%nat ->
     device_allocators_ bm !! GetDeviceId bm = Some device_allocator ->
     id ∈ device_blocks -> block_ptr device_allocator id = None ->
     exists st host_blocks bm',
       SwapOut bm device_blocks host_blocks0
         = Some (Returned st, host_blocks, bm') /\
       OK st = false /\
       length host_blocks = length device_blocks /\
       ops bm' = ops bm ++ [OpHostAllocate host_blocks] /\
       free_map (host_allocator_ bm')
         = drop (length device_blocks) (free_map (host_allocator_ bm)) /\
       (forall b, b ∈ host_blocks ->
          is_Some (used_map (host_allocator_ bm') !! b)) /\
       device_allocators_ bm' = device_allocators_ bm).
Proof.
  split.
  - intros Hshort.
    exists (MkStatus RET_OUT_OF_DEVICE_MEMORY "No more free blocks.").
    split; [|reflexivity].
    unfold SwapOut, BlockManager.AllocateBlocks.
    destruct (Nat.ltb_spec (length (free_map (host_allocator_ bm)))
                (length device_blocks)); [|lia].
    exact eq_refl.
  - intros device_allocator id Hfree Hdev Hin Hnone.
    set (n := length device_blocks) in *.
    set (ha := MkAllocator (drop n (free_map (host_allocator_ bm)))
                 (foldr (fun b m => <[b.1 := (b.2, 1%nat)]> m)
                        (used_map (host_allocator_ bm))
                        (take n (free_map (host_allocator_ bm))))).
    set (hb := fst <$> take n (free_map (host_allocator_ bm))).
    destruct (BlockManagerFacts.GetBlockPtrs_tracked hb [] ha)
      as (host_addrs & Hha & Hhl).
    { intros b Hb. unfold block_ptr.
      destruct (BlockManagerFacts.taken_blocks_used
                  (take n (free_map (host_allocator_ bm)))
                  (used_map (host_allocator_ bm)) b Hb) as [[addr rc] Hl].
      simpl. rewrite Hl. eauto. }
    assert (Hhb : length hb = n).
    { unfold hb. rewrite length_fmap, length_take. lia. }
    pose proof (BlockManagerFacts.AllocateBlocks_enough n host_blocks0
                  (host_allocator_ bm) Hfree) as Halloc.
    fold ha hb in Halloc.
    exists (MkStatus RET_INVALID_ARGUMENT "Unknown block id."), hb,
           (with_host bm ha [OpHostAllocate hb]).
    split_and!; try exact eq_refl; try exact Hhb.
    + unfold SwapOut. fold n. rewrite Halloc. swap_out_step.
      rewrite Hha. swap_out_step. rewrite Hdev. cbn [mbind option_bind].
      rewrite (GetBlockPtrs_untracked device_blocks [] device_allocator id
                 Hin Hnone).
      exact eq_refl.
    + intros b Hb. cbn [host_allocator_ with_host used_map ha].
      exact (BlockManagerFacts.taken_blocks_used _ _ b Hb).
Qed.

Lemma SwapOut_early_returns_witness :
  (exists st,
     SwapOut (Examples.block_manager true)
             [0%nat; 1%nat; 2%nat; 3%nat] [7%nat]
       = Some (Returned st, [7%nat], Examples.block_manager true) /\
     OK st = false) /\
  (exists st host_blocks bm',
     SwapOut (Examples.block_manager true) [0%nat; 5%nat] []
       = Some (Returned st, host_blocks, bm') /\
     OK st = false /\
     length host_blocks = 2%nat /\
     free_map (host_allocator_ bm') = [(12%nat, 3000%Z)]).
Proof.
  split.
  - apply (proj1 (SwapOut_early_returns (Examples.block_manager true)
                    [0%nat; 1%nat; 2%nat; 3%nat] [7%nat])).
    vm_compute. lia.
  - destruct (proj2 (SwapOut_early_returns (Examples.block_manager true)
                       [0%nat; 5%nat] [])
                    Examples.device_pool 5%nat)
      as (st & hb & bm' & Hrun & Hok & Hlen & _ & Hfree & _).
    + vm_compute. lia.
    + reflexivity.
    + right. left.
    + vm_compute. reflexivity.
    + exists st, hb, bm'. split_and!; assumption.
Defined.

End BlockManagerOpsFacts.

(** ** BlockManager: what CalculateBlockNumber computes *)

Module BlockManagerSizing.
Import BlockManager BlockManagerOps.














End BlockManagerSizing.

(** ** BatchScheduler: the gate for groups, and what a call leaves alone *)

Module AdmissionFrame.
Import BatchScheduler BatchSchedulerFacts.

Lemma CheckWaitingQueueFull_group c w (group : list nat) :
  (Z.of_nat (length group) < 2 ^ 31)%Z ->
  (Z.of_nat (length (waiting_queue (batch_state w)))
   + Z.of_nat (length group) < SizeT.modulus)%Z ->
  CheckWaitingQueueFull c w (SizeT.to_int (Z.of_nat (length group))) =
  (max_waiting_queue_len c <=?
     Z.of_nat (length (waiting_queue (batch_state w)))
     + Z.of_nat (length group))%Z.
Proof.
  intros Hint Hsmall. unfold CheckWaitingQueueFull.
  rewrite SizeTFacts.to_int_small by lia.
  rewrite SizeTFacts.wrap_small; [reflexivity|].
  unfold SizeT.in_range. lia.
Qed.

(** X13: the admission gate for a group of any size.  The capacity test
    counts the whole group against [waiting_queue]: the group is rejected
    with EXCEED_CAPACITY exactly when
    [waiting_queue.size() + group.size() >= max_waiting_queue_len],
    whatever the prompt lengths (the capacity test comes first); it is
    rejected with EXCEED_LENGTH exactly when it passes the capacity test
    and the prompt of its first request is longer than [max_token_len];
    it is accepted exactly when it passes both.  So a scheduler with
    [max_waiting_queue_len <= 1] accepts nothing. *)
Theorem admission_gate_for_groups c w group p r :
  group !! 0%nat = Some p ->
  requests w !! p = Some r ->
  (forall q, q ∈ group -> is_Some (requests w !! q)) ->
  (Z.of_nat (length group) < 2 ^ 31)%Z ->
  (Z.of_nat (length (waiting_queue (batch_state w)))
   + Z.of_nat (length group) < SizeT.modulus)%Z ->
  exists st w',
    AddInferRequest c w group = Some (st, w') /\
    (code st = RET_EXCEED_CAPACITY <->
     (max_waiting_queue_len c
        <= Z.of_nat (length (waiting_queue (batch_state w)))
           + Z.of_nat (length group))%Z) /\
    (code st = RET_EXCEED_LENGTH <->
     (Z.of_nat (length (waiting_queue (batch_state w)))
      + Z.of_nat (length group) < max_waiting_queue_len c)%Z /\
     (max_token_len c < Z.of_nat (length (input_tokens r)))%Z) /\
    (st = Status_default /\ w' = push_waiting_buffer group w <->
     (Z.of_nat (length (waiting_queue (batch_state w)))
      + Z.of_nat (length group) < max_waiting_queue_len c)%Z /\
     (Z.of_nat (length (input_tokens r)) <= max_token_len c)%Z) /\
    ((max_waiting_queue_len c <= 1)%Z -> code st = RET_EXCEED_CAPACITY).
Proof.
  intros Hp Hr Hall Hint Hsmall.
  pose proof (CheckWaitingQueueFull_group c w group Hint Hsmall) as Hfull.
  destruct group as [|p0 rest]; [discriminate|]. injection Hp as ->.
  assert (Hlen : (1 <= Z.of_nat (length (p :: rest)))%Z) by (simpl; lia).
  unfold AddInferRequest. rewrite Hr. cbn [mbind option_bind].
  rewrite Hfull.
  destruct (Z.leb_spec (max_waiting_queue_len c)
              (Z.of_nat (length (waiting_queue (batch_state w)))
               + Z.of_nat (length (p :: rest)))) as [Hle|Hlt].
  - destruct (reject_total r (p :: rest)
                (MkStatus RET_EXCEED_CAPACITY "waiting queue is full.") w Hall)
      as [w' ->].
    eexists _, w'. split; [reflexivity|]. cbn [code].
    split_and!.
    + split; [intros _; exact Hle|reflexivity].
    + split; [discriminate|lia].
    + split; [intros [? _]; discriminate|lia].
    + reflexivity.
  - unfold CheckRequestExceedLength.
    destruct (Z.ltb_spec (max_token_len c) (Z.of_nat (length (input_tokens r))))
      as [Hlong|Hshort].
    + destruct (reject_total r (p :: rest)
                  (MkStatus RET_EXCEED_LENGTH
                     "input length exceed max_token_len.") w Hall)
        as [w' ->].
      eexists _, w'. split; [reflexivity|]. cbn [code].
      split_and!.
      * split; [discriminate|lia].
      * split; [intros _; split; assumption|reflexivity].
      * split; [intros [? _]; discriminate|lia].
      * lia.
    + eexists _, _. split; [reflexivity|]. cbn [code Status_default].
      split_and!.
      * split; [discriminate|lia].
      * split; [discriminate|lia].
      * split; [intros _; split; assumption|intros _; split; reflexivity].
      * lia.
Qed.

Lemma admission_gate_for_groups_witness :
  exists st w',
    AddInferRequest Examples.config Examples.group_world [5%nat; 6%nat]
      = Some (st, w') /\
    (code st = RET_EXCEED_CAPACITY <-> (2 <= 0 + 2)%Z).
Proof.
  destruct (admission_gate_for_groups Examples.config Examples.group_world
              [5%nat; 6%nat] 5%nat
              (Examples.request 4 [41; 42; 43; 44; 45]%Z 9 9))
    as (st & w' & Hrun & Hcap & _).
  - reflexivity.
  - reflexivity.
  - intros q Hq.
    apply elem_of_cons in Hq as [->|Hq];
      [|apply list_elem_of_singleton in Hq as ->]; vm_compute; eauto.
  - vm_compute. reflexivity.
  - vm_compute. reflexivity.
  - exists st, w'. split; [exact Hrun|exact Hcap].
Defined.

(** A call that returns success took the last branch. *)
Lemma AddInferRequest_accepted c w group st w' :
  AddInferRequest c w group = Some (st, w') -> OK st = true ->
  st = Status_default /\ w' = push_waiting_buffer group w.
Proof.
  intros Hrun Hok.
  destruct group as [|p0 rest]; [discriminate|].
  unfold AddInferRequest in Hrun.
  destruct (requests w !! p0) as [r0|]; cbn [mbind option_bind] in Hrun;
    [|discriminate].
  destruct (CheckWaitingQueueFull _ _ _).
  { apply reject_inv in Hrun as (-> & _). discriminate. }
  destruct (CheckRequestExceedLength _ _).
  { apply reject_inv in Hrun as (-> & _). discriminate. }
  injection Hrun as <- <-. split; reflexivity.
Qed.

(** X14: what [AddInferRequest] leaves alone.  No call changes
    [waiting_queue], [running_queue] or [swapped_queue], so the capacity
    test gives the same answer after the call as before it, however many
    groups were accepted: accepted requests are counted only once the
    scheduler has moved them out of the waiting buffer.  An accepted group
    is appended to [waiting_buffer_queue] in its order, and no request,
    status or waiter is written and nothing is notified; a rejected group
    leaves all four queues as they were and writes to no request outside
    the group. *)
Theorem AddInferRequest_frame c w group st w' :
  AddInferRequest c w group = Some (st, w') ->
  waiting_queue (batch_state w') = waiting_queue (batch_state w) /\
  running_queue (batch_state w') = running_queue (batch_state w) /\
  swapped_queue (batch_state w') = swapped_queue (batch_state w) /\
  (forall num, CheckWaitingQueueFull c w' num = CheckWaitingQueueFull c w num) /\
  (OK st = true ->
   waiting_buffer_queue (batch_state w')
     = waiting_buffer_queue (batch_state w) ++ group /\
   requests w' = requests w /\ statuses w' = statuses w /\
   waiters w' = waiters w /\ trace w' = trace w) /\
  (OK st = false ->
   batch_state w' = batch_state w /\
   forall q, q ∉ group -> requests w' !! q = requests w !! q).
Proof.
  intros Hrun.
  destruct (OK st) eqn:Hok.
  - destruct (AddInferRequest_accepted _ _ _ _ _ Hrun Hok) as [-> ->].
    split_and!; try reflexivity; try discriminate.
    intros _. split_and!; reflexivity.
  - destruct (AdmissionGate.AddInferRequest_rejected _ _ _ _ _ Hrun Hok)
      as (p0 & rest & r0 & -> & Hr0 & _ & Hrej).
    apply reject_inv in Hrej as (_ & _ & Hb & _ & _ & Hreq).
    split_and!; try (rewrite Hb; reflexivity); try discriminate.
    + intros num. unfold CheckWaitingQueueFull. rewrite Hb. reflexivity.
    + intros _. split; [exact Hb|].
      intros q Hq. rewrite Hreq.
      destruct (decide (q ∈ p0 :: rest)); [contradiction|reflexivity].
Qed.

Lemma AddInferRequest_frame_witness :
  waiting_queue
    (batch_state (push_waiting_buffer [1%nat] Examples.none_waiting))
    = waiting_queue (batch_state Examples.none_waiting) /\
  waiting_buffer_queue
    (batch_state (push_waiting_buffer [1%nat] Examples.none_waiting))
    = waiting_buffer_queue (batch_state Examples.none_waiting) ++ [1%nat].
Proof.
  destruct (AddInferRequest_frame Examples.config Examples.none_waiting
              [1%nat] Status_default
              (push_waiting_buffer [1%nat] Examples.none_waiting))
    as (H1 & _ & _ & _ & H5 & _).
  - vm_compute. reflexivity.
  - split; [exact H1|]. apply H5. reflexivity.
Defined.

End AdmissionFrame.

(** ** BatchManager: the request Enqueue creates *)

Module EnqueueFacts.
Import BatchManager BatchSchedulerFacts.

Lemma new_address_fresh w : requests w !! new_address w = None.
Proof.
  unfold new_address. apply not_elem_of_dom. apply is_fresh.
Qed.

(** X15: [Enqueue] creates exactly one request object.  The object is at
    an address no request had before, the requests that existed are not
    written, and the new request has the prompt of the client request,
    stage CONTEXT, step 0, one (empty) block list per tensor-parallel
    rank and the block size of the block manager.  It is left unfinished
    exactly when the scheduler took it, in which case its address is the
    new last element of the waiting buffer; when the scheduler rejected it,
    it is finished and the queues are as before. *)
Theorem Enqueue_creates_one_request bm w req :
  exists w' r,
    Enqueue bm w req = Some (Status_default, w') /\
    requests w !! new_address w = None /\
    (forall q, q <> new_address w -> requests w' !! q = requests w !! q) /\
    requests w' !! new_address w = Some r /\
    input_tokens r = r_input_tokens req /\
    infer_stage r = STAGE_CONTEXT /\ step r = 0%Z /\
    kv_cache_blocks r = replicate (tensor_parallel_size bm) [] /\
    block_size r = block_manager_block_size bm /\
    (finished r = false ->
     waiting_buffer_queue (batch_state w')
       = waiting_buffer_queue (batch_state w) ++ [new_address w]) /\
    (finished r = true -> batch_state w' = batch_state w).
Proof.
  set (p := new_address w).
  set (w0 := allocate_request p (make_infer_request bm req) w).
  assert (Hp : requests w0 !! p = Some (make_infer_request bm req)).
  { unfold w0. cbn [requests allocate_request]. apply lookup_insert_eq. }
  destruct (AdmissionGate.AddInferRequest_total (batch_scheduler_config bm)
              w0 [p] p eq_refl) as (st & w1 & Hrun).
  { intros q Hq. apply list_elem_of_singleton in Hq as ->. eauto. }
  assert (HE : Enqueue bm w req
               = Some (Status_default, Notify (queue_waiter_ bm) w1)).
  { unfold Enqueue. fold p w0. rewrite Hrun. reflexivity. }
  destruct (OK st) eqn:Hok.
  - destruct (AdmissionFrame.AddInferRequest_accepted _ _ _ _ _ Hrun Hok)
      as [-> ->].
    exists (Notify (queue_waiter_ bm) (push_waiting_buffer [p] w0)),
           (make_infer_request bm req).
    split_and!; try reflexivity; try discriminate.
    + exact HE.
    + apply new_address_fresh.
    + intros q Hq. cbn [requests Notify push_waiting_buffer w0
                         allocate_request].
      apply lookup_insert_ne. congruence.
    + exact Hp.
  - destruct (AdmissionGate.AddInferRequest_rejected _ _ _ _ _ Hrun Hok)
      as (p0 & rest & r0 & Hg & Hr0 & _ & Hrej).
    apply reject_inv in Hrej as (_ & _ & Hb & _ & _ & Hreq).
    exists (Notify (queue_waiter_ bm) w1),
           (with_finished (make_infer_request bm req) true).
    split_and!; try reflexivity; try discriminate.
    + exact HE.
    + apply new_address_fresh.
    + intros q Hq. cbn [requests Notify]. rewrite Hreq.
      destruct (decide (q ∈ [p])) as [Hin|_].
      * apply list_elem_of_singleton in Hin. contradiction.
      * unfold w0. cbn [requests allocate_request].
        apply lookup_insert_ne. congruence.
    + cbn [requests Notify]. rewrite Hreq, Hp.
      destruct (decide (p ∈ [p])) as [_|Hn]; [reflexivity|].
      exfalso. apply Hn. left.
    + intros _. cbn [batch_state Notify]. rewrite Hb. reflexivity.
Qed.

End EnqueueFacts.

(** ** BatchManager: the driver thread and Stop, from Start on *)

Module DriverFacts.
Import BatchManager Driver.

Section FromStart.

Variable Schedule : World -> World * list nat.
Variable Step : list nat -> World -> World.
Variable queue_waiter : nat.

Local Abbreviation run := (BatchManager.run Schedule Step queue_waiter).
Local Abbreviation sys_step :=
  (BatchManager.sys_step Schedule Step queue_waiter).
Local Abbreviation halted :=
  (BatchManager.halted Schedule Step queue_waiter).

Lemma driver_safe_step s s' :
  driver_safe s -> sys_step s s' -> driver_safe s'.
Proof.
  intros (Hflag & Hret & Hjoin & Hstep) [Hm|Hm].
  - unfold process_move in Hm.
    destruct s as [t pc sp w]. cbn [process_pc terminated_ stop_pc world] in *.
    destruct pc; try discriminate.
    + injection Hm as <-. unfold driver_safe.
      cbn [process_pc terminated_ stop_pc world stop_has_set_flag].
      split_and!; [exact Hflag| | |].
      * destruct t; [reflexivity|discriminate].
      * intros Hs. specialize (Hjoin Hs). discriminate.
      * destruct t; discriminate.
    + injection Hm as <-. unfold driver_safe.
      cbn [process_pc terminated_ stop_pc world stop_has_set_flag].
      split_and!; [exact Hflag| | |].
      * destruct (Schedule w).2; discriminate.
      * intros Hs. specialize (Hjoin Hs). discriminate.
      * intros reqs. destruct (Schedule w).2 eqn:E; [discriminate|].
        intros [= <-]. discriminate.
    + destruct (waiter_done queue_waiter w); [|discriminate].
      injection Hm as <-. unfold driver_safe.
      cbn [process_pc terminated_ stop_pc world stop_has_set_flag].
      split_and!; [exact Hflag|discriminate| |discriminate].
      intros Hs. specialize (Hjoin Hs). discriminate.
    + injection Hm as <-. unfold driver_safe.
      cbn [process_pc terminated_ stop_pc world stop_has_set_flag].
      split_and!; [exact Hflag|discriminate| |discriminate].
      intros Hs. specialize (Hjoin Hs). discriminate.
    + injection Hm as <-. unfold driver_safe.
      cbn [process_pc terminated_ stop_pc world stop_has_set_flag].
      split_and!; [exact Hflag|discriminate| |discriminate].
      intros Hs. specialize (Hjoin Hs). discriminate.
  - unfold stop_move in Hm.
    destruct s as [t pc sp w]. cbn [process_pc terminated_ stop_pc world] in *.
    unfold stop_has_set_flag in Hflag. cbn [stop_pc] in Hflag.
    destruct sp; try discriminate.
    + injection Hm as <-. unfold driver_safe.
      cbn [process_pc terminated_ stop_pc world stop_has_set_flag].
      split_and!; [exact Hflag|exact Hret|discriminate|exact Hstep].
    + injection Hm as <-. unfold driver_safe.
      cbn [process_pc terminated_ stop_pc world stop_has_set_flag].
      split_and!; [reflexivity|reflexivity|discriminate|exact Hstep].
    + injection Hm as <-. unfold driver_safe.
      cbn [process_pc terminated_ stop_pc world stop_has_set_flag].
      split_and!; [exact Hflag|exact Hret|discriminate|exact Hstep].
    + destruct pc; try discriminate.
      injection Hm as <-. unfold driver_safe.
      cbn [process_pc terminated_ stop_pc world stop_has_set_flag].
      split_and!; [exact Hflag|exact Hret|reflexivity|exact Hstep].
Qed.

Lemma driver_safe_run s s' : driver_safe s -> run s s' -> driver_safe s'.
Proof.
  intros Hs Hrun. induction Hrun as [|s s1 s2 Hstep _ IH]; [assumption|].
  apply IH. eapply driver_safe_step; eassumption.
Qed.

Lemma driver_safe_started w : driver_safe (started w).
Proof.
  unfold driver_safe, started.
  cbn [process_pc terminated_ stop_pc world stop_has_set_flag].
  split_and!; [reflexivity|discriminate|discriminate|discriminate].
Qed.

(** X16: safety of the driver loop, for every scheduler and runtime and
    every interleaving of the driver thread with a call of [Stop], from
    the moment [Start] has created the thread.  [terminated_] is set
    exactly from [Stop]'s assignment on; [Process] returns only when
    [terminated_] is set; [Stop] returns only after [Process] has returned
    (the join); and [Step] is never called with an empty batch. *)
Theorem driver_loop_safety w s :
  run (started w) s ->
  (terminated_ s = true <->
   stop_pc s = AtNotify \/ stop_pc s = AtJoin \/ stop_pc s = StopReturned) /\
  (process_pc s = ProcessReturned -> terminated_ s = true) /\
  (stop_pc s = StopReturned -> process_pc s = ProcessReturned) /\
  (forall reqs, process_pc s = InStep reqs -> reqs <> []).
Proof.
  intros Hrun.
  destruct (driver_safe_run _ _ (driver_safe_started w) Hrun)
    as (Hflag & Hret & Hjoin & Hstep).
  split_and!; try assumption.
  rewrite Hflag. unfold stop_has_set_flag.
  destruct (stop_pc s); split; intros H; try discriminate; auto;
    destruct H as [H|[H|H]]; discriminate.
Qed.

End FromStart.


Section NoDeadlock.

Variable Schedule : World -> World * list nat.
Variable Step : list nat -> World -> World.
Variable queue_waiter : nat.

(** The scheduler and the runtime do not use the queue waiter. *)
Hypothesis Schedule_keeps_waiter :
  forall w, waiters (Schedule w).1 !! queue_waiter = waiters w !! queue_waiter.
Hypothesis Step_keeps_waiter :
  forall reqs w,
    waiters (Step reqs w) !! queue_waiter = waiters w !! queue_waiter.

Local Abbreviation run := (BatchManager.run Schedule Step queue_waiter).
Local Abbreviation sys_step :=
  (BatchManager.sys_step Schedule Step queue_waiter).
Local Abbreviation halted :=
  (BatchManager.halted Schedule Step queue_waiter).

Lemma waiter_inv_step s s' :
  driver_safe s -> waiter_inv queue_waiter s -> sys_step s s' ->
  waiter_inv queue_waiter s'.
Proof using Type*.
  intros (Hflag & _ & Hjoin & _) Hinv [Hm|Hm].
  - unfold process_move in Hm.
    destruct s as [t pc sp w].
    unfold waiter_inv, stop_has_notified, stop_has_set_flag in *.
    cbn [process_pc terminated_ stop_pc world] in *.
    destruct pc; try discriminate.
    + injection Hm as <-. cbn [process_pc terminated_ stop_pc world].
      destruct sp; subst t; cbn [negb];
        try (split; [exact (proj1 Hinv)|discriminate]);
        (destruct Hinv as [H|[H _]]; [left; exact H|right; auto]).
    + injection Hm as <-. cbn [process_pc terminated_ stop_pc world].
      rewrite Schedule_keeps_waiter.
      destruct sp;
        try (split; [exact (proj1 Hinv)|
                     destruct (Schedule w).2; discriminate]);
        (destruct Hinv as [H|[_ [H|H]]]; [left; exact H|discriminate..]).
    + unfold waiter_done in Hm.
      destruct sp;
        try (rewrite (proj1 Hinv) in Hm; discriminate Hm);
        (destruct Hinv as [H|[_ [H|H]]]; [|discriminate..];
         rewrite H in Hm; injection Hm as <-;
         cbn [process_pc terminated_ stop_pc world]; left; exact H).
    + injection Hm as <-. cbn [process_pc terminated_ stop_pc world].
      destruct sp;
        try (exfalso; apply (proj2 Hinv); reflexivity);
        (destruct Hinv as [H|[_ [H|H]]]; [|discriminate..];
         right; split; [|left; reflexivity];
         cbn [waiters Reset_queue_waiter];
         rewrite lookup_alter_eq, H; reflexivity).
    + injection Hm as <-. cbn [process_pc terminated_ stop_pc world].
      rewrite Step_keeps_waiter.
      destruct sp;
        try (split; [exact (proj1 Hinv)|discriminate]);
        (destruct Hinv as [H|[_ [H|H]]]; [left; exact H|discriminate..]).
  - unfold stop_move in Hm.
    destruct s as [t pc sp w].
    unfold waiter_inv, stop_has_notified in *.
    cbn [process_pc terminated_ stop_pc world] in *.
    destruct sp; try discriminate.
    + injection Hm as <-. cbn [process_pc terminated_ stop_pc world].
      exact Hinv.
    + injection Hm as <-. cbn [process_pc terminated_ stop_pc world].
      exact Hinv.
    + injection Hm as <-. cbn [process_pc terminated_ stop_pc world].
      left. cbn [waiters Notify].
      rewrite lookup_alter_eq, (proj1 Hinv). reflexivity.
    + destruct pc; try discriminate.
      injection Hm as <-. cbn [process_pc terminated_ stop_pc world].
      exact Hinv.
Qed.

Lemma waiter_inv_run s s' :
  driver_safe s -> waiter_inv queue_waiter s -> run s s' ->
  driver_safe s' /\ waiter_inv queue_waiter s'.
Proof using Type*.
  intros Hs Hw Hrun. induction Hrun as [|s s1 s2 Hstep _ IH]; [auto|].
  apply IH.
  - eapply driver_safe_step; eassumption.
  - eapply waiter_inv_step; eassumption.
Qed.

(** X17: [Stop] cannot leave the driver asleep.  When only the driver and
    [Stop] use the queue waiter, which [Initialize] arms for one
    notification, then in every state reached from [Start], under every
    interleaving: the driver is blocked in [Wait] only while [Stop] has not
    yet notified; so a state in which neither thread can move is one in
    which [Process] has returned and [Stop] has returned after joining
    it. *)
Theorem stop_wakes_the_driver w s :
  waiters w !! queue_waiter = Some (MkWaiter 1 false) ->
  run (started w) s ->
  (process_pc s = AtWait ->
   process_move Schedule Step queue_waiter s = None ->
   stop_pc s = StopNotCalled \/ stop_pc s = AtSetTerminated \/
   stop_pc s = AtNotify) /\
  (halted s ->
   terminated_ s = true /\ process_pc s = ProcessReturned /\
   stop_pc s = StopReturned).
Proof using Type*.
  intros Hw0 Hrun.
  destruct (waiter_inv_run (started w) s (driver_safe_started w)) as
    [(Hflag & Hret & Hjoin & _) Hinv]; [|exact Hrun|].
  { unfold waiter_inv, started, stop_has_notified.
    cbn [process_pc terminated_ stop_pc world].
    split; [exact Hw0|discriminate]. }
  assert (Hblocked :
    process_pc s = AtWait ->
    process_move Schedule Step queue_waiter s = None ->
    stop_has_notified s = false).
  { intros Hpc Hm. unfold process_move in Hm. rewrite Hpc in Hm.
    unfold waiter_inv in Hinv.
    destruct (stop_has_notified s); [|reflexivity].
    unfold waiter_done in Hm.
    destruct Hinv as [H|[_ [H|H]]]; [|congruence..].
    rewrite H in Hm. discriminate. }
  split.
  - intros Hpc Hm. specialize (Hblocked Hpc Hm).
    unfold stop_has_notified in Hblocked.
    destruct (stop_pc s); try discriminate; auto.
  - intros [Hp Hq].
    assert (Hpr : process_pc s = ProcessReturned).
    { destruct (process_pc s) eqn:Hpc; try reflexivity;
        try (unfold process_move in Hp; rewrite Hpc in Hp; discriminate).
      specialize (Hblocked eq_refl Hp).
      unfold stop_move in Hq. unfold stop_has_notified in Hblocked.
      destruct (stop_pc s); try discriminate. }
    split_and!; [auto|exact Hpr|].
    unfold stop_move in Hq. rewrite Hpr in Hq.
    destruct (stop_pc s); try discriminate. reflexivity.
Qed.

End NoDeadlock.

(** The driver of the example has scheduled the running request and is
    about to call [Step] on it. *)
Lemma run_to_step :
  run Examples.schedule_running Examples.step_one_token 7
      (started Examples.generating)
      (MkSys false (InStep [0%nat]) StopNotCalled Examples.generating).
Proof.
  eapply run_step; [left; reflexivity|].
  eapply run_step; [left; reflexivity|].
  apply run_refl.
Defined.

Lemma driver_loop_safety_witness :
  process_pc (MkSys false (InStep [0%nat]) StopNotCalled Examples.generating)
    = InStep [0%nat] /\
  [0%nat] <> [].
Proof.
  split; [reflexivity|].
  exact (proj2 (proj2 (proj2
    (driver_loop_safety Examples.schedule_running Examples.step_one_token 7
       Examples.generating
       (MkSys false (InStep [0%nat]) StopNotCalled Examples.generating)
       run_to_step))) [0%nat] eq_refl).
Defined.

Lemma step_one_token_waiters reqs w :
  waiters (Examples.step_one_token reqs w) = waiters w.
Proof.
  induction reqs as [|p rest IH]; [reflexivity|].
  unfold Examples.step_one_token in *. cbn [foldr].
  unfold Examples.append_token at 1. cbn [waiters]. exact IH.
Qed.

(** [Stop] is called before the driver of the example has tested its
    loop condition: the driver returns at once and is joined. *)
Lemma run_to_joined :
  run Examples.schedule_running Examples.step_one_token 7
      (started Examples.generating)
      (MkSys true ProcessReturned StopReturned
             (Notify 7 Examples.generating)).
Proof.
  eapply run_step; [right; reflexivity|].
  eapply run_step; [right; reflexivity|].
  eapply run_step; [left; reflexivity|].
  eapply run_step; [right; reflexivity|].
  eapply run_step; [right; reflexivity|].
  apply run_refl.
Defined.

Lemma stop_wakes_the_driver_witness :
  terminated_ (MkSys true ProcessReturned StopReturned
                     (Notify 7 Examples.generating)) = true /\
  process_pc (MkSys true ProcessReturned StopReturned
                    (Notify 7 Examples.generating)) = ProcessReturned /\
  stop_pc (MkSys true ProcessReturned StopReturned
                 (Notify 7 Examples.generating)) = StopReturned.
Proof.
  apply (proj2 (stop_wakes_the_driver
                  Examples.schedule_running Examples.step_one_token 7
                  (fun w => eq_refl)
                  (fun reqs w =>
                     f_equal (fun m => m !! 7%nat)
                             (step_one_token_waiters reqs w))
                  Examples.generating
                  (MkSys true ProcessReturned StopReturned
                         (Notify 7 Examples.generating))
                  eq_refl run_to_joined)).
  split; reflexivity.
Defined.

End DriverFacts.

(** ** CustomAllReduceSumLayer: the reduce op over the life of a layer *)

Module CustomAllReduceSumFacts.
Import CustomAllReduceSum.

Lemma Forward_inv l ins outs st outs' l' made :
  Forward l ins outs = Some (st, outs', l', made) ->
  exists in0 out0,
    ins !! 0%nat = Some in0 /\ outs !! 0%nat = Some out0 /\
    st = Status_default /\
    outs' = <[0%nat := MkTensor (ptr out0) (shape in0) (dtype in0)]> outs /\
    (l', made) =
      (if (1 <? GetTensorParallelSize l)%Z then
         if is_init_ l then
           (l, [CallCustomAllReduceRun (reduce_op_ l) (ptr in0) (ptr out0)
                  (SizeT.to_int (GetElementNumber in0)) (stream_of l)])
         else
           let op := MkReduceOp (ptr in0) (SizeT.to_int (GetElementNumber in0))
                       (rank_data_sz_ l) (GetTensorParallelSize l) (rank_ l)
                       (stream_of l) in
           (initialised l op,
            [CallCustomAllReduceInit op;
             CallCustomAllReduceRun (Some op) (ptr in0) (ptr out0)
               (SizeT.to_int (GetElementNumber in0)) (stream_of l)])
       else
         (l, [CallMemcpyDeviceToDevice (ptr out0) (ptr in0) (GetTotalBytes in0)
                (stream_of l)])).
Proof.
  unfold Forward.
  destruct (ins !! 0%nat) as [in0|]; cbn [mbind option_bind]; [|discriminate].
  destruct (outs !! 0%nat) as [out0|]; cbn [mbind option_bind];
    [|discriminate].
  intros H. exists in0, out0.
  destruct (1 <? GetTensorParallelSize l)%Z; [destruct (is_init_ l)|];
    cbn [negb app] in H; injection H as <- <- <- <-;
    split_and!; reflexivity.
Qed.

Lemma Forwards_cons l ins outs rest l' made :
  Forwards l ((ins, outs) :: rest) = Some (l', made) ->
  exists st outs1 l1 made1 made2,
    Forward l ins outs = Some (st, outs1, l1, made1) /\
    Forwards l1 rest = Some (l', made2) /\
    made = made1 ++ made2.
Proof.
  cbn [Forwards].
  destruct (Forward l ins outs) as [[[[st outs1] l1] made1]|] eqn:Hf;
    cbn [mbind option_bind]; [|discriminate].
  destruct (Forwards l1 rest) as [[l2 made2]|] eqn:Hr;
    cbn [mbind option_bind]; [|discriminate].
  cbn [fst snd]. intros [= <- <-].
  exists st, outs1, l1, made1, made2.
  split_and!; [reflexivity|exact Hr|reflexivity].
Qed.

(** Once the op exists, every call runs it and nothing else. *)
Lemma Forwards_initialised op : forall calls l l' made,
  (1 < GetTensorParallelSize l)%Z ->
  is_init_ l = true -> reduce_op_ l = Some op ->
  Forwards l calls = Some (l', made) ->
  l' = l /\ length made = length calls /\
  Forall (is_run_with op (stream_of l)) made.
Proof.
  induction calls as [|[ins outs] rest IH]; intros l l' made Htp Hinit Hop H.
  - injection H as <- <-. split_and!; [reflexivity|reflexivity|constructor].
  - apply Forwards_cons in H
      as (st & outs1 & l1 & made1 & made2 & Hf & Hrest & ->).
    apply Forward_inv in Hf as (in0 & out0 & _ & _ & _ & _ & Hpair).
    destruct (Z.ltb_spec 1 (GetTensorParallelSize l)); [|lia].
    rewrite Hinit, Hop in Hpair. injection Hpair as -> ->.
    destruct (IH l l' made2 Htp Hinit Hop Hrest) as (-> & Hlen & Hall).
    split_and!; [reflexivity|cbn [app length]; lia|].
    constructor; [split; reflexivity|exact Hall].
Qed.

Lemma Forwards_copy : forall calls l l' made,
  (GetTensorParallelSize l <= 1)%Z ->
  Forwards l calls = Some (l', made) ->
  l' = l /\ length made = length calls /\
  Forall (is_copy_on (stream_of l)) made.
Proof.
  induction calls as [|[ins outs] rest IH]; intros l l' made Htp H.
  - injection H as <- <-. split_and!; [reflexivity|reflexivity|constructor].
  - apply Forwards_cons in H
      as (st & outs1 & l1 & made1 & made2 & Hf & Hrest & ->).
    apply Forward_inv in Hf as (in0 & out0 & _ & _ & _ & _ & Hpair).
    destruct (Z.ltb_spec 1 (GetTensorParallelSize l)); [lia|].
    injection Hpair as -> ->.
    destruct (IH l l' made2 Htp Hrest) as (-> & Hlen & Hall).
    split_and!; [reflexivity|cbn [app length]; lia|].
    constructor; [reflexivity|exact Hall].
Qed.

(** X18: [Forward] over the life of a layer.  With more than one
    tensor-parallel rank, the reduce op is made once, by the first call, for
    the input buffer and the element count of that call; every call, the
    first included, then runs that same op, whatever its own input and
    element count are; no copy is issued.  With one rank no op is ever made
    or run: every call is one device-to-device copy and the layer does not
    change.  All calls go to one stream: the compute stream of the rank in
    serial mode, its NCCL stream otherwise. *)
Theorem reduce_op_made_once l calls l' made :
  Forwards l calls = Some (l', made) ->
  ((1 < GetTensorParallelSize l)%Z -> is_init_ l = false ->
   forall ins outs rest in0,
     calls = (ins, outs) :: rest -> ins !! 0%nat = Some in0 ->
     exists runs,
       made = CallCustomAllReduceInit
                (MkReduceOp (ptr in0) (SizeT.to_int (GetElementNumber in0))
                   (rank_data_sz_ l) (GetTensorParallelSize l) (rank_ l)
                   (stream_of l)) :: runs /\
       length runs = length calls /\
       Forall (is_run_with
                 (MkReduceOp (ptr in0) (SizeT.to_int (GetElementNumber in0))
                    (rank_data_sz_ l) (GetTensorParallelSize l) (rank_ l)
                    (stream_of l))
                 (stream_of l)) runs /\
       is_init_ l' = true) /\
  ((1 < GetTensorParallelSize l)%Z -> is_init_ l = true ->
   forall op, reduce_op_ l = Some op ->
     l' = l /\ length made = length calls /\
     Forall (is_run_with op (stream_of l)) made) /\
  ((GetTensorParallelSize l <= 1)%Z ->
   l' = l /\ length made = length calls /\
   Forall (is_copy_on (stream_of l)) made) /\
  stream_of l = (if IsRunContextDecodeAndDecodeSerially l
                 then ComputeStream (rank_ l) else NCCLStream (rank_ l)).
Proof.
  intros H. split_and!.
  - intros Htp Hinit ins outs rest in0 -> Hin0.
    apply Forwards_cons in H
      as (st & outs1 & l1 & made1 & made2 & Hf & Hrest & ->).
    apply Forward_inv in Hf as (in0' & out0 & Hin0' & _ & _ & _ & Hpair).
    rewrite Hin0 in Hin0'. injection Hin0' as <-.
    destruct (Z.ltb_spec 1 (GetTensorParallelSize l)); [|lia].
    rewrite Hinit in Hpair. cbn zeta in Hpair. injection Hpair as -> ->.
    set (op := MkReduceOp (ptr in0) (SizeT.to_int (GetElementNumber in0))
                 (rank_data_sz_ l) (GetTensorParallelSize l) (rank_ l)
                 (stream_of l)) in *.
    destruct (Forwards_initialised op rest (initialised l op) l' made2)
      as (-> & Hlen & Hall); try reflexivity; try assumption.
    eexists. split; [reflexivity|].
    split_and!; [cbn [length]; lia| |reflexivity].
    constructor; [split; reflexivity|exact Hall].
  - intros Htp Hinit op Hop.
    exact (Forwards_initialised op calls l l' made Htp Hinit Hop H).
  - intros Htp. exact (Forwards_copy calls l l' made Htp H).
  - reflexivity.
Qed.

Lemma reduce_op_made_once_witness :
  exists runs,
    [CallCustomAllReduceInit (MkReduceOp 100 6 64 2 1 (NCCLStream 1));
     CallCustomAllReduceRun (Some (MkReduceOp 100 6 64 2 1 (NCCLStream 1)))
       100 200 6 (NCCLStream 1);
     CallCustomAllReduceRun (Some (MkReduceOp 100 6 64 2 1 (NCCLStream 1)))
       300 400 8 (NCCLStream 1)]
    = CallCustomAllReduceInit (MkReduceOp 100 6 64 2 1 (NCCLStream 1)) :: runs
    /\ length runs = 2%nat.
Proof.
  destruct (proj1 (reduce_op_made_once
                     (MkLayer false 2 1 64 false None)
                     [([MkTensor 100 [2; 3]%Z TYPE_FP16],
                       [MkTensor 200 [] TYPE_FP32]);
                      ([MkTensor 300 [2; 4]%Z TYPE_FP16],
                       [MkTensor 400 [] TYPE_FP32])]
                     (MkLayer false 2 1 64 true
                        (Some (MkReduceOp 100 6 64 2 1 (NCCLStream 1))))
                     _ eq_refl)
                  ltac:(reflexivity) eq_refl _ _ _ _ eq_refl eq_refl)
    as (runs & Hmade & Hlen & _).
  exists runs. split; [exact Hmade|exact Hlen].
Defined.

End CustomAllReduceSumFacts.

(** ** CommonModel: the token buffer of the CPU embedding *)

Module CommonModelFacts.
Import Llama CommonModel.

Lemma memcpy_ints_fits buf pos data count :
  (pos + length data <= length buf)%nat ->
  Z.to_nat (count / sizeof_int) = length data ->
  memcpy_ints buf (Z.of_nat pos * sizeof_int) data count
  = Some (take pos buf ++ data ++ drop (pos + length data) buf).
Proof.
  intros Hfit Hsz. unfold memcpy_ints. rewrite Hsz.
  unfold sizeof_int. rewrite Z.div_mul by lia. rewrite Nat2Z.id.
  rewrite firstn_all.
  destruct (Nat.leb_spec (pos + length data) (length buf)); [reflexivity|lia].
Qed.

Lemma memcpy_ints_overflow buf pos data count :
  (length buf < pos + length data)%nat ->
  Z.to_nat (count / sizeof_int) = length data ->
  memcpy_ints buf (Z.of_nat pos * sizeof_int) data count = None.
Proof.
  intros Hfit Hsz. unfold memcpy_ints. rewrite Hsz.
  unfold sizeof_int. rewrite Z.div_mul by lia. rewrite Nat2Z.id.
  rewrite firstn_all.
  destruct (Nat.leb_spec (pos + length data) (length buf)); [lia|reflexivity].
Qed.

Lemma copy_len_ints r :
  vector_sized r ->
  Z.to_nat (SizeT.wrap (Z.of_nat (length (output_tokens r)) * sizeof_int)
            / sizeof_int)
  = length (output_tokens r).
Proof.
  intros Hr. unfold vector_sized in Hr.
  rewrite SizeTFacts.wrap_small
    by (unfold SizeT.in_range, sizeof_int in *; lia).
  unfold sizeof_int. rewrite Z.div_mul by lia. apply Nat2Z.id.
Qed.

Lemma overwrite_prefix {A} (done_ data buf : list A) :
  (length done_ + length data <= length buf)%nat ->
  take (length done_) (done_ ++ drop (length done_) buf) ++ data
    ++ drop (length done_ + length data) (done_ ++ drop (length done_) buf)
  = (done_ ++ data) ++ drop (length (done_ ++ data)) buf.
Proof.
  intros Hfit.
  rewrite take_app_length.
  rewrite drop_app_ge by lia. rewrite drop_drop, length_app, <- app_assoc.
  do 3 f_equal. lia.
Qed.

(** The context loop, from a state in which [done_] has been written. *)
Lemma embed_context_loop : forall forward_reqs done_ buf,
  (Z.of_nat (length buf) * sizeof_int < SizeT.modulus)%Z ->
  Forall vector_sized forward_reqs ->
  (length done_ <= length buf)%nat ->
  embed_tokens_loop true forward_reqs (done_ ++ drop (length done_) buf)
                    (Z.of_nat (length done_) * sizeof_int)
  = if (length (done_ ++ concat (output_tokens <$> forward_reqs))
        <=? length buf)%nat
    then Some ((done_ ++ concat (output_tokens <$> forward_reqs))
               ++ drop (length (done_ ++ concat (output_tokens <$> forward_reqs)))
                       buf,
               Z.of_nat (length (done_
                                 ++ concat (output_tokens <$> forward_reqs)))
               * sizeof_int)%Z
    else None.
Proof.
  induction forward_reqs as [|r rest IH]; intros done_ buf Hbuf Hall Hdone.
  - cbn [embed_tokens_loop fmap list_fmap concat]. rewrite app_nil_r.
    destruct (Nat.leb_spec (length done_) (length buf)); [reflexivity|lia].
  - inversion Hall as [|? ? Hr Hrest]; subst.
    rewrite fmap_cons. cbn [concat embed_tokens_loop].
    assert (Hlen : length (done_ ++ drop (length done_) buf) = length buf).
    { rewrite length_app, length_drop. lia. }
    destruct (Nat.leb_spec (length done_ + length (output_tokens r))
                (length buf)) as [Hfit|Hover].
    + rewrite memcpy_ints_fits;
        [|rewrite Hlen; exact Hfit|apply copy_len_ints, Hr].
      cbn [mbind option_bind].
      rewrite (overwrite_prefix done_ (output_tokens r) buf Hfit).
      rewrite (SizeTFacts.wrap_small
                 (Z.of_nat (length (output_tokens r)) * sizeof_int))
        by (unfold vector_sized, SizeT.in_range, sizeof_int in *; lia).
      rewrite SizeTFacts.wrap_small
        by (unfold SizeT.in_range, sizeof_int in *; lia).
      replace (Z.of_nat (length done_) * sizeof_int
               + Z.of_nat (length (output_tokens r)) * sizeof_int)%Z
        with (Z.of_nat (length (done_ ++ output_tokens r)) * sizeof_int)%Z
        by (rewrite length_app; lia).
      rewrite IH; [|assumption|assumption|rewrite length_app; lia].
      rewrite <- !app_assoc. reflexivity.
    + rewrite memcpy_ints_overflow;
        [|rewrite Hlen; exact Hover|apply copy_len_ints, Hr].
      cbn [mbind option_bind].
      destruct (Nat.leb_spec
                  (length (done_ ++ output_tokens r
                           ++ concat (output_tokens <$> rest)))
                  (length buf)) as [Hle|]; [|reflexivity].
      rewrite !length_app in Hle. lia.
Qed.

(** The decode loop, from a state in which [done_] has been written. *)
Lemma embed_decode_loop : forall forward_reqs done_ buf,
  (Z.of_nat (length buf) * sizeof_int < SizeT.modulus)%Z ->
  (length done_ <= length buf)%nat ->
  embed_tokens_loop false forward_reqs (done_ ++ drop (length done_) buf)
                    (Z.of_nat (length done_) * sizeof_int)
  = match mapM (fun r => last (output_tokens r)) forward_reqs with
    | Some ids =>
        if (length (done_ ++ ids) <=? length buf)%nat
        then Some ((done_ ++ ids) ++ drop (length (done_ ++ ids)) buf,
                   Z.of_nat (length (done_ ++ ids)) * sizeof_int)%Z
        else None
    | None => None
    end.
Proof.
  induction forward_reqs as [|r rest IH]; intros done_ buf Hbuf Hdone.
  - cbn [embed_tokens_loop mapM mret option_ret]. rewrite app_nil_r.
    destruct (Nat.leb_spec (length done_) (length buf)); [reflexivity|lia].
  - cbn [embed_tokens_loop mapM].
    destruct (last (output_tokens r)) as [back|]; cbn [mbind option_bind];
      [|reflexivity].
    assert (Hlen : length (done_ ++ drop (length done_) buf) = length buf).
    { rewrite length_app, length_drop. lia. }
    destruct (Nat.leb_spec (length done_ + length [back]) (length buf))
      as [Hfit|Hover].
    + rewrite memcpy_ints_fits; [|rewrite Hlen; exact Hfit|reflexivity].
      cbn [mbind option_bind].
      rewrite (overwrite_prefix done_ [back] buf Hfit).
      rewrite SizeTFacts.wrap_small.
      2:{ cbn [length] in Hfit. unfold SizeT.in_range, sizeof_int in *. lia. }
      replace (Z.of_nat (length done_) * sizeof_int + sizeof_int)%Z
        with (Z.of_nat (length (done_ ++ [back])) * sizeof_int)%Z
        by (rewrite length_app; cbn [length]; unfold sizeof_int; lia).
      rewrite IH; [|assumption|rewrite length_app; exact Hfit].
      destruct (mapM (fun r0 => last (output_tokens r0)) rest) as [ids|];
        cbn [mbind option_bind mret option_ret]; [|reflexivity].
      rewrite <- !app_assoc. reflexivity.
    + rewrite memcpy_ints_overflow; [|rewrite Hlen; exact Hover|reflexivity].
      cbn [mbind option_bind].
      destruct (mapM (fun r0 => last (output_tokens r0)) rest) as [ids|];
        cbn [mbind option_bind mret option_ret]; [|reflexivity].
      destruct (Nat.leb_spec (length (done_ ++ back :: ids)) (length buf))
        as [Hle|]; [|reflexivity].
      rewrite length_app in Hle. cbn [length] in Hle, Hover. lia.
Qed.

Lemma length_context_input_ids forward_reqs :
  length (context_input_ids forward_reqs)
  = length (concat (output_tokens <$> forward_reqs)).
Proof. rewrite LlamaFacts.context_input_ids_concat. reflexivity. Qed.

Lemma mapM_last_tokens forward_reqs :
  Forall (fun r => output_tokens r <> []) forward_reqs ->
  exists ids,
    mapM (fun r => last (output_tokens r)) forward_reqs = Some ids /\
    Forall2 (fun r tok => last (output_tokens r) = Some tok) forward_reqs ids.
Proof.
  induction 1 as [|r rest Hr _ (ids & Hm & Hall)].
  - exists []. split; [reflexivity|constructor].
  - destruct (last (output_tokens r)) as [tok|] eqn:Hlast.
    + exists (tok :: ids). cbn [mapM]. rewrite Hlast, Hm.
      split; [reflexivity|]. constructor; assumption.
    + apply last_None in Hlast. contradiction.
Qed.

Lemma mapM_last_tokens_none forward_reqs :
  Exists (fun r => output_tokens r = []) forward_reqs ->
  mapM (fun r => last (output_tokens r)) forward_reqs = None.
Proof.
  induction 1 as [r rest Hr|r rest _ IH]; cbn [mapM].
  - rewrite Hr. reflexivity.
  - rewrite IH. destruct (last (output_tokens r)); reflexivity.
Qed.

(** X19: the token buffer [EmbedTokensUseCpu] fills for the CPU embedding
    holds what ContextDecode and Decode of llama.cpp put in [input_ids].
    In the context stage it is every token of every request in request
    order, in the decode stage the last token of each request; the shape is
    set to the number of tokens written, and the rest of the buffer is not
    touched.  Nothing checks the buffer: with more tokens than the buffer
    has room for the copy leaves the buffer, and in the decode stage
    [back()] of a request without tokens is undefined where Decode's [at]
    throws. *)
Theorem EmbedTokensUseCpu_tokens forward_reqs buf :
  (Z.of_nat (length buf) * sizeof_int < SizeT.modulus)%Z ->
  Forall vector_sized forward_reqs ->
  ((length (context_input_ids forward_reqs) <= length buf)%nat ->
   EmbedTokensUseCpu true forward_reqs buf
   = Some (context_input_ids forward_reqs
             ++ drop (length (context_input_ids forward_reqs)) buf,
           [Z.of_nat (length (context_input_ids forward_reqs))])) /\
  ((length buf < length (context_input_ids forward_reqs))%nat ->
   EmbedTokensUseCpu true forward_reqs buf = None) /\
  (Forall (fun r => output_tokens r <> []) forward_reqs ->
   (length forward_reqs <= length buf)%nat ->
   exists ids,
     Forall2 (fun r tok => last (output_tokens r) = Some tok)
             forward_reqs ids /\
     EmbedTokensUseCpu false forward_reqs buf
     = Some (ids ++ drop (length forward_reqs) buf,
             [Z.of_nat (length forward_reqs)])) /\
  ((length buf < length forward_reqs)%nat \/
   Exists (fun r => output_tokens r = []) forward_reqs ->
   EmbedTokensUseCpu false forward_reqs buf = None).
Proof.
  intros Hbuf Hall.
  pose proof (embed_context_loop forward_reqs [] buf Hbuf Hall
                ltac:(cbn [length]; lia)) as Hctx.
  pose proof (embed_decode_loop forward_reqs [] buf Hbuf
                ltac:(cbn [length]; lia)) as Hdec.
  cbn [length app] in Hctx, Hdec. rewrite drop_0 in Hctx, Hdec.
  change (Z.of_nat 0 * sizeof_int)%Z with 0%Z in Hctx, Hdec.
  rewrite <- LlamaFacts.context_input_ids_concat in Hctx.
  split_and!.
  - intros Hfit. unfold EmbedTokensUseCpu. rewrite Hctx.
    destruct (Nat.leb_spec (length (context_input_ids forward_reqs))
                (length buf)); [|lia].
    cbn [mbind option_bind fst snd]. unfold sizeof_int.
    rewrite Z.div_mul by lia. reflexivity.
  - intros Hover. unfold EmbedTokensUseCpu. rewrite Hctx.
    destruct (Nat.leb_spec (length (context_input_ids forward_reqs))
                (length buf)); [lia|reflexivity].
  - intros Htok Hfit.
    destruct (mapM_last_tokens forward_reqs Htok) as (ids & Hm & Hids).
    exists ids. split; [exact Hids|].
    pose proof (Forall2_length _ _ _ Hids) as Hlen.
    unfold EmbedTokensUseCpu. rewrite Hdec, Hm.
    destruct (Nat.leb_spec (length ids) (length buf)); [|lia].
    cbn [mbind option_bind fst snd]. unfold sizeof_int.
    rewrite Z.div_mul by lia. rewrite Hlen. reflexivity.
  - intros Hbad. unfold EmbedTokensUseCpu. rewrite Hdec.
    destruct (mapM (fun r => last (output_tokens r)) forward_reqs)
      as [ids|] eqn:Hm; [|reflexivity].
    destruct Hbad as [Hover|Hempty].
    + apply length_mapM in Hm.
      destruct (Nat.leb_spec (length ids) (length buf)); [lia|reflexivity].
    + rewrite (mapM_last_tokens_none _ Hempty) in Hm. discriminate.
Qed.

Lemma EmbedTokensUseCpu_tokens_witness :
  EmbedTokensUseCpu true Examples.batch [0; 0; 0; 0; 0; 0; 0; 0]%Z
  = Some (context_input_ids Examples.batch
            ++ drop (length (context_input_ids Examples.batch))
                    [0; 0; 0; 0; 0; 0; 0; 0]%Z,
          [Z.of_nat (length (context_input_ids Examples.batch))]).
Proof.
  apply (proj1 (EmbedTokensUseCpu_tokens Examples.batch
                  [0; 0; 0; 0; 0; 0; 0; 0]%Z
                  ltac:(vm_compute; reflexivity)
                  ltac:(repeat constructor))).
  vm_compute. lia.
Defined.

End CommonModelFacts.

(** ** Llama: the tensors between constructor and destructor *)

Module LlamaTensorsFacts.
Import LlamaTensors.

Lemma exec_create_used name z s :
  used_contiguous_memory_map (exec s (Create name z))
  = <[fresh (dom (used_contiguous_memory_map s)) := z]>
      (used_contiguous_memory_map s).
Proof. reflexivity. Qed.

Lemma exec_create_tensor name z s :
  tensor (exec s (Create name z))
  = set_tensor name
      (MkTensor [(z / 2)%Z] [fresh (dom (used_contiguous_memory_map s))])
      (tensor s).
Proof. reflexivity. Qed.

Lemma set_tensor_eq name x f : set_tensor name x f name = x.
Proof.
  unfold set_tensor. destruct (decide (name = name)); [reflexivity|contradiction].
Qed.

Lemma set_tensor_ne name x f n : n <> name -> set_tensor name x f n = f n.
Proof.
  intros Hne. unfold set_tensor.
  destruct (decide (n = name)); [contradiction|reflexivity].
Qed.

Lemma fresh_unused (used : gmap nat Z) : used !! fresh (dom used) = None.
Proof. apply not_elem_of_dom, is_fresh. Qed.

(** The blocks the statements of a constructor allocate: one per created
    tensor, all new and different from each other; nothing else in the
    map changes. *)
Lemma constructor_blocks : forall stmts s,
  NoDup (created stmts) ->
  exists f : TensorName -> nat,
    (forall n, n ∈ created stmts ->
       block_ids (tensor (fold_left exec stmts s) n) = [f n] /\
       used_contiguous_memory_map s !! f n = None) /\
    (forall n z, Create n z ∈ stmts ->
       used_contiguous_memory_map (fold_left exec stmts s) !! f n = Some z) /\
    (forall n, n ∉ created stmts ->
       block_ids (tensor (fold_left exec stmts s) n)
       = block_ids (tensor s n)) /\
    (forall n n', n ∈ created stmts -> n' ∈ created stmts ->
       f n = f n' -> n = n') /\
    (forall id, (forall n, n ∈ created stmts -> f n <> id) ->
       used_contiguous_memory_map (fold_left exec stmts s) !! id
       = used_contiguous_memory_map s !! id).
Proof.
  induction stmts as [|stmt rest IH]; intros s Hnd.
  - exists (fun _ => 0%nat). cbn [fold_left created omap].
    split_and!; try reflexivity.
    + intros n Hn. inversion Hn.
    + intros n z Hn. inversion Hn.
    + intros n n' Hn. inversion Hn.
  - destruct stmt as [name z|name sh].
    + change (created (Create name z :: rest)) with (name :: created rest)
        in *.
      apply NoDup_cons in Hnd as [Hname Hnd].
      destruct (IH (exec s (Create name z)) Hnd)
        as (f & Hids & Hsize & Hother & Hinj & Hframe).
      set (id1 := fresh (dom (used_contiguous_memory_map s))) in *.
      assert (Hid1 : used_contiguous_memory_map s !! id1 = None)
        by apply fresh_unused.
      assert (Hne : forall n, n ∈ created rest -> f n <> id1).
      { intros n Hn Heq. destruct (Hids n Hn) as [_ Hnone].
        rewrite exec_create_used, Heq in Hnone. fold id1 in Hnone.
        rewrite lookup_insert_eq in Hnone. discriminate. }
      assert (Hused1 : used_contiguous_memory_map
                         (fold_left exec rest (exec s (Create name z)))
                       !! id1 = Some z).
      { rewrite (Hframe id1 Hne), exec_create_used. fold id1.
        apply lookup_insert_eq. }
      exists (fun n => if decide (n = name) then id1 else f n).
      cbn [fold_left]. split_and!.
      * intros n Hn. destruct (decide (n = name)) as [->|Hnn].
        -- split; [|exact Hid1].
           rewrite (Hother name Hname), exec_create_tensor, set_tensor_eq.
           reflexivity.
        -- apply elem_of_cons in Hn as [?|Hn]; [contradiction|].
           destruct (Hids n Hn) as [Hb Hnone]. split; [exact Hb|].
           rewrite exec_create_used in Hnone.
           apply lookup_insert_None in Hnone as [Hnone _]. exact Hnone.
      * intros n z' Hn. apply elem_of_cons in Hn as [Heq|Hn].
        -- injection Heq as -> ->.
           destruct (decide (name = name)); [exact Hused1|contradiction].
        -- destruct (decide (n = name)) as [->|Hnn].
           ++ exfalso. apply Hname.
              unfold created. apply list_elem_of_omap.
              exists (Create name z'). split; [exact Hn|reflexivity].
           ++ exact (Hsize n z' Hn).
      * intros n Hn. apply not_elem_of_cons in Hn as [Hnn Hn].
        rewrite (Hother n Hn), exec_create_tensor, set_tensor_ne by exact Hnn.
        reflexivity.
      * intros n n' Hn Hn'.
        destruct (decide (n = name)) as [->|Hnn],
                 (decide (n' = name)) as [->|Hnn']; intros Heq.
        -- reflexivity.
        -- apply elem_of_cons in Hn' as [?|Hn']; [contradiction|].
           exfalso. exact (Hne n' Hn' (eq_sym Heq)).
        -- apply elem_of_cons in Hn as [?|Hn]; [contradiction|].
           exfalso. exact (Hne n Hn Heq).
        -- apply elem_of_cons in Hn as [?|Hn]; [contradiction|].
           apply elem_of_cons in Hn' as [?|Hn']; [contradiction|].
           exact (Hinj n n' Hn Hn' Heq).
      * intros id Hid.
        assert (Hid1' : id1 <> id).
        { specialize (Hid name ltac:(left)).
          destruct (decide (name = name)); [exact Hid|contradiction]. }
        rewrite Hframe.
        -- rewrite exec_create_used. fold id1.
           apply lookup_insert_ne. exact Hid1'.
        -- intros n Hn. specialize (Hid n ltac:(right; exact Hn)).
           destruct (decide (n = name)) as [->|]; [contradiction|exact Hid].
    + change (created (SetShape name sh :: rest)) with (created rest) in *.
      destruct (IH (exec s (SetShape name sh)) Hnd)
        as (f & Hids & Hsize & Hother & Hinj & Hframe).
      exists f. cbn [fold_left]. split_and!.
      * exact Hids.
      * intros n z Hn. apply elem_of_cons in Hn as [Heq|Hn];
          [discriminate|exact (Hsize n z Hn)].
      * intros n Hn. rewrite (Hother n Hn).
        cbn [exec tensor].
        destruct (decide (n = name)) as [->|Hnn].
        -- rewrite set_tensor_eq. reflexivity.
        -- rewrite set_tensor_ne by exact Hnn. reflexivity.
      * exact Hinj.
      * exact Hframe.
Qed.

(** The destructor frees the block of every tensor it names and leaves
    the other regions alone. *)
Lemma destroy_all_blocks (f : TensorName -> nat) : forall names s,
  (forall n, n ∈ names -> block_ids (tensor s n) = [f n]) ->
  exists s',
    destroy_all names s = Returned s' /\
    tensor s' = tensor s /\
    forall id,
      used_contiguous_memory_map s' !! id
      = if decide (id ∈ f <$> names) then None
        else used_contiguous_memory_map s !! id.
Proof.
  induction names as [|name rest IH]; intros s Hids.
  - exists s. split_and!; reflexivity.
  - cbn [destroy_all]. unfold DestroyTensor.
    rewrite (Hids name ltac:(left)).
    cbn [length Nat.eqb NLLM_CHECK_WITH_INFO].
    destruct (FreeContiguous (f name) (used_contiguous_memory_map s))
      as [st used1] eqn:Hfree.
    assert (Hused1 : forall id,
              used1 !! id = if decide (id = f name) then None
                            else used_contiguous_memory_map s !! id).
    { intros id. unfold FreeContiguous in Hfree.
      destruct (used_contiguous_memory_map s !! f name) eqn:Hl;
        injection Hfree as <- <-.
      - destruct (decide (id = f name)) as [->|Hne].
        + apply lookup_delete_eq.
        + apply lookup_delete_ne. congruence.
      - destruct (decide (id = f name)) as [->|]; [exact Hl|reflexivity]. }
    destruct (IH (MkState used1 (tensor s))) as (s' & Hrun & Ht & Hused).
    { intros n Hn. cbn [tensor]. apply Hids. right. exact Hn. }
    exists s'. split_and!; [exact Hrun|exact Ht|].
    intros id. rewrite Hused. cbn [used_contiguous_memory_map].
    rewrite Hused1, fmap_cons.
    destruct (decide (id ∈ f <$> rest)) as [Hin|Hnin],
             (decide (id = f name)) as [->|Hne],
             (decide (_ ∈ f name :: (f <$> rest))) as [Hin'|Hnin'];
      try reflexivity; exfalso.
    + apply Hnin'. left.
    + apply Hnin'. right. exact Hin.
    + apply Hnin'. left.
    + apply elem_of_cons in Hin' as [?|?]; contradiction.
Qed.

Lemma created_constructor c stmts :
  constructor_stmts c = Some stmts ->
  created stmts
  = [tmp_tensor_0; tmp_tensor_1; tmp_tensor_2; up_matmul_tensor;
     kv_cache_buffer_; logits_tensor_; kv_cache_offset_tensor; kv_list;
     input_ids; input_offset_int32_tensor; input_offset_uint64_tensor;
     input_tokens_int32_tensor; rotary_embedding_pos; forward_shape] /\
  Create input_tokens_int32_tensor (SizeT.wrap ((max_batch_size c + 1) * 4))
    ∈ stmts.
Proof.
  unfold constructor_stmts.
  destruct (tensor_para_size c =? 0)%Z; [discriminate|].
  intros [= <-]. split; [reflexivity|].
  do 12 apply list_elem_of_further. apply list_elem_of_here.
Qed.

(** Every created tensor is destroyed, except one. *)
Lemma created_or_destroyed n :
  n = input_tokens_int32_tensor \/ n ∈ destructor_names.
Proof.
  destruct n; try (left; reflexivity); right; unfold destructor_names;
    repeat first [apply list_elem_of_here | apply list_elem_of_further].
Qed.

Lemma destroyed_is_created n :
  n ∈ destructor_names ->
  n ∈ [tmp_tensor_0; tmp_tensor_1; tmp_tensor_2; up_matmul_tensor;
       kv_cache_buffer_; logits_tensor_; kv_cache_offset_tensor; kv_list;
       input_ids; input_offset_int32_tensor; input_offset_uint64_tensor;
       input_tokens_int32_tensor; rotary_embedding_pos; forward_shape] /\
  n <> input_tokens_int32_tensor.
Proof.
  intros Hn. split.
  - destruct n;
      repeat first [apply list_elem_of_here | apply list_elem_of_further].
  - intros ->. unfold destructor_names in Hn.
    repeat (apply elem_of_cons in Hn as [Hn|Hn]; [discriminate|]).
    inversion Hn.
Qed.

(** X20: constructing and then destroying a [Llama] leaks one region.
    The constructor creates fourteen tensors, each in a contiguous region
    of its own; the destructor destroys thirteen of them without error.
    The region of [input_tokens_int32_tensor], of
    [(max_batch_size_ + 1) * sizeof(int)] bytes, is never freed: after the
    destructor the contiguous regions of the device are those from before
    the constructor plus that one. *)
Theorem constructor_destructor_leak c used0 :
  tensor_para_size c <> 0%Z ->
  exists s1 s2 block_id,
    Llama_constructor c (MkState used0 no_tensors) = Some s1 /\
    Llama_destructor s1 = Returned s2 /\
    block_ids (tensor s1 input_tokens_int32_tensor) = [block_id] /\
    used0 !! block_id = None /\
    used_contiguous_memory_map s2
    = <[block_id := SizeT.wrap ((max_batch_size c + 1) * 4)]> used0.
Proof.
  intros Htp.
  destruct (constructor_stmts c) as [stmts|] eqn:Hstmts.
  2:{ unfold constructor_stmts in Hstmts.
      destruct (Z.eqb_spec (tensor_para_size c) 0);
        [contradiction|discriminate]. }
  destruct (created_constructor c stmts Hstmts) as [Hcreated Hleak].
  destruct (constructor_blocks stmts (MkState used0 no_tensors))
    as (f & Hids & Hsize & _ & Hinj & Hframe).
  { rewrite Hcreated. apply (bool_decide_unpack _). vm_compute. reflexivity. }
  rewrite Hcreated in Hids, Hinj, Hframe.
  cbn [used_contiguous_memory_map] in Hids, Hframe.
  set (s1 := fold_left exec stmts (MkState used0 no_tensors)) in *.
  destruct (destroy_all_blocks f destructor_names s1) as (s2 & Hrun & _ & Hused).
  { intros n Hn. apply Hids. apply destroyed_is_created. exact Hn. }
  assert (Hitok : input_tokens_int32_tensor
                  ∈ [tmp_tensor_0; tmp_tensor_1; tmp_tensor_2;
                     up_matmul_tensor; kv_cache_buffer_; logits_tensor_;
                     kv_cache_offset_tensor; kv_list; input_ids;
                     input_offset_int32_tensor; input_offset_uint64_tensor;
                     input_tokens_int32_tensor; rotary_embedding_pos;
                     forward_shape]).
  { do 11 apply list_elem_of_further. apply list_elem_of_here. }
  exists s1, s2, (f input_tokens_int32_tensor).
  split_and!.
  - unfold Llama_constructor. rewrite Hstmts. reflexivity.
  - exact Hrun.
  - apply Hids. exact Hitok.
  - apply Hids. exact Hitok.
  - apply map_eq. intros id. rewrite Hused.
    destruct (decide (id = f input_tokens_int32_tensor)) as [->|Hne].
    + rewrite lookup_insert_eq.
      destruct (decide (f input_tokens_int32_tensor ∈ f <$> destructor_names))
        as [Hin|_].
      * apply list_elem_of_fmap in Hin as (n & Heq & Hn).
        destruct (destroyed_is_created n Hn) as [Hn' Hnn].
        exfalso. apply Hnn. symmetry. exact (Hinj _ _ Hitok Hn' Heq).
      * exact (Hsize _ _ Hleak).
    + rewrite lookup_insert_ne by congruence.
      destruct (decide (id ∈ f <$> destructor_names)) as [Hin|Hnin].
      * apply list_elem_of_fmap in Hin as (n & -> & Hn).
        destruct (destroyed_is_created n Hn) as [Hn' _].
        symmetry. apply Hids. exact Hn'.
      * apply Hframe. intros n _ Heq.
        destruct (created_or_destroyed n) as [->|Hn]; [congruence|].
        apply Hnin. apply list_elem_of_fmap. exists n. split; [congruence|exact Hn].
Qed.

Lemma constructor_destructor_leak_witness :
  exists s1 s2 block_id,
    Llama_constructor (MkModelConfig 2 32 4 8 1 64 2 16 16 2)
                      (MkState ∅ no_tensors) = Some s1 /\
    Llama_destructor s1 = Returned s2 /\
    used_contiguous_memory_map s2 = <[block_id := 12%Z]> ∅.
Proof.
  destruct (constructor_destructor_leak (MkModelConfig 2 32 4 8 1 64 2 16 16 2)
              ∅ ltac:(discriminate))
    as (s1 & s2 & id & Hc & Hd & _ & _ & Hused).
  exists s1, s2, id. split_and!; [exact Hc|exact Hd|exact Hused].
Defined.

End LlamaTensorsFacts.

(** ** MatMulLayer on Ascend: shapes and descriptors *)

Module AscendMatMulFacts.
Import AscendMatMul.

Lemma size_t_int64_round_trip z :
  SizeT.in_range z -> SizeT.wrap (LlamaTables.to_int64 z) = z.
Proof.
  intros [H0 H1]. unfold SizeT.wrap, LlamaTables.to_int64.
  rewrite SizeTFacts.modulus_eq in *.
  change (2 ^ 64)%Z with 18446744073709551616%Z.
  change (2 ^ 63)%Z with 9223372036854775808%Z.
  destruct (Z.lt_ge_cases z 9223372036854775808).
  - rewrite (Z.mod_small (z + 9223372036854775808)) by lia.
    rewrite Z.mod_small by lia. lia.
  - replace ((z + 9223372036854775808) mod 18446744073709551616)%Z
      with (z - 9223372036854775808)%Z.
    + symmetry. apply (Z.mod_unique _ _ (-1)); lia.
    + apply (Z.mod_unique _ _ 1); lia.
Qed.

(** X21: [MatMulLayer::Forward] on Ascend.  For an input of shape
    [[b, m, k, ...]] and a weight of shape [[r, n, ...]] the output tensor
    gets the shape [[b, m, n]]: the dimensions pass through [int64_t]
    and back unchanged, also when they do not fit an [int64_t].  The
    number of rows [r] of the weight is never read: the weight is
    described to the kernel as [[k, n]] with the [k] of the input, so two
    weights that differ only in [r] give the same calls and the same
    output.  The descriptors of the input and of the weight are destroyed
    after the kernel call, the one of the output is handed to the output
    tensor. *)
Theorem MatMul_Forward_shapes rank_ in0 w w' out0 ins outs b m k n r r'
    dims wdims :
  shape in0 = b :: m :: k :: dims ->
  shape w = r :: n :: wdims -> shape w' = r' :: n :: wdims ->
  ptr w' = ptr w ->
  SizeT.in_range b -> SizeT.in_range m -> SizeT.in_range n ->
  exists calls,
    Forward rank_ (in0 :: w :: ins) (out0 :: outs)
      = Some (Status_default, MkTensor (ptr out0) [b; m; n] :: outs, calls) /\
    Forward rank_ (in0 :: w' :: ins) (out0 :: outs)
      = Forward rank_ (in0 :: w :: ins) (out0 :: outs) /\
    (exists input weight output,
       calls = [CreateAclTensorWithData input;
                CreateAclTensorWithData weight;
                CreateAclTensorWithData output;
                MatMul input weight 0 output rank_;
                ResetDeviceTensor output;
                aclDestroyTensor input; aclDestroyTensor weight] /\
       acl_shape weight
         = [LlamaTables.to_int64 k; LlamaTables.to_int64 n] /\
       acl_data input = ptr in0 /\ acl_data weight = ptr w /\
       acl_data output = ptr out0).
Proof.
  intros Hin Hw Hw' Hptr Hb Hm Hn.
  eexists. split_and!.
  - unfold Forward. cbn [lookup list_lookup mbind option_bind].
    rewrite Hin, Hw. cbn [lookup list_lookup fmap option_fmap option_map
                          mbind option_bind].
    rewrite !size_t_int64_round_trip by assumption.
    reflexivity.
  - unfold Forward. cbn [lookup list_lookup mbind option_bind].
    rewrite Hin, Hw, Hw', Hptr. reflexivity.
  - eexists _, _, _. split_and!; reflexivity.
Qed.

Lemma MatMul_Forward_shapes_witness :
  exists calls,
    Forward 0 [MkTensor 100 [2; 3; 4]%Z; MkTensor 200 [4; 5]%Z]
              [MkTensor 300 []]
    = Some (Status_default, [MkTensor 300 [2; 3; 5]%Z], calls).
Proof.
  destruct (MatMul_Forward_shapes 0 (MkTensor 100 [2; 3; 4]%Z)
              (MkTensor 200 [4; 5]%Z) (MkTensor 200 [7; 5]%Z)
              (MkTensor 300 []) [] [] 2 3 4 5 4 7 [] []
              eq_refl eq_refl eq_refl eq_refl)
    as (calls & Hrun & _); try (vm_compute; split; [discriminate|reflexivity]).
  exists calls. exact Hrun.
Defined.

End AscendMatMulFacts.
